(** * Setlist solver ([show-order/mvm_showcase_order.py])

    A shallow embedding of the class [SetlistSolver] and of the properties
    that its specification states about it.

    Conventions of the embedding.
    - Python [int]s are unbounded: bit masks are [Z] and the bit operations
      are [Z.land], [Z.lor], [Z.lxor], [Z.lnot], [Z.shiftl] and [Z.shiftr];
      there is no wrap-around to write out.
    - Indices into lists (team indices, ranks, bit positions that come from
      [enumerate] and [range]) are [nat]; they are injected in [Z] where the
      code shifts by them.
    - A [str] is a [string], each character a code point below 256; a
      [Set[str]] is a [gset string].
    - A [dict] is an association list in insertion order whose keys are
      pairwise distinct; [d[k]] is [dict_get].
    - [l[i]] is [l !!! i]. The code reads lists and dictionaries only where
      they are defined ([candidates_below], [solve_spec], [rank_of_lt],
      [idx_to_rank_lookup], [team_to_idx_lookup], [length_adj_r],
      [length_teams_r], [length_adjacency_masks]), so what a total lookup
      gives elsewhere plays no part. The same code with the reads as the
      interpreter has them, where an index out of range and a missing key
      end the call, is [generate_valid_setlists_checked];
      [generate_checked_runs] shows that no read of it fails.
    - The order in which a [set] gives its members is left open where the
      call is taken as a relation on the solver object ([calls]).
    - A generator is the list of the values it yields, in order; an
      exception that the body raises is the left summand of the result. *)

From Stdlib Require Import ZArith List Lia Ascii String Sorted.
From stdpp Require Import base gmap sets list strings sorting.

(** ** Python primitives *)

(** [c.isspace()] for a character with code point below 256. *)
Definition py_isspace (a : ascii) : bool :=
  let c := nat_of_ascii a in
  ((9 <=? c)%nat && (c <=? 13)%nat) || ((28 <=? c)%nat && (c <=? 32)%nat)
  || (c =? 133)%nat || (c =? 160)%nat.

Fixpoint lstrip (s : string) : string :=
  match s with
  | EmptyString => EmptyString
  | String a s' => if py_isspace a then lstrip s' else s
  end.

Fixpoint rstrip (s : string) : string :=
  match s with
  | EmptyString => EmptyString
  | String a s' =>
      match rstrip s' with
      | EmptyString => if py_isspace a then EmptyString else String a EmptyString
      | r => String a r
      end
  end.

(** [s.strip()] *)
Definition strip (s : string) : string := rstrip (lstrip s).

(** Exceptions the class raises. *)
Inductive exn : Type :=
  | ValueError (msg : string).

(** [d.get(k)] on an insertion-ordered dictionary. *)
Fixpoint dict_get {K V : Type} `{EqDecision K} (d : list (K * V)) (k : K) : option V :=
  match d with
  | [] => None
  | (k', v) :: d' => if decide (k' = k) then Some v else dict_get d' k
  end.

(** [k in d] *)
Definition dict_mem {K V : Type} `{EqDecision K} (d : list (K * V)) (k : K) : bool :=
  match dict_get d k with Some _ => true | None => false end.

(** [enumerate(l)] *)
Definition enumerate {A : Type} (l : list A) : list (nat * A) :=
  imap (λ i x, (i, x)) l.

(** Number of digits 1 in the binary numeral of a positive number. *)
Fixpoint pos_count1 (p : positive) : nat :=
  match p with
  | xH => 1
  | xO q => pos_count1 q
  | xI q => S (pos_count1 q)
  end.

(** [bin(z).count("1")]: [bin] of a negative number is the numeral of its
    absolute value after a minus sign. *)
Definition bin_count1 (z : Z) : nat :=
  match z with
  | Z0 => 0
  | Zpos p => pos_count1 p
  | Zneg p => pos_count1 p
  end.

(** Truth value of [(x >> c) & 1]. *)
Definition bit_set (x : Z) (c : nat) : bool :=
  negb (Z.land (Z.shiftr x (Z.of_nat c)) 1 =? 0)%Z.

(** [1 << c] *)
Definition bit (c : nat) : Z := Z.shiftl 1 (Z.of_nat c).

(** The loop
<<
    while x:
        lsb = x & -x
        candidates.append(lsb.bit_length() - 1)
        x ^= lsb
>>
    run for at most [fuel] iterations. *)
Fixpoint lowbits_loop (fuel : nat) (x : Z) : list nat :=
  match fuel with
  | O => []
  | S fuel' =>
      if (x =? 0)%Z then []
      else
        let lsb := Z.land x (- x) in
        Z.to_nat (Z.log2 lsb) :: lowbits_loop fuel' (Z.lxor x lsb)
  end.

(** The same loop with as many iterations as [x] has binary digits, which
    is enough for every [x >= 0] ([lowbits_unfold]); the masks the solver
    passes are never negative. *)
Definition lowbits (x : Z) : list nat :=
  lowbits_loop (S (Z.to_nat (Z.log2 x))) x.

(** Stable insertion: [x] goes before the first element whose key is not
    smaller. *)
Fixpoint insert_by {A : Type} (key : A → nat) (x : A) (l : list A) : list A :=
  match l with
  | [] => [x]
  | y :: l' => if (key x <=? key y)%nat then x :: l else y :: insert_by key x l'
  end.

(** [sorted(l, key=key)] and [l.sort(key=key)]: a stable sort, ascending. *)
Fixpoint sorted {A : Type} (key : A → nat) (l : list A) : list A :=
  match l with
  | [] => []
  | x :: l' => insert_by key x (sorted key l')
  end.

(** ** The solver object *)

Record SetlistSolver : Type := {
  teams_to_members : list (string * gset string);
  teams : list string;
  team_count : nat;
  team_to_idx : list (string * nat);
  adjacency_masks : list Z
}.

(** [teams_to_members[team]] *)
Definition members_of (t2m : list (string * gset string)) (team : string) : gset string :=
  default ∅ (dict_get t2m team).

(** The inner loop of [_build_compatibility_graph]: the mask of team [i]. *)
Definition compatibility_mask (t2m : list (string * gset string)) (tms : list string)
    (i : nat) (members_i : gset string) : Z :=
  foldl (λ mask '(j, team_j),
           if decide (i = j) then mask
           else if decide (members_of t2m team_j ## members_i)
                then Z.lor mask (bit j)
                else mask)
        0%Z (enumerate tms).

Definition _build_compatibility_graph (t2m : list (string * gset string))
    (tms : list string) (n : nat) : list Z :=
  foldl (λ adj '(i, team_i),
           <[ i := compatibility_mask t2m tms i (members_of t2m team_i) ]> adj)
        (replicate n 0%Z) (enumerate tms).

(** Lines 15-18: every member name is stripped; the keys and their order
    stay. *)
Definition sanitized (raw : list (string * gset string)) : list (string * gset string) :=
  map (λ '(team, members), (team, set_map (D := gset string) strip members)) raw.

(** [SetlistSolver.__init__] *)
Definition __init__ (raw : list (string * gset string)) : exn + SetlistSolver :=
  match raw with
  | [] => inl (ValueError "Input `teams_to_members` cannot be empty.")
  | _ =>
      let t2m := sanitized raw in
      let tms := map fst t2m in
      let n := length tms in
      inr {| teams_to_members := t2m;
             teams := tms;
             team_count := n;
             team_to_idx := imap (λ i team, (team, i)) tms;
             adjacency_masks := _build_compatibility_graph t2m tms n |}
  end.

(** ** Validation *)

(** [_sequence_is_valid]: the pairs [zip(seq, seq[1:])] are checked in
    order; the first pair that overlaps is reported. *)
Fixpoint _sequence_is_valid (t2m : list (string * gset string)) (sq : list string)
    : bool * option (string * string * gset string) :=
  match sq with
  | a :: (b :: _) as rest =>
      let overlap := members_of t2m a ∩ members_of t2m b in
      if decide (overlap = ∅) then _sequence_is_valid t2m rest
      else (false, Some (a, b, overlap))
  | _ => (true, None)
  end.

(** ** The path search *)

(** The variables [path] and [used_mask] that the nested generator [solve]
    shares with its recursive calls. *)
Record SearchState : Type := {
  path : list nat;
  used_mask : Z
}.

Section Backtrack.
(** What [solve] closes over. *)
Variable n : nat.
Variable adj_r : list Z.
Variable start_node_r : option nat.
Variable end_node_r : option nat.

(** [path[-1]] *)
Definition path_last (p : list nat) : nat := List.last p 0%nat.

(** [adj_r[last] & ~used_mask] *)
Definition base_allowed (st : SearchState) : Z :=
  Z.land (adj_r !!! path_last (path st)) (Z.lnot (used_mask st)).

(** Lines 123-132: the mask [allowed], or [None] for the [return]. *)
Definition allowed_mask (st : SearchState) : option Z :=
  let L := length (path st) in
  let allowed := base_allowed st in
  match end_node_r with
  | None => Some allowed
  | Some e =>
      let allowed :=
        if (Z.of_nat L <? Z.of_nat n - 1)%Z
        then Z.land allowed (Z.lnot (bit e)) else allowed in
      if (Z.of_nat L =? Z.of_nat n - 1)%Z
      then if bit_set allowed e then Some (bit e) else None
      else Some allowed
  end.

(** Lines 119-142: the list [candidates], or [None] for the [return]. *)
Definition candidates (st : SearchState) : option (list nat) :=
  if (length (path st) =? 0)%nat then
    Some (match start_node_r with
          | Some s => [s]
          | None => seq 0 n
          end)
  else
    match allowed_mask st with
    | None => None
    | Some allowed =>
        Some (sorted (λ c, bin_count1 (Z.land (adj_r !!! c) (Z.lnot (used_mask st))))
                     (lowbits allowed))
    end.

(** [path.append(c); used_mask |= (1 << c)] *)
Definition push (c : nat) (st : SearchState) : SearchState :=
  {| path := path st ++ [c]; used_mask := Z.lor (used_mask st) (bit c) |}.

(** [used_mask &= ~(1 << c); path.pop()] *)
Definition pop (c : nat) (st : SearchState) : SearchState :=
  {| path := removelast (path st);
     used_mask := Z.land (used_mask st) (Z.lnot (bit c)) |}.

(** Lines 144-151: the loop over the candidates. [rec] is the recursive
    call; it gives the paths it yields and the state it leaves, or [None]
    when the recursion budget is used up. *)
Fixpoint for_candidates (rec : SearchState → option (list (list nat) * SearchState))
    (cs : list nat) (st : SearchState) : option (list (list nat) * SearchState) :=
  match cs with
  | [] => Some ([], st)
  | c :: cs' =>
      if bit_set (used_mask st) c then for_candidates rec cs' st
      else
        match rec (push c st) with
        | None => None
        | Some (out1, st1) =>
            match for_candidates rec cs' (pop c st1) with
            | None => None
            | Some (out2, st2) => Some (out1 ++ out2, st2)
            end
        end
  end.

(** The generator [solve], with the shared state passed in and out and a
    bound [depth] on the nesting of calls. *)
Fixpoint solve (depth : nat) (st : SearchState)
    : option (list (list nat) * SearchState) :=
  match depth with
  | O => None
  | S depth' =>
      let L := length (path st) in
      if (L =? n)%nat then
        match end_node_r with
        | None => Some ([path st], st)
        | Some e =>
            if (path_last (path st) =? e)%nat then Some ([path st], st)
            else Some ([], st)
        end
      else
        match candidates st with
        | None => Some ([], st)
        | Some cs => for_candidates (solve depth') cs st
        end
  end.

(** The state a call of [_backtrack_with_end] starts from. *)
Definition fresh : SearchState := {| path := []; used_mask := 0 |}.

(** [_backtrack_with_end]: the calls of [solve] nest [n + 1] deep at
    most ([search_runs]). *)
Definition _backtrack_with_end : list (list nat) :=
  match solve (S n) fresh with
  | Some (out, _) => out
  | None => []
  end.
End Backtrack.

(** ** Generating setlists *)

Section Generate.
Variable self : SetlistSolver.

(** [sorted(range(n), key=lambda i: bin(adjacency_masks[i]).count("1"))] *)
Definition ranked_indices : list nat :=
  sorted (λ i, bin_count1 (adjacency_masks self !!! i)) (seq 0 (team_count self)).

(** [{orig: r for r, orig in enumerate(ranked_indices)}] *)
Definition idx_to_rank : list (nat * nat) :=
  imap (λ r orig, (orig, r)) ranked_indices.

(** [idx_to_rank[j]] *)
Definition rank_of (j : nat) : nat := default 0%nat (dict_get idx_to_rank j).

(** Lines 69-72: the mask [m] of the ranks of the neighbours. *)
Definition reindexed_mask (original_mask : Z) : Z :=
  foldl (λ m j, if bit_set original_mask j then Z.lor m (bit (rank_of j)) else m)
        0%Z (seq 0 (team_count self)).

(** Lines 65-73. *)
Definition adj_r : list Z :=
  foldl (λ a i, <[ rank_of i := reindexed_mask (adjacency_masks self !!! i) ]> a)
        (replicate (team_count self) 0%Z) (seq 0 (team_count self)).

(** [[self.teams[i] for i in ranked_indices]] *)
Definition teams_r : list string := map (λ i, teams self !!! i) ranked_indices.

(** Truth value of an optional string: [None] and the empty string are
    false. *)
Definition truthy (t : option string) : bool :=
  match t with
  | Some (String _ _) => true
  | _ => false
  end.

(** [t not in self.team_to_idx] *)
Definition not_a_team (t : option string) : bool :=
  negb (dict_mem (team_to_idx self) (default EmptyString t)).

(** [idx_to_rank[self.team_to_idx[t]] if t else None] *)
Definition node_r (t : option string) : option nat :=
  if truthy t
  then Some (rank_of (default 0%nat (dict_get (team_to_idx self) (default EmptyString t))))
  else None.

(** [[teams_r[i] for i in path_indices]] *)
Definition names_of (path_indices : list nat) : list string :=
  map (λ i, teams_r !!! i) path_indices.

(** Lines 78-95: the loop that consumes the search. The messages that
    [debug] prints are not part of what is yielded and are left out. *)
Fixpoint emit (limit : option Z) (produced : Z) (paths : list (list nat)) : list (list string) :=
  match paths with
  | [] => []
  | path_indices :: rest =>
      if match limit with Some k => (produced >=? k)%Z | None => false end then []
      else
        let sq := names_of path_indices in
        if fst (_sequence_is_valid (teams_to_members self) sq)
        then sq :: emit limit (produced + 1) rest
        else emit limit produced rest
  end.

Definition generate_valid_setlists (limit : option Z) (start_team end_team : option string)
    : exn + list (list string) :=
  if truthy start_team && not_a_team start_team then
    inl (ValueError ("Start team '" ++ default EmptyString start_team ++ "' not found."))
  else if truthy end_team && not_a_team end_team then
    inl (ValueError ("End team '" ++ default EmptyString end_team ++ "' not found."))
  else
    inr (emit limit 0
           (_backtrack_with_end (team_count self) adj_r
              (node_r start_team) (node_r end_team))).
End Generate.

(** ** Notions the properties are stated with *)

(** The fields of a solver that [__init__] built: they are never assigned
    again. *)
Definition constructed (self : SetlistSolver) : Prop :=
  teams self = map fst (teams_to_members self)
  ∧ team_count self = length (teams self)
  ∧ (0 < team_count self)%nat
  ∧ team_to_idx self = imap (λ i team, (team, i)) (teams self)
  ∧ adjacency_masks self
    = _build_compatibility_graph (teams_to_members self) (teams self) (team_count self).

(** The search state is coherent: [used_mask] has exactly the bits of the
    nodes on [path], which are distinct and below [n]. *)
Definition coherent (n : nat) (st : SearchState) : Prop :=
  NoDup (path st)
  ∧ (∀ c, c ∈ path st → (c < n)%nat)
  ∧ (∀ c : nat, Z.testbit (used_mask st) (Z.of_nat c) = true ↔ c ∈ path st).

(** A complete path that extends the path of [st]. *)
Definition completes (n : nat) (end_node_r : option nat) (st : SearchState)
    (p : list nat) : Prop :=
  length p = n
  ∧ NoDup p
  ∧ (∀ c, c ∈ p → (c < n)%nat)
  ∧ path st `prefix_of` p
  ∧ (∀ e, end_node_r = Some e → path_last p = e).

(** A mask is a set of nodes below [n]. *)
Definition mask_below (n : nat) (m : Z) : Prop :=
  (0 ≤ m)%Z ∧ ∀ c : nat, Z.testbit m (Z.of_nat c) = true → (c < n)%nat.

(** No two consecutive teams of [sq] share a member. *)
Definition no_shared_member (t2m : list (string * gset string)) (sq : list string) : Prop :=
  ∀ (i : nat) (a b : string),
    sq !! i = Some a → sq !! S i = Some b → members_of t2m a ## members_of t2m b.

(** A start or end argument that names no team of the mapping. *)
Definition given_unknown (self : SetlistSolver) (t : option string) : Prop :=
  ∃ name, t = Some name ∧ name ∉ teams self.

(** The same for an argument that is not the empty string. *)
Definition nonempty_unknown (self : SetlistSolver) (t : option string) : Prop :=
  ∃ name, t = Some name ∧ name ≠ EmptyString ∧ name ∉ teams self.

(** ** Example inputs *)

(** The solver that [__init__] returns for [raw]. *)
Definition solver_of (raw : list (string * gset string)) : SetlistSolver :=
  match __init__ raw with
  | inr self => self
  | inl _ =>
      {| teams_to_members := []; teams := []; team_count := 0;
         team_to_idx := []; adjacency_masks := [] |}
  end.

(** Teams [a:{x}], [b:{y}], [c:{x}]. *)
Definition scenario_abc : list (string * gset string) :=
  [("a", {["x"]}); ("b", {["y"]}); ("c", {["x"]})]%string.

(** Two teams, one of them named by the empty string. *)
Definition scenario_unnamed : list (string * gset string) :=
  [(EmptyString, {["x"%string]}); ("b"%string, {["y"%string]})].

(** A search state one step into a graph of four nodes. *)
Definition scenario_adj : list Z := [14; 13; 11; 7]%Z.
Definition scenario_state : SearchState := {| path := [0%nat]; used_mask := 1 |}.
Definition scenario_state_last : SearchState := {| path := [0; 1; 2]%nat; used_mask := 7 |}.

(** ** Notions for the search as a whole *)

(** From position [from] on, each node of [p] has its successor in its
    mask. *)
Definition linked_from (adj : list Z) (from : nat) (p : list nat) : Prop :=
  ∀ (k a b : nat), (from ≤ k)%nat → p !! k = Some a → p !! S k = Some b →
    Z.testbit (adj !!! a) (Z.of_nat b) = true.

(** A path through all [n] nodes, each once, along the masks, that begins
    and ends where it is asked to. *)
Definition hamiltonian (n : nat) (adj : list Z) (start_node_r end_node_r : option nat)
    (p : list nat) : Prop :=
  length p = n
  ∧ NoDup p
  ∧ (∀ c, c ∈ p → (c < n)%nat)
  ∧ linked_from adj 0 p
  ∧ (∀ s, start_node_r = Some s → head p = Some s)
  ∧ (∀ e, end_node_r = Some e → last p = Some e).

(** Such a path that goes on from the path of [st]; the links inside the
    path of [st] are not looked at. *)
Definition extension (n : nat) (adj : list Z) (start_node_r end_node_r : option nat)
    (st : SearchState) (p : list nat) : Prop :=
  path st `prefix_of` p
  ∧ length p = n
  ∧ NoDup p
  ∧ (∀ c, c ∈ p → (c < n)%nat)
  ∧ linked_from adj (length (path st) - 1) p
  ∧ (path st = [] → ∀ s, start_node_r = Some s → head p = Some s)
  ∧ (∀ e, end_node_r = Some e → last p = Some e).

(** A setlist as the glossary has it, with the endpoints that were asked
    for: the teams in some order, no two neighbours sharing a member. *)
Definition valid_setlist (self : SetlistSolver) (start_team end_team : option string)
    (sq : list string) : Prop :=
  sq ≡ₚ teams self
  ∧ no_shared_member (teams_to_members self) sq
  ∧ (∀ name, start_team = Some name → name ≠ EmptyString → head sq = Some name)
  ∧ (∀ name, end_team = Some name → name ≠ EmptyString → last sq = Some name).

(** [idx_to_rank[self.team_to_idx[name]]] *)
Definition node_of_team (self : SetlistSolver) (name : string) : nat :=
  rank_of self (default 0%nat (dict_get (team_to_idx self) name)).

(** The degree of team [i]: the key of the ranking. *)
Definition degree (self : SetlistSolver) (i : nat) : nat :=
  bin_count1 (adjacency_masks self !!! i).

(** ** The diagnostic query *)

(** The line that [explain_pair] prints: the overlap, which the code shows
    as [sorted(inter)], or the word that there is none. *)
Inductive explanation : Type :=
  | Shares (team_a team_b : string) (inter : gset string)
  | Compatible (team_a team_b : string).

(** [explain_pair] prints a line, or a lookup fails with [KeyError]. *)
Inductive explain_outcome : Type :=
  | Printed (line : explanation)
  | KeyError (key : string).

Definition explain_pair (self : SetlistSolver) (team_a team_b : string) : explain_outcome :=
  match dict_get (teams_to_members self) team_a with
  | None => KeyError team_a
  | Some members_a =>
      match dict_get (teams_to_members self) team_b with
      | None => KeyError team_b
      | Some members_b =>
          let inter := members_a ∩ members_b in
          if decide (inter = ∅) then Printed (Compatible team_a team_b)
          else Printed (Shares team_a team_b inter)
      end
  end.

(** ** More example inputs *)

(** Two teams with a common member. *)
Definition scenario_clash : list (string * gset string) :=
  [("a", {["x"]}); ("b", {["x"]})]%string.

(** Two teams whose member names differ by blanks only. *)
Definition scenario_spaces : list (string * gset string) :=
  [("a", {[" x"]}); ("b", {["x "]})]%string.

(** One team. *)
Definition scenario_single : list (string * gset string) :=
  [("a", {["x"]})]%string.

(** The key of the sort at line 142: the number of nodes that would be
    left to go to from [c]. *)
Definition future_options (adj : list Z) (st : SearchState) (c : nat) : nat :=
  bin_count1 (Z.land (adj !!! c) (Z.lnot (used_mask st))).

(** ** The reads that can fail *)

(** The embedding above reads lists and dictionaries with total lookups.
    What follows is the same code with every read as the interpreter has
    it: an index out of range, a key that is missing, a loop that does not
    end and a nesting of calls beyond what the interpreter allows end the
    call. *)
Inductive failure : Type :=
  | Raised (e : exn)
  | IndexError
  | MissingKey
  | RecursionError
  | LoopsForever.

Definition bind {A B : Type} (x : failure + A) (f : A → failure + B) : failure + B :=
  match x with
  | inl e => inl e
  | inr a => f a
  end.

Notation "'let?' x ':=' e 'in' k" := (bind e (λ x, k))
  (at level 10, x name, e at level 100, k at level 200).

(** [l[i]] for [i >= 0]: [IndexError] out of range. *)
Definition get_index {A : Type} (l : list A) (i : nat) : failure + A :=
  match l !! i with
  | Some x => inr x
  | None => inl IndexError
  end.

(** [l[-1]]: [IndexError] on the empty list. *)
Definition get_last {A : Type} (l : list A) : failure + A :=
  match last l with
  | Some x => inr x
  | None => inl IndexError
  end.

(** [l[i] = x] for [i >= 0]: [IndexError] out of range. *)
Definition set_index {A : Type} (l : list A) (i : nat) (x : A) : failure + list A :=
  if decide (i < length l)%nat then inr (<[ i := x ]> l) else inl IndexError.

(** [d[k]]: [KeyError] for a missing key. *)
Definition get_key {K V : Type} `{EqDecision K} (d : list (K * V)) (k : K) : failure + V :=
  match dict_get d k with
  | Some v => inr v
  | None => inl MissingKey
  end.

(** A comprehension [[f(x) for x in l]] whose body can fail. *)
Fixpoint map_checked {A B : Type} (f : A → failure + B) (l : list A) : failure + list B :=
  match l with
  | [] => inr []
  | x :: l' =>
      let? y := f x in
      let? ys := map_checked f l' in
      inr (y :: ys)
  end.

(** A [for] loop over [l] that updates [b] and whose body can fail. *)
Fixpoint foldl_checked {A B : Type} (f : B → A → failure + B) (b : B) (l : list A)
    : failure + B :=
  match l with
  | [] => inr b
  | x :: l' =>
      let? b' := f b x in
      foldl_checked f b' l'
  end.

(** [sorted(l, key=key)] with a key that can fail: the keys are computed
    first, one for each element in order, and the elements are then sorted
    by them. *)
Definition sorted_checked {A : Type} (key : A → failure + nat) (l : list A)
    : failure + list A :=
  let? keys := map_checked key l in
  inr (map fst (sorted snd (zip l keys))).

(** The loop [while x: ...] of line 136: for a negative [x] it clears the
    lowest bit for ever. *)
Definition lowbits_checked (x : Z) : failure + list nat :=
  if (x <? 0)%Z then inl LoopsForever else inr (lowbits x).

Section BacktrackChecked.
Variable n : nat.
Variable adj_r : list Z.
Variable start_node_r : option nat.
Variable end_node_r : option nat.

(** Lines 119-142. *)
Definition candidates_checked (st : SearchState) : failure + option (list nat) :=
  let L := length (path st) in
  if (L =? 0)%nat then
    inr (Some (match start_node_r with
               | Some s => [s]
               | None => seq 0 n
               end))
  else
    let? last := get_last (path st) in
    let? row := get_index adj_r last in
    let allowed := Z.land row (Z.lnot (used_mask st)) in
    let reserved :=
      match end_node_r with
      | None => Some allowed
      | Some e =>
          let allowed :=
            if (Z.of_nat L <? Z.of_nat n - 1)%Z
            then Z.land allowed (Z.lnot (bit e)) else allowed in
          if (Z.of_nat L =? Z.of_nat n - 1)%Z
          then if bit_set allowed e then Some (bit e) else None
          else Some allowed
      end in
    match reserved with
    | None => inr None
    | Some allowed =>
        let? bits := lowbits_checked allowed in
        let? cs :=
          sorted_checked
            (λ c, let? row_c := get_index adj_r c in
                  inr (bin_count1 (Z.land row_c (Z.lnot (used_mask st)))))
            bits in
        inr (Some cs)
    end.

(** Lines 144-151. *)
Fixpoint for_candidates_checked
    (rec : SearchState → failure + (list (list nat) * SearchState))
    (cs : list nat) (st : SearchState) : failure + (list (list nat) * SearchState) :=
  match cs with
  | [] => inr ([], st)
  | c :: cs' =>
      if bit_set (used_mask st) c then for_candidates_checked rec cs' st
      else
        let? r1 := rec (push c st) in
        let? r2 := for_candidates_checked rec cs' (pop c (snd r1)) in
        inr (fst r1 ++ fst r2, snd r2)
  end.

(** [solve]: [frames] is the number of nested calls of [solve] that the
    interpreter still allows; one more is a [RecursionError]. *)
Fixpoint solve_checked (frames : nat) (st : SearchState)
    : failure + (list (list nat) * SearchState) :=
  match frames with
  | O => inl RecursionError
  | S frames' =>
      let L := length (path st) in
      if (L =? n)%nat then
        match end_node_r with
        | None => inr ([path st], st)
        | Some e =>
            let? last := get_last (path st) in
            if (last =? e)%nat then inr ([path st], st) else inr ([], st)
        end
      else
        let? cs := candidates_checked st in
        match cs with
        | None => inr ([], st)
        | Some cs => for_candidates_checked (solve_checked frames') cs st
        end
  end.

(** [_backtrack_with_end] *)
Definition _backtrack_with_end_checked (frames : nat) : failure + list (list nat) :=
  let? r := solve_checked frames fresh in
  inr (fst r).
End BacktrackChecked.

(** [_sequence_is_valid] *)
Fixpoint _sequence_is_valid_checked (t2m : list (string * gset string)) (sq : list string)
    : failure + (bool * option (string * string * gset string)) :=
  match sq with
  | a :: (b :: _) as rest =>
      let? members_a := get_key t2m a in
      let? members_b := get_key t2m b in
      let overlap := members_a ∩ members_b in
      if decide (overlap = ∅) then _sequence_is_valid_checked t2m rest
      else inr (false, Some (a, b, overlap))
  | _ => inr (true, None)
  end.

Section GenerateChecked.
Variable self : SetlistSolver.

(** Lines 58-61. *)
Definition ranked_indices_checked : failure + list nat :=
  sorted_checked
    (λ i, let? mask := get_index (adjacency_masks self) i in inr (bin_count1 mask))
    (seq 0 (team_count self)).

(** Line 66. *)
Definition teams_r_checked (ranked : list nat) : failure + list string :=
  map_checked (get_index (teams self)) ranked.

(** Lines 69-72. *)
Definition reindexed_mask_checked (idx : list (nat * nat)) (original_mask : Z)
    : failure + Z :=
  foldl_checked
    (λ m j, if bit_set original_mask j
            then let? r := get_key idx j in inr (Z.lor m (bit r))
            else inr m)
    0%Z (seq 0 (team_count self)).

(** Lines 65 and 67-73. *)
Definition adj_r_checked (idx : list (nat * nat)) : failure + list Z :=
  foldl_checked
    (λ a i, let? original_mask := get_index (adjacency_masks self) i in
            let? m := reindexed_mask_checked idx original_mask in
            let? r := get_key idx i in
            set_index a r m)
    (replicate (team_count self) 0%Z) (seq 0 (team_count self)).

(** Lines 75 and 76. *)
Definition node_r_checked (idx : list (nat * nat)) (t : option string)
    : failure + option nat :=
  if truthy t then
    let? i := get_key (team_to_idx self) (default EmptyString t) in
    let? r := get_key idx i in
    inr (Some r)
  else inr None.

(** Lines 78-95. *)
Fixpoint emit_checked (names : list string) (limit : option Z) (produced : Z)
    (paths : list (list nat)) : failure + list (list string) :=
  match paths with
  | [] => inr []
  | path_indices :: rest =>
      if match limit with Some k => (produced >=? k)%Z | None => false end then inr []
      else
        let? sq := map_checked (get_index names) path_indices in
        let? verdict := _sequence_is_valid_checked (teams_to_members self) sq in
        if fst verdict then
          let? more := emit_checked names limit (produced + 1) rest in
          inr (sq :: more)
        else emit_checked names limit produced rest
  end.

(** [generate_valid_setlists], consumed to its end or to the limit. The
    search is run to its end before the consuming loop: a failure of the
    search is reported also where the limit would have stopped the
    consumption before it, so a result on the right means that nothing
    fails however far the consumption goes. *)
Definition generate_valid_setlists_checked (frames : nat) (limit : option Z)
    (start_team end_team : option string) : failure + list (list string) :=
  if truthy start_team && not_a_team self start_team then
    inl (Raised (ValueError ("Start team '" ++ default EmptyString start_team
                             ++ "' not found.")))
  else if truthy end_team && not_a_team self end_team then
    inl (Raised (ValueError ("End team '" ++ default EmptyString end_team
                             ++ "' not found.")))
  else
    let? ranked := ranked_indices_checked in
    let idx := imap (λ r orig, (orig, r)) ranked in
    let? names := teams_r_checked ranked in
    let? adj := adj_r_checked idx in
    let? start_node_r := node_r_checked idx start_team in
    let? end_node_r := node_r_checked idx end_team in
    let? paths := _backtrack_with_end_checked (team_count self) adj
                    start_node_r end_node_r frames in
    emit_checked names limit 0 paths.
End GenerateChecked.

(** What the call without failing reads gives, as a result of the call
    with them. *)
Definition lift {A : Type} (r : exn + A) : failure + A :=
  match r with
  | inl e => inl (Raised e)
  | inr a => inr a
  end.

(** A nesting of calls beyond what the interpreter allows, which the
    search above gives as [None], is a [RecursionError]. *)
Definition within_frames {A : Type} (r : option A) : failure + A :=
  match r with
  | Some a => inr a
  | None => inl RecursionError
  end.

(** ** The call as a relation on the solver object *)

(** A [set] gives its members in an order that the language leaves open
    and that can differ from one set object to the next: [l] is one order
    in which an iteration can give the members of [X]. *)
Definition iteration_of (X : gset string) (l : list string) : Prop :=
  NoDup l ∧ ∀ m, m ∈ l ↔ m ∈ X.

(** [sorted(l)] for strings, which compare by code points. *)
Fixpoint insert_string (x : string) (l : list string) : list string :=
  match l with
  | [] => [x]
  | y :: l' => if String.leb x y then x :: l else y :: insert_string x l'
  end.

Fixpoint sorted_strings (l : list string) : list string :=
  match l with
  | [] => []
  | x :: l' => insert_string x (sorted_strings l')
  end.

(** What a consumer of the call sees, in the order in which it happens: a
    setlist that is yielded, or the line that [debug] prints for a
    candidate that is skipped. *)
Inductive event : Type :=
  | Yields (setlist : list string)
  | Prints (a b : string) (shared : list string).

Inductive outcome : Type :=
  | Raises (e : exn)
  | Returns (trace : list event).

(** [_sequence_is_valid], the set [overlap] being a new object at each
    pair: its members come in any order. *)
Inductive validates (t2m : list (string * gset string))
    : list string → bool * option (string * string * list string) → Prop :=
  | validates_short (sq : list string) :
      (length sq ≤ 1)%nat → validates t2m sq (true, None)
  | validates_pass (a b : string) (rest overlap : list string)
        (r : bool * option (string * string * list string)) :
      iteration_of (members_of t2m a ∩ members_of t2m b) overlap →
      overlap = [] →
      validates t2m (b :: rest) r →
      validates t2m (a :: b :: rest) r
  | validates_conflict (a b : string) (rest overlap : list string) :
      iteration_of (members_of t2m a ∩ members_of t2m b) overlap →
      overlap ≠ [] →
      validates t2m (a :: b :: rest) (false, Some (a, b, overlap)).

(** [limit is not None and produced >= limit] *)
Definition limit_reached (limit : option Z) (produced : Z) : bool :=
  match limit with
  | Some k => (produced >=? k)%Z
  | None => false
  end.

(** Lines 78-95, with the messages of [debug]. *)
Inductive consumes (self : SetlistSolver) (debug : bool) (limit : option Z)
    : Z → list (list nat) → list event → Prop :=
  | consumes_end (produced : Z) : consumes self debug limit produced [] []
  | consumes_limit (produced : Z) (p : list nat) (rest : list (list nat)) :
      limit_reached limit produced = true →
      consumes self debug limit produced (p :: rest) []
  | consumes_yield (produced : Z) (p : list nat) (rest : list (list nat))
        (conflict : option (string * string * list string)) (trace : list event) :
      limit_reached limit produced = false →
      validates (teams_to_members self) (names_of self p) (true, conflict) →
      consumes self debug limit (produced + 1) rest trace →
      consumes self debug limit produced (p :: rest) (Yields (names_of self p) :: trace)
  | consumes_skip (produced : Z) (p : list nat) (rest : list (list nat))
        (a b : string) (overlap : list string) (trace : list event) :
      limit_reached limit produced = false →
      validates (teams_to_members self) (names_of self p) (false, Some (a, b, overlap)) →
      consumes self debug limit produced rest trace →
      consumes self debug limit produced (p :: rest)
        ((if debug then [Prints a b (sorted_strings overlap)] else []) ++ trace).

(** [generate_valid_setlists] on the solver object: the outcome of the
    call and the object as the call leaves it. No statement of the call
    assigns a field of [self] or changes a list or a dictionary that a
    field holds; [path] and [used_mask] are made anew by each call of
    [_backtrack_with_end]. *)
Inductive calls (self : SetlistSolver) (debug : bool) (limit : option Z)
    (start_team end_team : option string) : outcome → SetlistSolver → Prop :=
  | calls_start_unknown :
      truthy start_team && not_a_team self start_team = true →
      calls self debug limit start_team end_team
        (Raises (ValueError ("Start team '" ++ default EmptyString start_team
                             ++ "' not found.")))
        self
  | calls_end_unknown :
      truthy start_team && not_a_team self start_team = false →
      truthy end_team && not_a_team self end_team = true →
      calls self debug limit start_team end_team
        (Raises (ValueError ("End team '" ++ default EmptyString end_team
                             ++ "' not found.")))
        self
  | calls_runs (trace : list event) :
      truthy start_team && not_a_team self start_team = false →
      truthy end_team && not_a_team self end_team = false →
      consumes self debug limit 0
        (_backtrack_with_end (team_count self) (adj_r self)
           (node_r self start_team) (node_r self end_team))
        trace →
      calls self debug limit start_team end_team (Returns trace) self.

(** The setlists among the events. *)
Fixpoint yielded (trace : list event) : list (list string) :=
  match trace with
  | [] => []
  | Yields setlist :: trace' => setlist :: yielded trace'
  | Prints _ _ _ :: trace' => yielded trace'
  end.

(** The setlists that an outcome yields, or the error that it raises. *)
Definition setlists_of (r : outcome) : exn + list (list string) :=
  match r with
  | Raises e => inl e
  | Returns trace => inr (yielded trace)
  end.

(** A solver object whose masks hold two teams for compatible that share
    two members: the validator has candidates to skip. *)
Definition scenario_data_issue : SetlistSolver :=
  {| teams_to_members := [("a", {["x"; "y"]}); ("b", {["x"; "y"]})]%string;
     teams := ["a"; "b"]%string;
     team_count := 2;
     team_to_idx := [("a", 0%nat); ("b", 1%nat)]%string;
     adjacency_masks := [2; 1]%Z |}.

(** * Properties *)

(** ** Bit masks *)

Section Bits.
Local Open Scope Z_scope.

Lemma bit_set_testbit (x : Z) (c : nat) : bit_set x c = Z.testbit x (Z.of_nat c).
Proof.
  unfold bit_set. change 1 with (Z.ones 1). rewrite Z.land_ones by lia.
  rewrite Z.shiftr_div_pow2 by lia. change (2 ^ 1) with 2.
  destruct (Z.testbit x (Z.of_nat c)) eqn:E.
  - apply Z.testbit_true in E; [|lia]. by rewrite E.
  - apply Z.testbit_false in E; [|lia]. by rewrite E.
Qed.

Lemma bit_pow2 (c : nat) : bit c = 2 ^ Z.of_nat c.
Proof. unfold bit. rewrite Z.shiftl_mul_pow2 by lia. lia. Qed.

Lemma bit_pos (c : nat) : 0 < bit c.
Proof. rewrite bit_pow2. apply Z.pow_pos_nonneg; lia. Qed.

Lemma testbit_bit (c k : nat) : Z.testbit (bit c) (Z.of_nat k) = bool_decide (c = k).
Proof.
  rewrite bit_pow2. case_bool_decide as H.
  - subst. apply Z.pow2_bits_true. lia.
  - apply Z.pow2_bits_false. lia.
Qed.

Lemma testbit_lor_bit (m : Z) (c k : nat) :
  Z.testbit (Z.lor m (bit c)) (Z.of_nat k) = Z.testbit m (Z.of_nat k) || bool_decide (c = k).
Proof. by rewrite Z.lor_spec, testbit_bit. Qed.

Lemma testbit_land_lnot_bit (m : Z) (c k : nat) :
  Z.testbit (Z.land m (Z.lnot (bit c))) (Z.of_nat k)
  = Z.testbit m (Z.of_nat k) && negb (bool_decide (c = k)).
Proof. rewrite Z.land_spec, Z.lnot_spec, testbit_bit by lia. done. Qed.

(** Two integers with the same bits at the natural positions are equal. *)
Lemma bits_inj_nat (a b : Z) :
  (∀ k : nat, Z.testbit a (Z.of_nat k) = Z.testbit b (Z.of_nat k)) → a = b.
Proof.
  intros H. apply Z.bits_inj'. intros m Hm.
  rewrite <- (Z2Nat.id m) by lia. apply H.
Qed.

Lemma no_bits_zero (x : Z) :
  (∀ k : nat, Z.testbit x (Z.of_nat k) = false) → x = 0.
Proof. intros H. apply bits_inj_nat. intros k. by rewrite H, Z.bits_0. Qed.

(** [y & -y] of an odd [y]. *)
Lemma land_opp_odd (y : Z) : Z.odd y = true → Z.land y (- y) = 1.
Proof.
  intros Hodd. apply Z.bits_inj'. intros m Hm.
  rewrite Z.land_spec.
  destruct (Z.eq_dec m 0) as [->|Hne].
  - rewrite !Z.bit0_odd, Z.odd_opp, Hodd. reflexivity.
  - replace m with (Z.succ (m - 1)) by lia.
    assert (Hy : y = 2 * Z.div2 y + 1).
    { rewrite (Z.div2_odd y) at 1. rewrite Hodd. reflexivity. }
    assert (Hny : - y = 2 * Z.lnot (Z.div2 y) + 1).
    { unfold Z.lnot. lia. }
    rewrite Hny. rewrite Hy at 1.
    rewrite !Z.testbit_odd_succ by lia.
    rewrite Z.lnot_spec by lia.
    change 1 with (2 * 0 + 1). rewrite Z.testbit_odd_succ, Z.bits_0 by lia.
    apply andb_negb_r.
Qed.

(** [x & -x] is the lowest bit of [x] that is set. *)
Lemma lsb_pow2 (k : nat) : ∀ x : Z,
  (∀ j : nat, (j < k)%nat → Z.testbit x (Z.of_nat j) = false) →
  Z.testbit x (Z.of_nat k) = true →
  Z.land x (- x) = bit k.
Proof.
  induction k as [|k IH]; intros x Hlow Hk.
  - rewrite land_opp_odd; [reflexivity|]. by rewrite <- Z.bit0_odd.
  - assert (Heven : Z.odd x = false).
    { rewrite <- Z.bit0_odd. apply (Hlow 0%nat). lia. }
    assert (Hx : x = 2 * Z.div2 x).
    { rewrite (Z.div2_odd x) at 1. rewrite Heven. simpl. lia. }
    rewrite Hx. replace (- (2 * Z.div2 x)) with (2 * (- Z.div2 x)) by lia.
    assert (Hdbl : ∀ a, 2 * a = Z.shiftl a 1).
    { intros a. rewrite Z.shiftl_mul_pow2 by lia. change (2 ^ 1) with 2. lia. }
    rewrite !Hdbl, <- Z.shiftl_land. rewrite IH.
    + rewrite !bit_pow2, Z.shiftl_mul_pow2 by lia.
      rewrite Nat2Z.inj_succ, Z.pow_succ_r by lia. lia.
    + intros j Hj. rewrite Z.div2_spec, Z.shiftr_spec by lia.
      replace (Z.of_nat j + 1) with (Z.of_nat (S j)) by lia. apply Hlow. lia.
    + rewrite Z.div2_spec, Z.shiftr_spec by lia.
      replace (Z.of_nat k + 1) with (Z.of_nat (S k)) by lia. exact Hk.
Qed.

Lemma lowbits_loop_S (fuel : nat) (x : Z) :
  lowbits_loop (S fuel) x =
    if x =? 0 then []
    else Z.to_nat (Z.log2 (Z.land x (- x))) :: lowbits_loop fuel (Z.lxor x (Z.land x (- x))).
Proof. reflexivity. Qed.

Lemma lowbits_loop_zero (fuel : nat) : lowbits_loop fuel 0 = [].
Proof. by destruct fuel. Qed.

(** With enough iterations the loop lists the set bits in ascending
    order. *)
Lemma lowbits_loop_spec (f : nat) : ∀ (k : nat) (x : Z) (fuel : nat),
  (f ≤ fuel)%nat → 0 ≤ x →
  (∀ j : nat, Z.testbit x (Z.of_nat j) = true → (k ≤ j < k + f)%nat) →
  lowbits_loop fuel x = List.filter (λ i, Z.testbit x (Z.of_nat i)) (seq k f).
Proof.
  induction f as [|f IH]; intros k x fuel Hfuel Hx Hbits.
  - assert (x = 0) as ->.
    { apply no_bits_zero. intros j.
      destruct (Z.testbit x (Z.of_nat j)) eqn:E; [|done].
      apply Hbits in E. lia. }
    by rewrite lowbits_loop_zero.
  - simpl seq. simpl List.filter.
    destruct (Z.testbit x (Z.of_nat k)) eqn:Ek.
    + destruct fuel as [|fuel]; [lia|]. simpl.
      destruct (Z.eqb_spec x 0) as [->|Hne].
      { by rewrite Z.bits_0 in Ek. }
      assert (Hlsb : Z.land x (- x) = bit k).
      { apply lsb_pow2; [|done]. intros j Hj.
        destruct (Z.testbit x (Z.of_nat j)) eqn:E; [|done].
        apply Hbits in E. lia. }
      rewrite Hlsb. f_equal.
      { rewrite bit_pow2, Z.log2_pow2 by lia. lia. }
      rewrite (IH (S k)).
      * apply filter_ext_in. intros j Hj. apply in_seq in Hj.
        rewrite Z.lxor_spec, testbit_bit.
        rewrite bool_decide_eq_false_2 by lia. apply xorb_false_r.
      * lia.
      * apply Z.lxor_nonneg. pose proof (bit_pos k). lia.
      * intros j. rewrite Z.lxor_spec, testbit_bit.
        case_bool_decide as Hkj.
        -- subst. rewrite Ek. done.
        -- rewrite xorb_false_r. intros E. apply Hbits in E. lia.
    + apply (IH (S k)); [lia|done|].
      intros j E. destruct (decide (j = k)) as [->|Hne]; [congruence|].
      apply Hbits in E. lia.
Qed.

Lemma testbit_below_size (x : Z) (j : nat) :
  0 ≤ x → Z.testbit x (Z.of_nat j) = true → (j < S (Z.to_nat (Z.log2 x)))%nat.
Proof.
  intros Hx E.
  destruct (decide (Z.log2 x < Z.of_nat j)) as [Hlt|Hge].
  - rewrite Z.bits_above_log2 in E by lia. done.
  - pose proof (Z.log2_nonneg x). lia.
Qed.

Lemma log2_land_l (x b : Z) : 0 ≤ x → Z.log2 (Z.land x b) ≤ Z.log2 x.
Proof.
  intros Hx.
  assert (Hl : 0 ≤ Z.land x b) by (apply Z.land_nonneg; lia).
  destruct (Z.eq_dec (Z.land x b) 0) as [->|Hne]; [apply Z.log2_nonneg|].
  destruct (Z_lt_le_dec (Z.log2 x) (Z.log2 (Z.land x b))) as [Hlt|Hle]; [|done].
  pose proof (Z.bit_log2 (Z.land x b) ltac:(lia)) as Hb.
  rewrite Z.land_spec, (Z.bits_above_log2 x) in Hb by lia. done.
Qed.

(** The loop stops by itself: more iterations than binary digits change
    nothing. *)
Lemma lowbits_enough_fuel (x : Z) (fuel : nat) :
  0 ≤ x → (S (Z.to_nat (Z.log2 x)) ≤ fuel)%nat → lowbits_loop fuel x = lowbits x.
Proof.
  intros Hx Hfuel. unfold lowbits.
  rewrite (lowbits_loop_spec (S (Z.to_nat (Z.log2 x))) 0 x fuel), 
          (lowbits_loop_spec (S (Z.to_nat (Z.log2 x))) 0 x (S (Z.to_nat (Z.log2 x))));
    try done; intros j E; apply testbit_below_size in E; lia.
Qed.

(** The equation of the [while] loop. *)
Lemma lowbits_unfold (x : Z) :
  0 ≤ x →
  lowbits x =
    if x =? 0 then []
    else Z.to_nat (Z.log2 (Z.land x (- x))) :: lowbits (Z.lxor x (Z.land x (- x))).
Proof.
  intros Hx.
  rewrite <- (lowbits_enough_fuel x (S (S (Z.to_nat (Z.log2 x))))) by (done || lia).
  rewrite lowbits_loop_S.
  destruct (Z.eqb_spec x 0) as [->|Hne]; [done|]. f_equal.
  assert (Hl : 0 ≤ Z.land x (- x)) by (apply Z.land_nonneg; lia).
  assert (Hx' : 0 ≤ Z.lxor x (Z.land x (- x))) by (by apply Z.lxor_nonneg).
  apply lowbits_enough_fuel; [done|].
  assert (Z.log2 (Z.lxor x (Z.land x (- x))) ≤ Z.log2 x); [|lia].
  etrans; [apply Z.log2_lxor; lia|].
  apply Z.max_lub; [lia|]. by apply log2_land_l.
Qed.

Lemma elem_of_lowbits (x : Z) (c : nat) :
  0 ≤ x → c ∈ lowbits x ↔ Z.testbit x (Z.of_nat c) = true.
Proof.
  intros Hx. unfold lowbits.
  rewrite (lowbits_loop_spec (S (Z.to_nat (Z.log2 x))) 0 x); [|lia|done|].
  - rewrite list_elem_of_In, filter_In, in_seq. split; [tauto|].
    intros E. split; [|done]. apply testbit_below_size in E; lia.
  - intros j E. apply testbit_below_size in E; lia.
Qed.

Lemma lowbits_bit (e : nat) : lowbits (bit e) = [e].
Proof.
  pose proof (bit_pos e) as Hpos.
  rewrite lowbits_unfold by lia.
  destruct (Z.eqb_spec (bit e) 0) as [E|_]; [lia|].
  rewrite (lsb_pow2 e).
  - rewrite Z.lxor_nilpotent. rewrite lowbits_unfold by lia. simpl.
    f_equal. rewrite bit_pow2, Z.log2_pow2 by lia. lia.
  - intros j Hj. rewrite testbit_bit. apply bool_decide_eq_false_2. lia.
  - rewrite testbit_bit. by apply bool_decide_eq_true_2.
Qed.
End Bits.

(** ** Sorting, dictionaries and [enumerate] *)

Lemma enumerate_snoc {B : Type} (l : list B) (x : B) :
  enumerate (l ++ [x]) = enumerate l ++ [(length l, x)].
Proof. unfold enumerate. rewrite imap_app. simpl. by rewrite Nat.add_0_r. Qed.

Section Lists.
Context {A : Type}.

Lemma insert_by_Permutation (key : A → nat) (x : A) (l : list A) :
  insert_by key x l ≡ₚ x :: l.
Proof.
  induction l as [|y l IH]; simpl; [done|].
  destruct (key x <=? key y)%nat; [done|].
  rewrite IH. apply Permutation_swap.
Qed.

Lemma sorted_Permutation (key : A → nat) (l : list A) : sorted key l ≡ₚ l.
Proof.
  induction l as [|x l IH]; simpl; [done|].
  by rewrite insert_by_Permutation, IH.
Qed.

Lemma elem_of_sorted (key : A → nat) (l : list A) (x : A) : x ∈ sorted key l ↔ x ∈ l.
Proof. by rewrite sorted_Permutation. Qed.

Lemma length_sorted (key : A → nat) (l : list A) : length (sorted key l) = length l.
Proof. by rewrite sorted_Permutation. Qed.

(** Writing [g i t] at every index [i] of [enumerate l]. *)
Lemma length_foldl_insert {B : Type} (g : nat → B → A) (l : list (nat * B)) (adj0 : list A) :
  length (foldl (λ adj '(i, t), <[ i := g i t ]> adj) adj0 l) = length adj0.
Proof.
  revert adj0. induction l as [|[i t] l IH]; intros adj0; simpl; [done|].
  by rewrite IH, length_insert.
Qed.

Lemma lookup_foldl_insert_enumerate {B : Type} (g : nat → B → A) (l : list B)
    (adj0 : list A) (i : nat) :
  (length l ≤ length adj0)%nat →
  foldl (λ adj '(i, t), <[ i := g i t ]> adj) adj0 (enumerate l) !! i
  = match l !! i with Some t => Some (g i t) | None => adj0 !! i end.
Proof.
  induction l as [|x l IH] using rev_ind; intros Hlen; [done|].
  rewrite length_app in Hlen. simpl in Hlen.
  rewrite enumerate_snoc, foldl_app. simpl.
  destruct (decide (i = length l)) as [->|Hne].
  - rewrite list_lookup_insert_eq by (rewrite length_foldl_insert; lia).
    by rewrite list_lookup_middle.
  - rewrite list_lookup_insert_ne by done. rewrite IH by lia.
    destruct (decide (i < length l)%nat) as [Hlt|Hge].
    + by rewrite lookup_app_l.
    + rewrite (lookup_ge_None_2 l) by lia.
      rewrite (lookup_ge_None_2 (l ++ [x])); [done|].
      rewrite length_app. simpl. lia.
Qed.

Context `{EqDecision A}.

(** The dictionary [{x: k + r for r, x in enumerate(l)}]. *)
Lemma dict_get_index (l : list A) (x : A) : ∀ k : nat,
  x ∈ l →
  ∃ r, dict_get (imap (λ r o, (o, k + r)%nat) l) x = Some (k + r)%nat ∧ l !! r = Some x.
Proof.
  induction l as [|y l IH]; intros k Hin; [by apply elem_of_nil in Hin|].
  simpl. destruct (decide (y = x)) as [->|Hne].
  - exists 0%nat. by rewrite Nat.add_0_r.
  - apply elem_of_cons in Hin as [->|Hin]; [done|].
    destruct (IH (S k) Hin) as (r & Hget & Hr).
    exists (S r). split; [|done].
    rewrite <- Nat.add_succ_comm, <- Hget. f_equal.
    apply imap_ext. intros i z _. simpl. f_equal. lia.
Qed.

Lemma dict_get_index_None (l : list A) (x : A) : ∀ k : nat,
  x ∉ l → dict_get (imap (λ r o, (o, k + r)%nat) l) x = None.
Proof.
  induction l as [|y l IH]; intros k Hin; [done|].
  simpl. apply not_elem_of_cons in Hin as [Hne Hin].
  rewrite decide_False by done.
  rewrite <- (IH (S k) Hin). f_equal.
  apply imap_ext. intros i z _. simpl. f_equal. lia.
Qed.

Lemma dict_get_positions (l : list A) (x : A) :
  x ∈ l →
  ∃ r, dict_get (imap (λ r o, (o, r)) l) x = Some r ∧ l !! r = Some x.
Proof.
  intros Hin. destruct (dict_get_index l x 0 Hin) as (r & Hget & Hr).
  exists r. split; [exact Hget|done].
Qed.

Lemma dict_mem_positions (l : list A) (x : A) :
  dict_mem (imap (λ r o, (o, r)) l) x = bool_decide (x ∈ l).
Proof.
  unfold dict_mem. case_bool_decide as Hin.
  - destruct (dict_get_positions l x Hin) as (r & -> & _). done.
  - change (imap (λ r o, (o, r)) l) with (imap (λ r o, (o, 0 + r)%nat) l).
    by rewrite dict_get_index_None.
Qed.

(** Reading a list at all of its indices gives the list back. *)
Lemma map_lookup_total_seq `{Inhabited A} (l : list A) :
  map (λ i, l !!! i) (seq 0 (length l)) = l.
Proof.
  induction l as [|x l IH] using rev_ind; [done|].
  rewrite length_app. simpl. rewrite Nat.add_1_r, seq_S, map_app. simpl.
  f_equal.
  - etrans; [|exact IH]. apply map_ext_in. intros i Hi. apply in_seq in Hi.
    by rewrite lookup_total_app_l by lia.
  - by rewrite list_lookup_total_middle.
Qed.
End Lists.

(** A list of [n] distinct numbers below [n] lists them all. *)
Lemma all_indices (p : list nat) (n : nat) :
  NoDup p → length p = n → (∀ c, c ∈ p → (c < n)%nat) → p ≡ₚ seq 0 n.
Proof.
  intros Hnd Hlen Hlt.
  apply submseteq_length_Permutation.
  - apply NoDup_submseteq; [done|]. intros c Hc. apply elem_of_seq.
    specialize (Hlt c Hc). lia.
  - rewrite length_seq. lia.
Qed.

(** ** The primitives on examples *)

Example strip_example :
  strip (String "009"%char (" x y" ++ String "010"%char " ")) = "x y"%string.
Proof. reflexivity. Qed.

Example strip_blank_example : strip "   " = EmptyString.
Proof. reflexivity. Qed.

Example bin_count1_example : bin_count1 13 = 3%nat.
Proof. reflexivity. Qed.

Example lowbits_example : lowbits 22 = [1; 2; 4]%nat.
Proof. reflexivity. Qed.

(** [sorted] keeps the order of elements with equal keys. *)
Example sorted_stable_example :
  sorted (λ x : nat * nat, fst x) [(2, 0); (1, 1); (2, 2); (1, 3)]%nat
  = [(1, 1); (1, 3); (2, 0); (2, 2)]%nat.
Proof. reflexivity. Qed.

Example ranking_example :
  ranked_indices (solver_of scenario_abc) = [0; 2; 1]%nat
  ∧ adj_r (solver_of scenario_abc) = [4; 4; 3]%Z
  ∧ teams_r (solver_of scenario_abc) = ["a"; "c"; "b"]%string.
Proof. vm_compute. done. Qed.

(** ** The compatibility graph *)

Lemma init_constructed (raw : list (string * gset string)) (self : SetlistSolver) :
  __init__ raw = inr self → constructed self.
Proof.
  destruct raw as [|kv raw]; [done|].
  intros [= <-]. unfold constructed. simpl. repeat split; lia.
Qed.

Lemma sanitized_keys (raw : list (string * gset string)) :
  map fst (sanitized raw) = map fst raw.
Proof.
  induction raw as [|[team members] raw IH]; [done|].
  simpl. by rewrite IH.
Qed.

Lemma init_teams (raw : list (string * gset string)) (self : SetlistSolver) :
  __init__ raw = inr self → teams self = map fst raw.
Proof.
  destruct raw as [|kv raw]; [done|].
  intros [= <-]. exact (sanitized_keys (kv :: raw)).
Qed.

Lemma compatibility_mask_testbit (t2m : list (string * gset string)) (tms : list string)
    (i : nat) (members_i : gset string) (k : nat) :
  Z.testbit (compatibility_mask t2m tms i members_i) (Z.of_nat k) = true ↔
  ∃ team_j, tms !! k = Some team_j ∧ i ≠ k ∧ members_of t2m team_j ## members_i.
Proof.
  unfold compatibility_mask.
  induction tms as [|x tms IH] using rev_ind.
  - simpl. rewrite Z.bits_0. split; [done|]. by intros (? & ? & _).
  - rewrite enumerate_snoc, foldl_app. simpl.
    destruct (decide (i = length tms)) as [Hi|Hi];
      [|destruct (decide (members_of t2m x ## members_i)) as [Hd|Hd]].
    + rewrite IH. split; intros (t & Ht & Hik & Hdis); exists t; (split; [|done]).
      * by apply lookup_app_l_Some.
      * apply lookup_snoc_Some in Ht as [[_ Ht]|[-> _]]; [done|lia].
    + rewrite testbit_lor_bit, orb_true_iff, IH, bool_decide_eq_true.
      split.
      * intros [(t & Ht & Hik & Hdis)|<-].
        -- exists t. split; [by apply lookup_app_l_Some|done].
        -- exists x. by rewrite list_lookup_middle.
      * intros (t & Ht & Hik & Hdis).
        apply lookup_snoc_Some in Ht as [[_ Ht]|[-> _]]; [left; eauto|by right].
    + rewrite IH. split; intros (t & Ht & Hik & Hdis).
      * exists t. split; [by apply lookup_app_l_Some|done].
      * apply lookup_snoc_Some in Ht as [[_ Ht]|[-> ->]]; [eauto|done].
Qed.

Lemma adjacency_masks_lookup (self : SetlistSolver) (i : nat) (team_i : string) :
  constructed self → teams self !! i = Some team_i →
  adjacency_masks self !!! i
  = compatibility_mask (teams_to_members self) (teams self) i
      (members_of (teams_to_members self) team_i).
Proof.
  intros (_ & Hn & _ & _ & Hadj) Hi.
  apply list_lookup_total_correct.
  rewrite Hadj. unfold _build_compatibility_graph.
  rewrite (lookup_foldl_insert_enumerate
             (λ i team_i, compatibility_mask (teams_to_members self) (teams self) i
                            (members_of (teams_to_members self) team_i))).
  - by rewrite Hi.
  - rewrite length_replicate. lia.
Qed.

(** Bit [j] of the mask of team [i]: the teams are distinct nodes and have
    no common member. *)
Lemma adjacency_testbit (self : SetlistSolver) (i j : nat) (team_i team_j : string) :
  constructed self → teams self !! i = Some team_i → teams self !! j = Some team_j →
  Z.testbit (adjacency_masks self !!! i) (Z.of_nat j) = true ↔
  i ≠ j
  ∧ members_of (teams_to_members self) team_i ## members_of (teams_to_members self) team_j.
Proof.
  intros Hc Hi Hj. rewrite (adjacency_masks_lookup self i team_i) by done.
  rewrite compatibility_mask_testbit. split.
  - intros (t & Ht & Hne & Hdis). rewrite Hj in Ht. injection Ht as <-. done.
  - intros [Hne Hdis]. exists team_j. done.
Qed.

(** ** Ranking and reindexing *)

Lemma mask_below_lor_bit (n : nat) (m : Z) (r : nat) :
  mask_below n m → (r < n)%nat → mask_below n (Z.lor m (bit r)).
Proof.
  intros [Hm Hbits] Hr. split.
  - apply Z.lor_nonneg. pose proof (bit_pos r). lia.
  - intros c. rewrite testbit_lor_bit, orb_true_iff, bool_decide_eq_true.
    intros [E| <-]; [by apply Hbits|done].
Qed.

Lemma mask_below_zero (n : nat) : mask_below n 0.
Proof. split; [done|]. intros c. by rewrite Z.bits_0. Qed.

Section Ranking.
Variable self : SetlistSolver.
Hypothesis Hself : constructed self.

Lemma ranked_indices_Permutation : ranked_indices self ≡ₚ seq 0 (team_count self).
Proof. apply sorted_Permutation. Qed.

Lemma length_ranked_indices : length (ranked_indices self) = team_count self.
Proof. by rewrite ranked_indices_Permutation, length_seq. Qed.

Lemma elem_of_ranked_indices (i : nat) :
  i ∈ ranked_indices self ↔ (i < team_count self)%nat.
Proof. rewrite ranked_indices_Permutation, elem_of_seq. lia. Qed.

(** [idx_to_rank] is defined on every index and inverts [ranked_indices]. *)
Lemma idx_to_rank_lookup (i : nat) :
  (i < team_count self)%nat →
  ∃ r, dict_get (idx_to_rank self) i = Some r ∧ ranked_indices self !! r = Some i.
Proof.
  intros Hi. apply dict_get_positions. by apply elem_of_ranked_indices.
Qed.

Lemma ranked_rank_of (i : nat) :
  (i < team_count self)%nat → ranked_indices self !! rank_of self i = Some i.
Proof.
  intros Hi. destruct (idx_to_rank_lookup i Hi) as (r & Hget & Hr).
  unfold rank_of. by rewrite Hget.
Qed.

Lemma rank_of_lt (i : nat) : (rank_of self i < team_count self)%nat.
Proof.
  destruct Hself as (_ & _ & Hpos & _).
  destruct (decide (i < team_count self)%nat) as [Hi|Hi].
  - apply ranked_rank_of, lookup_lt_Some in Hi.
    by rewrite length_ranked_indices in Hi.
  - unfold rank_of, idx_to_rank.
    change (imap (λ r orig, (orig, r)) (ranked_indices self))
      with (imap (λ r orig, (orig, 0 + r)%nat) (ranked_indices self)).
    rewrite dict_get_index_None; [done|]. by rewrite elem_of_ranked_indices.
Qed.

Lemma reindexed_mask_below (original_mask : Z) :
  mask_below (team_count self) (reindexed_mask self original_mask).
Proof.
  unfold reindexed_mask.
  generalize (seq 0 (team_count self)) as js.
  assert (H0 := mask_below_zero (team_count self)). revert H0.
  generalize 0%Z as m. intros m Hm js. revert m Hm.
  induction js as [|j js IH]; intros m Hm; simpl; [done|].
  apply IH. destruct (bit_set original_mask j); [|done].
  apply mask_below_lor_bit; [done|apply rank_of_lt].
Qed.

Lemma adj_r_Forall : Forall (mask_below (team_count self)) (adj_r self).
Proof.
  unfold adj_r.
  generalize (seq 0 (team_count self)) as js.
  assert (H0 : Forall (mask_below (team_count self)) (replicate (team_count self) 0%Z)).
  { apply Forall_replicate, mask_below_zero. }
  revert H0. generalize (replicate (team_count self) 0%Z) as a.
  intros a Ha js. revert a Ha.
  induction js as [|j js IH]; intros a Ha; simpl; [done|].
  apply IH, Forall_insert; [done|apply reindexed_mask_below].
Qed.

(** Every mask that the search reads is a set of nodes. *)
Lemma adj_r_below (i : nat) : mask_below (team_count self) (adj_r self !!! i).
Proof.
  destruct Hself as (_ & _ & Hpos & _).
  rewrite list_lookup_total_alt.
  destruct (adj_r self !! i) as [m|] eqn:E; simpl.
  - by eapply Forall_lookup_1; [apply adj_r_Forall|].
  - split; [done|]. intros c Hc.
    destruct c as [|c]; [done|].
    rewrite (Z.bits_above_log2 1) in Hc; [done|lia|simpl; lia].
Qed.

Lemma length_teams_r : length (teams_r self) = team_count self.
Proof. unfold teams_r. by rewrite length_map, length_ranked_indices. Qed.

Lemma teams_r_Permutation : teams_r self ≡ₚ teams self.
Proof.
  destruct Hself as (_ & Hn & _).
  unfold teams_r. rewrite ranked_indices_Permutation, Hn.
  by rewrite map_lookup_total_seq.
Qed.

(** The name at the rank of index [i] is the name of team [i]. *)
Lemma teams_r_rank_of (i : nat) (team : string) :
  teams self !! i = Some team → teams_r self !!! rank_of self i = team.
Proof.
  intros Hi. destruct Hself as (_ & Hn & _).
  assert (Hlt : (i < team_count self)%nat).
  { rewrite Hn. by eapply lookup_lt_Some. }
  apply list_lookup_total_correct. unfold teams_r.
  rewrite list_lookup_fmap, (ranked_rank_of i Hlt). simpl.
  f_equal. by apply list_lookup_total_correct.
Qed.

Lemma team_to_idx_lookup (name : string) :
  name ∈ teams self →
  ∃ i, dict_get (team_to_idx self) name = Some i ∧ teams self !! i = Some name.
Proof.
  intros Hin. destruct Hself as (_ & _ & _ & -> & _).
  by apply dict_get_positions.
Qed.

Lemma not_a_team_spec (name : string) :
  not_a_team self (Some name) = negb (bool_decide (name ∈ teams self)).
Proof.
  unfold not_a_team. destruct Hself as (_ & _ & _ & -> & _). simpl.
  by rewrite dict_mem_positions.
Qed.

(** The node of a team that was asked for as an endpoint. *)
Lemma node_r_Some (t : option string) (r : nat) :
  truthy t = true → not_a_team self t = false → node_r self t = Some r →
  (r < team_count self)%nat ∧ t = Some (teams_r self !!! r).
Proof.
  intros Ht Hin. unfold node_r. rewrite Ht. intros [= <-].
  split; [apply rank_of_lt|].
  destruct t as [name|]; [|done]. simpl.
  rewrite not_a_team_spec in Hin.
  apply negb_false_iff, bool_decide_eq_true in Hin.
  destruct (team_to_idx_lookup name Hin) as (i & -> & Hi). simpl.
  by rewrite (teams_r_rank_of i name).
Qed.

(** The names of all the nodes, in any order, are the teams. *)
Lemma names_of_Permutation (p : list nat) :
  p ≡ₚ seq 0 (team_count self) → names_of self p ≡ₚ teams self.
Proof.
  intros Hp. unfold names_of. rewrite Hp, <- length_teams_r.
  rewrite map_lookup_total_seq. apply teams_r_Permutation.
Qed.
End Ranking.

(** The lists that the search and the loops index have one entry per
    team, so every index below [team_count] is in range. *)
Lemma length_adjacency_masks (self : SetlistSolver) :
  constructed self → length (adjacency_masks self) = team_count self.
Proof.
  intros (_ & _ & _ & _ & ->). unfold _build_compatibility_graph.
  rewrite (length_foldl_insert
             (λ i team_i, compatibility_mask (teams_to_members self) (teams self) i
                            (members_of (teams_to_members self) team_i))).
  apply length_replicate.
Qed.

Lemma length_adj_r (self : SetlistSolver) : length (adj_r self) = team_count self.
Proof.
  unfold adj_r.
  transitivity (length (replicate (team_count self) 0%Z)); [|apply length_replicate].
  generalize (seq 0 (team_count self)) as js.
  generalize (replicate (team_count self) 0%Z) as a.
  intros a js. revert a.
  induction js as [|j js IH]; intros a; simpl; [done|].
  by rewrite IH, length_insert.
Qed.

(** ** The path search *)

Section Search.
Variable n : nat.
Variable adj : list Z.
Variable start_node_r : option nat.
Variable end_node_r : option nat.

Hypothesis Hn : (0 < n)%nat.
Hypothesis Hadj : ∀ i, mask_below n (adj !!! i).
Hypothesis Hstart : ∀ s, start_node_r = Some s → (s < n)%nat.

Lemma solve_S (depth : nat) (st : SearchState) :
  solve n adj start_node_r end_node_r (S depth) st =
    if (length (path st) =? n)%nat then
      match end_node_r with
      | None => Some ([path st], st)
      | Some e =>
          if (path_last (path st) =? e)%nat then Some ([path st], st) else Some ([], st)
      end
    else
      match candidates n adj start_node_r end_node_r st with
      | None => Some ([], st)
      | Some cs => for_candidates (solve n adj start_node_r end_node_r depth) cs st
      end.
Proof. reflexivity. Qed.

(** What the loop body does to the shared state is undone after the
    recursive call. *)
Lemma pop_push (c : nat) (st : SearchState) :
  bit_set (used_mask st) c = false → pop c (push c st) = st.
Proof.
  rewrite bit_set_testbit. intros Hc.
  destruct st as [p u]. unfold pop, push. simpl in *. f_equal.
  - apply removelast_last.
  - apply bits_inj_nat. intros k.
    rewrite testbit_land_lnot_bit, testbit_lor_bit.
    case_bool_decide as Hk; simpl.
    + subst. by rewrite Hc.
    + by rewrite orb_false_r, andb_true_r.
Qed.

Lemma coherent_fresh : coherent n fresh.
Proof.
  split_and!; simpl.
  - constructor.
  - intros c Hc. by apply elem_of_nil in Hc.
  - intros c. rewrite Z.bits_0. split; [done|]. intros Hc. by apply elem_of_nil in Hc.
Qed.

Lemma coherent_push (c : nat) (st : SearchState) :
  coherent n st → (c < n)%nat → bit_set (used_mask st) c = false →
  coherent n (push c st).
Proof.
  rewrite bit_set_testbit. intros (Hnd & Hlt & Hused) Hc Hfree.
  assert (Hnot : c ∉ path st).
  { rewrite <- Hused. by rewrite Hfree. }
  split_and!; simpl.
  - apply NoDup_app. split_and!; [done| |apply NoDup_singleton].
    intros x Hx ->%list_elem_of_singleton. done.
  - intros x [Hx| ->%list_elem_of_singleton]%elem_of_app; [by apply Hlt|done].
  - intros x. rewrite testbit_lor_bit, orb_true_iff, bool_decide_eq_true.
    rewrite elem_of_app, list_elem_of_singleton, Hused.
    split; (intros [?|?]; [by left|by right]).
Qed.

Lemma base_allowed_below (st : SearchState) : mask_below n (base_allowed adj st).
Proof.
  unfold base_allowed. destruct (Hadj (path_last (path st))) as [Hm Hbits].
  split.
  - apply Z.land_nonneg. by left.
  - intros c. rewrite Z.land_spec, andb_true_iff. intros [E _]. by apply Hbits.
Qed.

Lemma allowed_mask_below (st : SearchState) (allowed : Z) :
  allowed_mask n adj end_node_r st = Some allowed → mask_below n allowed.
Proof.
  unfold allowed_mask. pose proof (base_allowed_below st) as Hbase.
  destruct end_node_r as [e|]; [|by intros [= <-]].
  set (a := if (Z.of_nat (length (path st)) <? Z.of_nat n - 1)%Z
            then Z.land (base_allowed adj st) (Z.lnot (bit e))
            else base_allowed adj st).
  assert (Ha : mask_below n a).
  { subst a. destruct (_ <? _)%Z; [|done].
    destruct Hbase as [Hm Hbits]. split.
    - apply Z.land_nonneg. by left.
    - intros c. rewrite Z.land_spec, andb_true_iff. intros [E _]. by apply Hbits. }
  destruct (_ =? _)%Z; [|by intros [= <-]].
  destruct (bit_set a e) eqn:He; [|done]. intros [= <-].
  rewrite bit_set_testbit in He. apply Ha in He.
  split; [pose proof (bit_pos e); lia|].
  intros c. rewrite testbit_bit, bool_decide_eq_true. by intros <-.
Qed.

(** Every candidate is a node. *)
Lemma candidates_below (st : SearchState) (cs : list nat) :
  candidates n adj start_node_r end_node_r st = Some cs → ∀ c, c ∈ cs → (c < n)%nat.
Proof.
  unfold candidates. destruct (length (path st) =? 0)%nat.
  - intros [= <-] c. destruct start_node_r as [s|] eqn:Hs.
    + intros ->%list_elem_of_singleton. by apply Hstart.
    + rewrite elem_of_seq. lia.
  - destruct (allowed_mask n adj end_node_r st) as [allowed|] eqn:Ha; [|done].
    intros [= <-] c. apply allowed_mask_below in Ha as [Hm Hbits].
    rewrite elem_of_sorted, elem_of_lowbits by done. apply Hbits.
Qed.

Lemma completes_push (c : nat) (st : SearchState) (p : list nat) :
  completes n end_node_r (push c st) p → completes n end_node_r st p.
Proof.
  intros (Hlen & Hnd & Hlt & Hpre & Hend). split_and!; try done.
  simpl in Hpre. by eapply prefix_app_l.
Qed.

Lemma for_candidates_spec
    (rec : SearchState → option (list (list nat) * SearchState)) (st : SearchState) :
  coherent n st →
  (∀ st', coherent n st' → length (path st') = S (length (path st)) →
     ∃ out, rec st' = Some (out, st') ∧ Forall (completes n end_node_r st') out) →
  ∀ cs, (∀ c, c ∈ cs → (c < n)%nat) →
  ∃ out, for_candidates rec cs st = Some (out, st)
       ∧ Forall (λ p, ∃ c, c ∈ cs ∧ completes n end_node_r (push c st) p) out.
Proof.
  intros Hst Hrec cs. induction cs as [|c cs IH]; intros Hcs.
  { exists []. done. }
  destruct IH as (out2 & Hout2 & Hall2).
  { intros x Hx. apply Hcs. by right. }
  assert (Hall2' : Forall (λ p, ∃ c0, c0 ∈ c :: cs
                                   ∧ completes n end_node_r (push c0 st) p) out2).
  { eapply Forall_impl; [exact Hall2|]. intros p (c' & Hc' & Hp).
    exists c'. split; [by right|done]. }
  simpl. destruct (bit_set (used_mask st) c) eqn:Hc.
  - exists out2. done.
  - destruct (Hrec (push c st)) as (out1 & Hout1 & Hall1).
    { apply coherent_push; [done| |done]. apply Hcs. by left. }
    { simpl. rewrite length_app. simpl. lia. }
    rewrite Hout1, pop_push, Hout2 by done.
    exists (out1 ++ out2). split; [done|].
    apply Forall_app. split; [|done].
    eapply Forall_impl; [exact Hall1|]. intros p Hp.
    exists c. split; [by left|done].
Qed.

(** A call of [solve] at depth [L] with room for the [n - L] nested calls
    that follow returns, leaves the shared state as it found it, and
    yields only complete paths through distinct nodes. *)
Lemma solve_spec : ∀ (depth : nat) (st : SearchState),
  coherent n st → (length (path st) ≤ n)%nat → (n < length (path st) + depth)%nat →
  ∃ out, solve n adj start_node_r end_node_r depth st = Some (out, st)
       ∧ Forall (completes n end_node_r st) out.
Proof.
  induction depth as [|depth IH]; intros st Hst Hle Hfuel; [lia|].
  simpl. destruct (Nat.eqb_spec (length (path st)) n) as [HL|HL].
  - assert (Hdone : ∀ e', (∀ e, e' = Some e → path_last (path st) = e) →
                          completes n e' st (path st)).
    { intros e' He'. destruct Hst as (Hnd & Hlt & _). by split_and!. }
    destruct end_node_r as [e|] eqn:He.
    + destruct (Nat.eqb_spec (path_last (path st)) e) as [Hlast|Hlast].
      * exists [path st]. split; [done|]. apply Forall_singleton, (Hdone (Some e)).
        by intros e0 [= <-].
      * exists []. done.
    + exists [path st]. split; [done|]. by apply Forall_singleton, (Hdone None).
  - destruct (candidates n adj start_node_r end_node_r st) as [cs|] eqn:Hcs; [|by exists []].
    destruct (for_candidates_spec (solve n adj start_node_r end_node_r depth) st Hst)
      with (cs := cs) as (out & Hout & Hall).
    { intros st' Hst' Hlen. apply IH; [done|lia|lia]. }
    { by apply (candidates_below st). }
    exists out. split; [done|].
    eapply Forall_impl; [exact Hall|]. intros p (c & _ & Hp).
    by eapply completes_push.
Qed.

(** The result of a call does not depend on the bound on the nesting. *)
Lemma for_candidates_agree
    (rec1 rec2 : SearchState → option (list (list nat) * SearchState)) :
  (∀ st r1 r2, rec1 st = Some r1 → rec2 st = Some r2 → r1 = r2) →
  ∀ cs st r1 r2,
    for_candidates rec1 cs st = Some r1 → for_candidates rec2 cs st = Some r2 → r1 = r2.
Proof.
  intros Hrec cs. induction cs as [|c cs IH]; intros st r1 r2; simpl.
  { congruence. }
  destruct (bit_set (used_mask st) c); [apply IH|].
  destruct (rec1 (push c st)) as [[out1 st1]|] eqn:E1; [|done].
  destruct (rec2 (push c st)) as [[out1' st1']|] eqn:E2; [|done].
  pose proof (Hrec _ _ _ E1 E2) as [= <- <-].
  destruct (for_candidates rec1 cs (pop c st1)) as [[out2 st2]|] eqn:F1; [|done].
  destruct (for_candidates rec2 cs (pop c st1)) as [[out2' st2']|] eqn:F2; [|done].
  pose proof (IH _ _ _ F1 F2) as [= <- <-]. congruence.
Qed.

Lemma solve_agree : ∀ (d1 d2 : nat) (st : SearchState) r1 r2,
  solve n adj start_node_r end_node_r d1 st = Some r1 →
  solve n adj start_node_r end_node_r d2 st = Some r2 → r1 = r2.
Proof.
  induction d1 as [|d1 IH]; intros d2 st r1 r2; [done|].
  destruct d2 as [|d2]; [done|]. simpl.
  destruct (length (path st) =? n)%nat; [congruence|].
  destruct (candidates n adj start_node_r end_node_r st) as [cs|]; [|congruence].
  apply for_candidates_agree. intros st' r1' r2'. apply IH.
Qed.

(** The whole search: [n + 1] nested calls are enough. *)
Lemma search_runs :
  ∃ out, solve n adj start_node_r end_node_r (S n) fresh = Some (out, fresh)
       ∧ _backtrack_with_end n adj start_node_r end_node_r = out
       ∧ Forall (completes n end_node_r fresh) out
       ∧ (∀ s, start_node_r = Some s → Forall (λ p, head p = Some s) out).
Proof.
  destruct (solve_spec (S n) fresh coherent_fresh) as (out & Hout & Hall);
    [simpl; lia..|].
  exists out. split_and!; [done| |done|].
  { unfold _backtrack_with_end. by rewrite Hout. }
  intros s Hs. rewrite solve_S in Hout.
  change (length (path fresh)) with 0%nat in Hout.
  destruct (Nat.eqb_spec 0 n) as [?|_]; [lia|].
  assert (Hcs : candidates n adj start_node_r end_node_r fresh = Some [s]).
  { unfold candidates. simpl. by rewrite Hs. }
  rewrite Hcs in Hout.
  destruct (for_candidates_spec (solve n adj start_node_r end_node_r n) fresh
              coherent_fresh) with (cs := [s]) as (out' & Hout' & Hall').
  { intros st' Hst' Hlen. apply solve_spec; [done|simpl in Hlen; lia..]. }
  { intros c ->%list_elem_of_singleton. by apply Hstart. }
  rewrite Hout' in Hout. injection Hout as <-.
  eapply Forall_impl; [exact Hall'|]. intros p (c & ->%list_elem_of_singleton & Hp).
  destruct Hp as (_ & _ & _ & [k ->] & _). done.
Qed.
End Search.

(** ** Validation and the consuming loop *)

Lemma no_shared_member_cons (t2m : list (string * gset string)) (a b : string)
    (rest : list string) :
  no_shared_member t2m (a :: b :: rest) ↔
  members_of t2m a ## members_of t2m b ∧ no_shared_member t2m (b :: rest).
Proof.
  unfold no_shared_member. split.
  - intros H. split; [by apply (H 0%nat)|].
    intros i x y Hx Hy. by apply (H (S i)).
  - intros [Hab H] [|i] x y Hx Hy.
    + simpl in Hx, Hy. by injection Hx as <-; injection Hy as <-.
    + by apply (H i).
Qed.

(** The validator accepts exactly the sequences in which no two
    consecutive teams share a member. *)
Lemma sequence_is_valid_spec (t2m : list (string * gset string)) (sq : list string) :
  fst (_sequence_is_valid t2m sq) = true ↔ no_shared_member t2m sq.
Proof.
  induction sq as [|a sq IH].
  { split; [|done]. intros _ i x y Hx. done. }
  destruct sq as [|b rest].
  { split; [|done]. intros _ [|i] x y Hx Hy; done. }
  rewrite no_shared_member_cons, <- IH.
  change (_sequence_is_valid t2m (a :: b :: rest))
    with (if decide (members_of t2m a ∩ members_of t2m b = ∅)
          then _sequence_is_valid t2m (b :: rest)
          else (false, Some (a, b, members_of t2m a ∩ members_of t2m b))).
  rewrite disjoint_intersection_L.
  destruct (decide (members_of t2m a ∩ members_of t2m b = ∅)) as [Hd|Hd]; simpl.
  - split; [by split|by intros [_ ?]].
  - split; [done|by intros [? _]].
Qed.

Lemma sequence_is_valid_true (t2m : list (string * gset string)) (sq : list string) :
  fst (_sequence_is_valid t2m sq) = true → _sequence_is_valid t2m sq = (true, None).
Proof.
  induction sq as [|a sq IH]; [done|].
  destruct sq as [|b rest]; [done|].
  change (_sequence_is_valid t2m (a :: b :: rest))
    with (if decide (members_of t2m a ∩ members_of t2m b = ∅)
          then _sequence_is_valid t2m (b :: rest)
          else (false, Some (a, b, members_of t2m a ∩ members_of t2m b))).
  destruct (decide (members_of t2m a ∩ members_of t2m b = ∅)); [exact IH|done].
Qed.

Section Emit.
Variable self : SetlistSolver.

(** Without a limit the loop keeps the valid candidates and nothing
    else. *)
Lemma emit_no_limit (produced : Z) (paths : list (list nat)) :
  emit self None produced paths
  = List.filter (λ sq, fst (_sequence_is_valid (teams_to_members self) sq))
                (map (names_of self) paths).
Proof.
  revert produced. induction paths as [|p paths IH]; intros produced; simpl; [done|].
  destruct (fst (_sequence_is_valid (teams_to_members self) (names_of self p))); by rewrite IH.
Qed.

(** With a limit it stops after [limit - produced] more setlists. *)
Lemma emit_limit (k : Z) (paths : list (list nat)) : ∀ produced : Z,
  emit self (Some k) produced paths
  = take (Z.to_nat (k - produced)) (emit self None 0 paths).
Proof.
  induction paths as [|p paths IH]; intros produced; simpl.
  { by rewrite take_nil. }
  destruct (Z.geb_spec produced k) as [Hge|Hlt].
  { by replace (Z.to_nat (k - produced)) with 0%nat by lia. }
  destruct (fst (_sequence_is_valid (teams_to_members self) (names_of self p))).
  - rewrite IH, !emit_no_limit.
    replace (Z.to_nat (k - produced)) with (S (Z.to_nat (k - (produced + 1)))) by lia.
    done.
  - rewrite IH, !emit_no_limit. done.
Qed.

(** Whatever the limit, what is yielded are names of candidate paths
    that the validator accepted. *)
Lemma emit_Forall (limit : option Z) (paths : list (list nat)) : ∀ produced : Z,
  Forall (λ sq, fst (_sequence_is_valid (teams_to_members self) sq) = true
                ∧ ∃ p, p ∈ paths ∧ sq = names_of self p)
         (emit self limit produced paths).
Proof.
  induction paths as [|p paths IH]; intros produced; simpl; [done|].
  assert (Hweak : ∀ q,
            Forall (λ sq, fst (_sequence_is_valid (teams_to_members self) sq) = true
                          ∧ ∃ p0, p0 ∈ p :: paths ∧ sq = names_of self p0)
                   (emit self limit q paths)).
  { intros q. eapply Forall_impl; [apply IH|]. intros sq (Hv & p0 & Hp0 & ->).
    split; [done|]. exists p0. split; [by right|done]. }
  destruct (match limit with Some k => (produced >=? k)%Z | None => false end); [done|].
  destruct (fst (_sequence_is_valid (teams_to_members self) (names_of self p))) eqn:Hv;
    [|apply Hweak].
  constructor; [|apply Hweak].
  split; [done|]. exists p. split; [by left|done].
Qed.

(** The three ways a call can go. *)
Lemma generate_cases (limit : option Z) (start_team end_team : option string) :
  (truthy start_team = true ∧ not_a_team self start_team = true
   ∧ ∃ msg, generate_valid_setlists self limit start_team end_team = inl (ValueError msg))
  ∨ (truthy end_team = true ∧ not_a_team self end_team = true
     ∧ ∃ msg, generate_valid_setlists self limit start_team end_team = inl (ValueError msg))
  ∨ ((truthy start_team = true → not_a_team self start_team = false)
     ∧ (truthy end_team = true → not_a_team self end_team = false)
     ∧ generate_valid_setlists self limit start_team end_team
       = inr (emit self limit 0
                (_backtrack_with_end (team_count self) (adj_r self)
                   (node_r self start_team) (node_r self end_team)))).
Proof.
  unfold generate_valid_setlists.
  destruct (truthy start_team) eqn:Hs, (not_a_team self start_team) eqn:Hsm; simpl;
    try (left; split_and!; [done..|eauto]);
    destruct (truthy end_team) eqn:He, (not_a_team self end_team) eqn:Hem; simpl;
    try (right; left; split_and!; [done..|eauto]);
    right; right; done.
Qed.
End Emit.

Lemma node_r_lt (self : SetlistSolver) (t : option string) (r : nat) :
  constructed self → node_r self t = Some r → (r < team_count self)%nat.
Proof.
  intros Hself. unfold node_r. destruct (truthy t); [|done].
  intros [= <-]. by apply rank_of_lt.
Qed.

(** The search of a constructed solver: it returns, and the paths it
    yields visit every node once. *)
Lemma backtrack_of_solver (self : SetlistSolver) (start_team end_team : option string) :
  constructed self →
  let n := team_count self in
  let s := node_r self start_team in
  let e := node_r self end_team in
  ∃ out, solve n (adj_r self) s e (S n) fresh = Some (out, fresh)
       ∧ _backtrack_with_end n (adj_r self) s e = out
       ∧ Forall (completes n e fresh) out
       ∧ (∀ r, s = Some r → Forall (λ p, head p = Some r) out).
Proof.
  intros Hself n s e. apply search_runs.
  - by destruct Hself as (_ & _ & Hpos & _).
  - by apply adj_r_below.
  - intros r Hr. by eapply node_r_lt.
Qed.

Lemma last_path_last (p : list nat) : p ≠ [] → last p = Some (path_last p).
Proof.
  induction p as [|x p _] using rev_ind; [done|]. intros _.
  unfold path_last. by rewrite last_snoc, last_last.
Qed.

(** * The properties of the specification *)

Lemma init_scenario_abc : __init__ scenario_abc = inr (solver_of scenario_abc).
Proof. reflexivity. Qed.

Lemma init_scenario_unnamed : __init__ scenario_unnamed = inr (solver_of scenario_unnamed).
Proof. reflexivity. Qed.

(** ** Validity *)

(** C1. Every setlist that [generate_valid_setlists] yields passes
    [_sequence_is_valid], that is, no two consecutive teams of it share a
    member; and a candidate path of the search whose names fail the check
    is not among the setlists yielded. This holds for every solver, hence
    for every input mapping, and for every limit, start and end. *)
Theorem C1_emitted_setlists_valid (self : SetlistSolver) (limit : option Z)
    (start_team end_team : option string) (out : list (list string)) :
  generate_valid_setlists self limit start_team end_team = inr out →
  Forall (λ sq, _sequence_is_valid (teams_to_members self) sq = (true, None)
                ∧ no_shared_member (teams_to_members self) sq) out
  ∧ ∀ p, p ∈ _backtrack_with_end (team_count self) (adj_r self)
                (node_r self start_team) (node_r self end_team) →
         fst (_sequence_is_valid (teams_to_members self) (names_of self p)) = false →
         names_of self p ∉ out.
Proof.
  intros Hgen.
  destruct (generate_cases self limit start_team end_team)
    as [(_ & _ & msg & E)|[(_ & _ & msg & E)|(_ & _ & E)]]; try congruence.
  rewrite E in Hgen. injection Hgen as <-.
  pose proof (emit_Forall self limit
                (_backtrack_with_end (team_count self) (adj_r self)
                   (node_r self start_team) (node_r self end_team)) 0) as Hall.
  split.
  - eapply Forall_impl; [exact Hall|]. intros sq [Hv _]. split.
    + by apply sequence_is_valid_true.
    + by apply sequence_is_valid_spec.
  - intros p _ Hbad Hin.
    rewrite Forall_forall in Hall. apply Hall in Hin as [Hv _]. congruence.
Qed.

Lemma witness_C1_scenario :
  Forall (λ sq, _sequence_is_valid (teams_to_members (solver_of scenario_abc)) sq = (true, None)
                ∧ no_shared_member (teams_to_members (solver_of scenario_abc)) sq)
         [["a"; "b"; "c"]; ["c"; "b"; "a"]]%string
  ∧ ∀ p, p ∈ _backtrack_with_end (team_count (solver_of scenario_abc))
                (adj_r (solver_of scenario_abc))
                (node_r (solver_of scenario_abc) None) (node_r (solver_of scenario_abc) None) →
         fst (_sequence_is_valid (teams_to_members (solver_of scenario_abc))
                (names_of (solver_of scenario_abc) p)) = false →
         names_of (solver_of scenario_abc) p ∉ [["a"; "b"; "c"]; ["c"; "b"; "a"]]%string.
Proof.
  apply (C1_emitted_setlists_valid (solver_of scenario_abc) None None None).
  vm_compute. reflexivity.
Defined.

(** ** Permutation completeness *)

(** C2. When the keys of the input mapping are pairwise distinct, as the
    keys of a dictionary are, every setlist yielded has as many elements as
    there are teams and is a rearrangement without repetition of the team
    names: each team occurs exactly once. *)
Theorem C2_permutation_completeness (raw : list (string * gset string))
    (self : SetlistSolver) (limit : option Z) (start_team end_team : option string)
    (out : list (list string)) :
  NoDup (map fst raw) →
  __init__ raw = inr self →
  generate_valid_setlists self limit start_team end_team = inr out →
  Forall (λ sq, length sq = length raw ∧ NoDup sq ∧ sq ≡ₚ map fst raw) out.
Proof.
  intros Hkeys Hinit Hgen.
  pose proof (init_constructed raw self Hinit) as Hself.
  pose proof (init_teams raw self Hinit) as Hteams.
  destruct (generate_cases self limit start_team end_team)
    as [(_ & _ & msg & E)|[(_ & _ & msg & E)|(_ & _ & E)]]; try congruence.
  rewrite E in Hgen. injection Hgen as <-.
  destruct (backtrack_of_solver self start_team end_team Hself)
    as (paths & _ & -> & Hpaths & _).
  eapply Forall_impl; [apply emit_Forall|]. intros sq (_ & p & Hp & ->).
  rewrite Forall_forall in Hpaths. destruct (Hpaths p Hp) as (Hlen & Hnd & Hlt & _).
  assert (Hperm : names_of self p ≡ₚ map fst raw).
  { rewrite <- Hteams. apply names_of_Permutation; [done|]. by apply all_indices. }
  split_and!; [|by rewrite Hperm|done].
  by rewrite Hperm, length_map.
Qed.

Lemma witness_C2_scenario :
  Forall (λ sq, length sq = length scenario_abc ∧ NoDup sq ∧ sq ≡ₚ map fst scenario_abc)
         [["a"; "b"; "c"]; ["c"; "b"; "a"]]%string.
Proof.
  apply (C2_permutation_completeness scenario_abc (solver_of scenario_abc) None None None).
  - apply (bool_decide_unpack (NoDup (map fst scenario_abc))). vm_compute. exact I.
  - reflexivity.
  - vm_compute. reflexivity.
Defined.

(** ** Endpoints *)

Lemma truthy_nonempty (name : string) : name ≠ EmptyString → truthy (Some name) = true.
Proof. by destruct name. Qed.

Lemma head_names_of (self : SetlistSolver) (p : list nat) (r : nat) :
  head p = Some r → head (names_of self p) = Some (teams_r self !!! r).
Proof. destruct p as [|x p]; [done|]. by intros [= ->]. Qed.

Lemma last_names_of (self : SetlistSolver) (p : list nat) :
  p ≠ [] → last (names_of self p) = Some (teams_r self !!! path_last p).
Proof.
  induction p as [|x p _] using rev_ind; [done|]. intros _.
  unfold names_of, path_last. rewrite map_app. simpl.
  by rewrite last_snoc, last_last.
Qed.

(** C3, as the code has it. If a start team that is not the empty string
    is given, every setlist yielded begins with it; if an end team that is
    not the empty string is given, every setlist yielded ends with it. *)
Theorem C3_endpoints_enforced (raw : list (string * gset string))
    (self : SetlistSolver) (limit : option Z) (start_team end_team : option string)
    (out : list (list string)) :
  __init__ raw = inr self →
  generate_valid_setlists self limit start_team end_team = inr out →
  (∀ name, start_team = Some name → name ≠ EmptyString →
           Forall (λ sq, head sq = Some name) out)
  ∧ (∀ name, end_team = Some name → name ≠ EmptyString →
             Forall (λ sq, last sq = Some name) out).
Proof.
  intros Hinit Hgen.
  pose proof (init_constructed raw self Hinit) as Hself.
  destruct (generate_cases self limit start_team end_team)
    as [(_ & _ & msg & E)|[(_ & _ & msg & E)|(Hs & He & E)]]; try congruence.
  rewrite E in Hgen. injection Hgen as <-.
  destruct (backtrack_of_solver self start_team end_team Hself)
    as (paths & _ & -> & Hpaths & Hheads).
  rewrite Forall_forall in Hpaths.
  split; intros name -> Hname; apply truthy_nonempty in Hname as Ht.
  - destruct (node_r self (Some name)) as [r|] eqn:Hr;
      [|by unfold node_r in Hr; rewrite Ht in Hr].
    destruct (node_r_Some self Hself (Some name) r Ht (Hs Ht) Hr) as [_ [= Hnm]].
    specialize (Hheads r eq_refl). rewrite Forall_forall in Hheads.
    eapply Forall_impl; [apply emit_Forall|]. intros sq (_ & p & Hp & ->).
    rewrite Hnm. apply head_names_of. by apply Hheads.
  - destruct (node_r self (Some name)) as [r|] eqn:Hr;
      [|by unfold node_r in Hr; rewrite Ht in Hr].
    destruct (node_r_Some self Hself (Some name) r Ht (He Ht) Hr) as [_ [= Hnm]].
    eapply Forall_impl; [apply emit_Forall|]. intros sq (_ & p & Hp & ->).
    destruct (Hpaths p Hp) as (Hlen & _ & _ & _ & Hend).
    rewrite last_names_of.
    + by rewrite (Hend r eq_refl), <- Hnm.
    + destruct Hself as (_ & _ & Hpos & _). intros ->. simpl in Hlen. lia.
Qed.

Lemma witness_C3_scenario :
  (∀ name, Some "a"%string = Some name → name ≠ EmptyString →
           Forall (λ sq, head sq = Some name) [["a"; "b"; "c"]%string])
  ∧ (∀ name, Some "c"%string = Some name → name ≠ EmptyString →
             Forall (λ sq, last sq = Some name) [["a"; "b"; "c"]%string]).
Proof.
  apply (C3_endpoints_enforced scenario_abc (solver_of scenario_abc) None
           (Some "a"%string) (Some "c"%string)).
  - reflexivity.
  - vm_compute. reflexivity.
Defined.

(** C3 as the specification words it fails when the team named by the
    empty string is given as the start: the argument is taken as absent
    and a setlist that begins with another team is yielded. *)
Lemma counterexample_C3_unnamed_start :
  ¬ (∀ out, generate_valid_setlists (solver_of scenario_unnamed) None
              (Some EmptyString) None = inr out →
            Forall (λ sq, head sq = Some EmptyString) out).
Proof.
  intros H.
  assert (E : generate_valid_setlists (solver_of scenario_unnamed) None
                (Some EmptyString) None
              = inr [[EmptyString; "b"]; ["b"; EmptyString]]%string)
    by (vm_compute; reflexivity).
  apply H in E. apply Forall_cons in E as [_ E]. apply Forall_cons in E as [E _].
  discriminate E.
Qed.

(** ** The cap *)

(** C4. For a limit [k >= 0] the call yields the first [k] setlists of the
    call without a limit, in the same order, and so at most [k] of them;
    when the call without a limit raises, so does the call with one. *)
Theorem C4_cap_correct (self : SetlistSolver) (k : Z)
    (start_team end_team : option string) :
  (0 ≤ k)%Z →
  match generate_valid_setlists self None start_team end_team with
  | inl err => generate_valid_setlists self (Some k) start_team end_team = inl err
  | inr out_all =>
      ∃ out, generate_valid_setlists self (Some k) start_team end_team = inr out
           ∧ out = take (Z.to_nat k) out_all
           ∧ (Z.of_nat (length out) ≤ k)%Z
  end.
Proof.
  intros Hk. unfold generate_valid_setlists.
  destruct (truthy start_team && not_a_team self start_team); [done|].
  destruct (truthy end_team && not_a_team self end_team); [done|].
  eexists. split; [done|]. rewrite emit_limit, Z.sub_0_r. split; [done|].
  rewrite length_take. lia.
Qed.

Lemma witness_C4_scenario :
  ∃ out, generate_valid_setlists (solver_of scenario_abc) (Some 1%Z) None None = inr out
       ∧ out = take (Z.to_nat 1) [["a"; "b"; "c"]; ["c"; "b"; "a"]]%string
       ∧ (Z.of_nat (length out) ≤ 1)%Z.
Proof.
  apply (C4_cap_correct (solver_of scenario_abc) 1 None None). lia.
Defined.

(** ** The adjacency relation *)

(** C5. In the masks that [_build_compatibility_graph] builds, for two
    distinct indices [i] and [j], bit [j] of mask [i] is set exactly when
    bit [i] of mask [j] is, and bit [i] of mask [i] is never set. *)
Theorem C5_adjacency_symmetric_irreflexive (raw : list (string * gset string))
    (self : SetlistSolver) (i j : nat) :
  __init__ raw = inr self →
  (i < team_count self)%nat → (j < team_count self)%nat →
  (i ≠ j → Z.testbit (adjacency_masks self !!! i) (Z.of_nat j)
           = Z.testbit (adjacency_masks self !!! j) (Z.of_nat i))
  ∧ Z.testbit (adjacency_masks self !!! i) (Z.of_nat i) = false.
Proof.
  intros Hinit Hi Hj.
  pose proof (init_constructed raw self Hinit) as Hself.
  assert (Hn : team_count self = length (teams self)) by apply Hself.
  destruct (lookup_lt_is_Some_2 (teams self) i) as [team_i Hti]; [lia|].
  destruct (lookup_lt_is_Some_2 (teams self) j) as [team_j Htj]; [lia|].
  pose proof (adjacency_testbit self i j team_i team_j Hself Hti Htj) as Hij.
  pose proof (adjacency_testbit self j i team_j team_i Hself Htj Hti) as Hji.
  pose proof (adjacency_testbit self i i team_i team_i Hself Hti Hti) as Hii.
  split.
  - intros Hne. apply eq_true_iff_eq. rewrite Hij, Hji.
    split; (intros [_ Hdis]; split; [done|by symmetry]).
  - destruct (Z.testbit (adjacency_masks self !!! i) (Z.of_nat i)); [|done].
    destruct Hii as [[Hne _] _]; done.
Qed.

Lemma witness_C5_scenario :
  (0%nat ≠ 1%nat →
   Z.testbit (adjacency_masks (solver_of scenario_abc) !!! 0%nat) (Z.of_nat 1)
   = Z.testbit (adjacency_masks (solver_of scenario_abc) !!! 1%nat) (Z.of_nat 0))
  ∧ Z.testbit (adjacency_masks (solver_of scenario_abc) !!! 0%nat) (Z.of_nat 0) = false.
Proof.
  apply (C5_adjacency_symmetric_irreflexive scenario_abc (solver_of scenario_abc) 0 1).
  - reflexivity.
  - vm_compute. lia.
  - vm_compute. lia.
Defined.

(** ** Errors *)

Lemma nonempty_unknown_spec (self : SetlistSolver) (t : option string) :
  constructed self →
  nonempty_unknown self t ↔ truthy t = true ∧ not_a_team self t = true.
Proof.
  intros Hself. split.
  - intros (name & -> & Hne & Hnot). split; [by apply truthy_nonempty|].
    rewrite not_a_team_spec by done. by rewrite bool_decide_eq_false_2.
  - intros [Ht Hnot]. destruct t as [name|]; [|done].
    exists name. split_and!; [done|by intros ->|].
    rewrite not_a_team_spec in Hnot by done.
    by apply negb_true_iff, bool_decide_eq_false in Hnot.
Qed.

(** ** The scenario of the specification *)

(** C8. For the teams [a:{x}], [b:{y}], [c:{x}] the call without
    constraints and without a limit yields [[a,b,c]] and [[c,b,a]] and
    nothing else, and the call with start [a] yields [[a,b,c]] alone. *)
Theorem C8_scenario_abc :
  ∃ self, __init__ [("a", {["x"]}); ("b", {["y"]}); ("c", {["x"]})]%string = inr self
        ∧ generate_valid_setlists self None None None
          = inr [["a"; "b"; "c"]; ["c"; "b"; "a"]]%string
        ∧ generate_valid_setlists self None (Some "a"%string) None
          = inr [["a"; "b"; "c"]]%string.
Proof.
  exists (solver_of scenario_abc). split_and!.
  - reflexivity.
  - vm_compute. reflexivity.
  - vm_compute. reflexivity.
Qed.

(** ** Reserving the end node *)

(** C9. With an end node [e], at a depth [L] with [0 < L < n - 1] the
    candidates are the nodes of [adj_r[last] & ~used_mask] other than [e];
    at depth [L = n - 1] they are [e] alone when [e] is in
    [adj_r[last] & ~used_mask], and otherwise there is none: [solve]
    returns without yielding and leaves the state as it was. *)
Theorem C9_end_reservation (n : nat) (adj : list Z) (start_node_r : option nat)
    (e : nat) (st : SearchState) :
  (0 < length (path st))%nat →
  (length (path st) < n)%nat →
  (0 ≤ adj !!! path_last (path st))%Z →
  match candidates n adj start_node_r (Some e) st with
  | Some cs =>
      if (Z.of_nat (length (path st)) <? Z.of_nat n - 1)%Z
      then ∀ c, c ∈ cs ↔ Z.testbit (base_allowed adj st) (Z.of_nat c) = true ∧ c ≠ e
      else Z.testbit (base_allowed adj st) (Z.of_nat e) = true ∧ cs = [e]
  | None =>
      Z.of_nat (length (path st)) = (Z.of_nat n - 1)%Z
      ∧ Z.testbit (base_allowed adj st) (Z.of_nat e) = false
      ∧ ∀ depth, solve n adj start_node_r (Some e) (S depth) st = Some ([], st)
  end.
Proof.
  intros HL Hlt Hadj.
  assert (Hbase : (0 ≤ base_allowed adj st)%Z).
  { unfold base_allowed. apply Z.land_nonneg. by left. }
  assert (Hcand : candidates n adj start_node_r (Some e) st
                  = match allowed_mask n adj (Some e) st with
                    | None => None
                    | Some allowed =>
                        Some (sorted (λ c, bin_count1 (Z.land (adj !!! c)
                                                         (Z.lnot (used_mask st))))
                                     (lowbits allowed))
                    end).
  { unfold candidates. destruct (Nat.eqb_spec (length (path st)) 0); [lia|done]. }
  rewrite Hcand. unfold allowed_mask.
  destruct (Z.ltb_spec (Z.of_nat (length (path st))) (Z.of_nat n - 1)) as [Hin|Hlast].
  - destruct (Z.eqb_spec (Z.of_nat (length (path st))) (Z.of_nat n - 1)) as [?|_]; [lia|].
    intros c. rewrite elem_of_sorted, elem_of_lowbits.
    + rewrite testbit_land_lnot_bit, andb_true_iff, negb_true_iff, bool_decide_eq_false.
      split; (intros [? ?]; split; [done|congruence]).
    + apply Z.land_nonneg. by left.
  - destruct (Z.eqb_spec (Z.of_nat (length (path st))) (Z.of_nat n - 1)) as [Heq|?]; [|lia].
    rewrite bit_set_testbit.
    destruct (Z.testbit (base_allowed adj st) (Z.of_nat e)) eqn:He.
    + split; [done|]. by rewrite lowbits_bit.
    + split_and!; [done..|]. intros depth. rewrite solve_S.
      destruct (Nat.eqb_spec (length (path st)) n); [lia|].
      rewrite Hcand. unfold allowed_mask.
      destruct (Z.ltb_spec (Z.of_nat (length (path st))) (Z.of_nat n - 1)); [lia|].
      rewrite (proj2 (Z.eqb_eq _ _) Heq), bit_set_testbit, He. done.
Qed.

Lemma witness_C9_scenario :
  (0 < length (path scenario_state) < 4)%nat
  ∧ ∀ c, c ∈ [1; 2]%nat ↔
         Z.testbit (base_allowed scenario_adj scenario_state) (Z.of_nat c) = true
         ∧ c ≠ 3%nat.
Proof.
  split; [simpl; lia|].
  apply (C9_end_reservation 4 scenario_adj None 3 scenario_state).
  - simpl. lia.
  - simpl. lia.
  - vm_compute. discriminate.
Defined.

(** At the last depth of the same graph the end node is the one
    candidate. *)
Example end_reservation_last_depth :
  candidates 4 scenario_adj None (Some 3%nat) scenario_state_last = Some [3%nat].
Proof. reflexivity. Qed.

(** ** The empty string as start or end *)

(** C10. A start or an end that is the empty string is taken as absent:
    the call is the call without that argument, whether or not the mapping
    has a team named by the empty string, and when both are the empty
    string the call does not raise. *)
Theorem C10_empty_string_is_no_constraint (self : SetlistSolver) (limit : option Z)
    (start_team end_team : option string) :
  generate_valid_setlists self limit (Some EmptyString) end_team
  = generate_valid_setlists self limit None end_team
  ∧ generate_valid_setlists self limit start_team (Some EmptyString)
    = generate_valid_setlists self limit start_team None
  ∧ ∃ out, generate_valid_setlists self limit (Some EmptyString) (Some EmptyString) = inr out
         ∧ generate_valid_setlists self limit None None = inr out.
Proof.
  split_and!.
  - reflexivity.
  - unfold generate_valid_setlists.
    destruct (truthy start_team && not_a_team self start_team); reflexivity.
  - eexists. split; reflexivity.
Qed.

(** The empty string is no constraint when it names a team ... *)
Example empty_start_with_unnamed_team :
  generate_valid_setlists (solver_of scenario_unnamed) None (Some EmptyString) None
  = inr [[EmptyString; "b"]; ["b"; EmptyString]]%string.
Proof. vm_compute. reflexivity. Qed.

(** ... and when it names none. *)
Example empty_end_without_unnamed_team :
  generate_valid_setlists (solver_of scenario_abc) None None (Some EmptyString)
  = inr [["a"; "b"; "c"]; ["c"; "b"; "a"]]%string.
Proof. vm_compute. reflexivity. Qed.

(** * Further properties *)

(** ** The search yields the Hamiltonian paths *)

Lemma elem_of_for_candidates
    (rec : SearchState → option (list (list nat) * SearchState)) (st : SearchState) :
  ∀ cs,
    (∀ c, c ∈ cs → bit_set (used_mask st) c = false →
          ∃ o, rec (push c st) = Some (o, push c st)) →
    ∃ out, for_candidates rec cs st = Some (out, st)
         ∧ ∀ p, p ∈ out ↔
                ∃ c o, c ∈ cs ∧ bit_set (used_mask st) c = false
                       ∧ rec (push c st) = Some (o, push c st) ∧ p ∈ o.
Proof.
  induction cs as [|c cs IH]; intros Hrec.
  { exists []. split; [done|]. intros p. split; [by intros ?%elem_of_nil|].
    by intros (c & o & ?%elem_of_nil & _). }
  destruct IH as (out2 & Hout2 & Hin2).
  { intros x Hx. apply Hrec. by right. }
  simpl. destruct (bit_set (used_mask st) c) eqn:Hc.
  - exists out2. split; [done|]. intros p. rewrite Hin2. split.
    + intros (x & o & Hx & Hrest). exists x, o. split; [by right|done].
    + intros (x & o & [->|Hx]%elem_of_cons & Hfree & Hrest); [congruence|].
      by exists x, o.
  - destruct (Hrec c) as (o1 & Ho1); [by left|done|].
    rewrite Ho1, pop_push, Hout2 by done.
    exists (o1 ++ out2). split; [done|]. intros p.
    rewrite elem_of_app, Hin2. split.
    + intros [Hp|(x & o & Hx & Hrest)].
      * exists c, o1. split_and!; [by left|done..].
      * exists x, o. split; [by right|done].
    + intros (x & o & [->|Hx]%elem_of_cons & Hfree & Hx' & Hp).
      * left. congruence.
      * right. by exists x, o.
Qed.

Lemma last_path_last_iff (p : list nat) (e : nat) :
  p ≠ [] → last p = Some e ↔ path_last p = e.
Proof.
  intros Hp. rewrite last_path_last by done. split; [by intros [= ->]|by intros ->].
Qed.

Section SearchExact.
Variable n : nat.
Variable adj : list Z.
Variable start_node_r : option nat.
Variable end_node_r : option nat.

Hypothesis Hn : (0 < n)%nat.
Hypothesis Hadj : ∀ i, mask_below n (adj !!! i).
Hypothesis Hstart : ∀ s, start_node_r = Some s → (s < n)%nat.

(** A candidate that comes from a mask is joined to the last node. *)
Lemma candidates_linked (st : SearchState) (cs : list nat) (c : nat) :
  path st ≠ [] → candidates n adj start_node_r end_node_r st = Some cs → c ∈ cs →
  Z.testbit (adj !!! path_last (path st)) (Z.of_nat c) = true.
Proof.
  intros Hne. unfold candidates.
  destruct (Nat.eqb_spec (length (path st)) 0) as [H0|_].
  { by destruct (path st). }
  destruct (allowed_mask n adj end_node_r st) as [allowed|] eqn:Ha; [|done].
  intros [= <-]. rewrite elem_of_sorted.
  pose proof (allowed_mask_below n adj end_node_r Hn Hadj st allowed Ha) as [Hpos _].
  rewrite elem_of_lowbits by done.
  revert Ha. unfold allowed_mask.
  assert (Hbase : ∀ x, Z.testbit (base_allowed adj st) (Z.of_nat x) = true →
                       Z.testbit (adj !!! path_last (path st)) (Z.of_nat x) = true).
  { intros x. unfold base_allowed. rewrite Z.land_spec, andb_true_iff. tauto. }
  destruct end_node_r as [e|]; [|intros [= <-]; apply Hbase].
  destruct (Z.of_nat (length (path st)) <? Z.of_nat n - 1)%Z.
  - destruct (Z.of_nat (length (path st)) =? Z.of_nat n - 1)%Z.
    + destruct (bit_set _ e) eqn:He; [|done]. intros [= <-].
      rewrite testbit_bit, bool_decide_eq_true. intros <-.
      rewrite bit_set_testbit, Z.land_spec, andb_true_iff in He. apply Hbase, He.
    + intros [= <-]. rewrite Z.land_spec, andb_true_iff. intros [E _]. by apply Hbase.
  - destruct (Z.of_nat (length (path st)) =? Z.of_nat n - 1)%Z.
    + destruct (bit_set _ e) eqn:He; [|done]. intros [= <-].
      rewrite testbit_bit, bool_decide_eq_true. intros <-.
      rewrite bit_set_testbit in He. by apply Hbase.
    + intros [= <-]. apply Hbase.
Qed.

(** One step back: a path that goes on from [st] through a candidate goes
    on from [st]. *)
Lemma extension_step_back (st : SearchState) (cs : list nat) (c : nat) (p : list nat) :
  candidates n adj start_node_r end_node_r st = Some cs → c ∈ cs →
  extension n adj start_node_r end_node_r (push c st) p →
  extension n adj start_node_r end_node_r st p.
Proof.
  intros Hcs Hc (Hpre & Hlen & Hnd & Hlt & Hlink & _ & Hend).
  simpl in Hpre, Hlink. rewrite length_app in Hlink. simpl in Hlink.
  unfold extension. split_and!; try done.
  - by eapply prefix_app_l.
  - intros k a b Hk Ha Hb.
    destruct (decide (length (path st) ≤ k)%nat) as [Hge|Hlt'].
    { apply (Hlink k); [lia|done..]. }
    assert (S k = length (path st)) as HSk by lia.
    destruct Hpre as [rest ->].
    assert (Hne : path st ≠ []) by (intros E; rewrite E in HSk; done).
    rewrite <- app_assoc in Ha, Hb. simpl in Ha, Hb.
    rewrite lookup_app_l in Ha by lia.
    rewrite HSk, list_lookup_middle in Hb by done. injection Hb as <-.
    assert (a = path_last (path st)) as ->.
    { destruct (path st) as [|x q] using rev_ind; [done|].
      rewrite length_app in HSk. simpl in HSk.
      assert (k = length q) as -> by lia.
      rewrite list_lookup_middle in Ha by done. injection Ha as <-.
      unfold path_last. by rewrite last_last. }
    by eapply candidates_linked.
  - intros Hnil s Hs. destruct Hpre as [rest ->].
    revert Hcs. unfold candidates. rewrite Hnil in *. simpl. rewrite Hs.
    intros [= <-]. by apply list_elem_of_singleton in Hc as ->.
Qed.

(** One step forward: a path that goes on from an incomplete [st] goes
    on through a candidate that is not yet used. *)
Lemma extension_step (st : SearchState) (p : list nat) :
  coherent n st → (length (path st) < n)%nat →
  extension n adj start_node_r end_node_r st p →
  ∃ cs c, candidates n adj start_node_r end_node_r st = Some cs ∧ c ∈ cs
          ∧ bit_set (used_mask st) c = false
          ∧ extension n adj start_node_r end_node_r (push c st) p.
Proof.
  intros (Hnd0 & Hlt0 & Hused) HL (Hpre & Hlen & Hnd & Hlt & Hlink & Hhead & Hend).
  destruct Hpre as [rest ->].
  destruct rest as [|c rest].
  { rewrite app_nil_r in Hlen. lia. }
  assert (Hfree : bit_set (used_mask st) c = false).
  { rewrite bit_set_testbit. apply not_true_is_false. rewrite Hused.
    apply NoDup_app in Hnd as (_ & Hdis & _). intros Hin.
    apply (Hdis c Hin). by left. }
  assert (Hcn : (c < n)%nat).
  { apply Hlt. apply elem_of_app. right. by left. }
  assert (Hext : extension n adj start_node_r end_node_r (push c st) (path st ++ c :: rest)).
  { unfold extension. split_and!; try done.
    - simpl. exists rest. by rewrite <- app_assoc.
    - simpl. rewrite length_app. simpl. intros k a b Hk. apply Hlink. lia.
    - simpl. intros E. by destruct (path st). }
  assert (Hcand : ∃ cs, candidates n adj start_node_r end_node_r st = Some cs ∧ c ∈ cs);
    [|destruct Hcand as (cs & Hcs & Hc); by exists cs, c].
  unfold candidates.
  destruct (Nat.eqb_spec (length (path st)) 0) as [H0|Hpos].
  { apply nil_length_inv in H0. eexists. split; [done|].
    destruct start_node_r as [s|] eqn:Hs.
    - specialize (Hhead H0 s eq_refl). rewrite H0 in Hhead. simpl in Hhead.
      injection Hhead as ->. by left.
    - apply elem_of_seq. lia. }
  assert (Hne : path st ≠ []) by (intros E; rewrite E in Hpos; done).
  assert (Hbase : Z.testbit (base_allowed adj st) (Z.of_nat c) = true).
  { unfold base_allowed. rewrite Z.land_spec, Z.lnot_spec by lia.
    rewrite bit_set_testbit in Hfree. rewrite Hfree, andb_true_r.
    apply (Hlink (length (path st) - 1)%nat); [lia| |].
    - rewrite lookup_app_l by lia.
      destruct (path st) as [|x q _] using rev_ind; [done|].
      rewrite length_app. simpl. replace (length q + 1 - 1)%nat with (length q) by lia.
      unfold path_last. by rewrite last_last, list_lookup_middle.
    - replace (S (length (path st) - 1)) with (length (path st)) by lia.
      by rewrite list_lookup_middle. }
  assert (Hbpos : (0 ≤ base_allowed adj st)%Z) by apply (base_allowed_below n adj Hadj st).
  assert (Hsorted : ∀ allowed, (0 ≤ allowed)%Z →
            Z.testbit allowed (Z.of_nat c) = true →
            ∃ cs, Some (sorted (λ c0, bin_count1 (Z.land (adj !!! c0) (Z.lnot (used_mask st))))
                               (lowbits allowed)) = Some cs ∧ c ∈ cs).
  { intros allowed Hapos Hbit. eexists. split; [done|].
    by rewrite elem_of_sorted, elem_of_lowbits. }
  unfold allowed_mask. destruct end_node_r as [e|] eqn:He; [|by apply Hsorted].
  specialize (Hend e eq_refl).
  rewrite last_app_cons in Hend.
  rewrite length_app in Hlen. simpl in Hlen.
  destruct (Z.ltb_spec (Z.of_nat (length (path st))) (Z.of_nat n - 1)) as [Hin|Hlast].
  - destruct (Z.eqb_spec (Z.of_nat (length (path st))) (Z.of_nat n - 1)) as [?|_]; [lia|].
    apply Hsorted; [apply Z.land_nonneg; by left|].
    rewrite testbit_land_lnot_bit, Hbase. simpl.
    apply negb_true_iff, bool_decide_eq_false. intros <-.
    destruct rest as [|x rest]; [simpl in Hlen; lia|].
    apply NoDup_app in Hnd as (_ & _ & Hnd). apply NoDup_cons in Hnd as [Hnot _].
    apply Hnot. change (e :: x :: rest) with ([e] ++ x :: rest) in Hend.
    rewrite last_app_cons in Hend. apply last_Some in Hend as [l' ->].
    apply elem_of_app. right. by left.
  - destruct (Z.eqb_spec (Z.of_nat (length (path st))) (Z.of_nat n - 1)) as [Heq|?]; [|lia].
    destruct rest as [|x rest]; [|simpl in Hlen; lia].
    simpl in Hend. injection Hend as ->.
    rewrite bit_set_testbit, Hbase. eexists. split; [done|].
    rewrite lowbits_bit. simpl. by left.
Qed.

(** A call of [solve] yields the paths that go on from its state, and no
    other. *)
Lemma solve_exact : ∀ (depth : nat) (st : SearchState),
  coherent n st → (length (path st) ≤ n)%nat → (n < length (path st) + depth)%nat →
  ∃ out, solve n adj start_node_r end_node_r depth st = Some (out, st)
       ∧ ∀ p, p ∈ out ↔ extension n adj start_node_r end_node_r st p.
Proof.
  induction depth as [|depth IH]; intros st Hst Hle Hfuel; [lia|].
  rewrite solve_S. destruct (Nat.eqb_spec (length (path st)) n) as [HL|HL].
  - assert (Hself : ∀ p, extension n adj start_node_r end_node_r st p → p = path st).
    { intros p (Hpre & Hlen & _). symmetry. apply prefix_length_eq; [done|lia]. }
    assert (Hne : path st ≠ []) by (intros E; rewrite E in HL; simpl in HL; lia).
    assert (Hext : (∀ e, end_node_r = Some e → path_last (path st) = e) →
                   extension n adj start_node_r end_node_r st (path st)).
    { intros He. destruct Hst as (Hnd & Hlt & _). unfold extension. split_and!; try done.
      - intros k a b Hk Ha Hb. apply lookup_lt_Some in Hb. lia.
      - intros e Hend. rewrite last_path_last_iff by done. by apply He. }
    destruct end_node_r as [e|] eqn:He.
    + destruct (Nat.eqb_spec (path_last (path st)) e) as [Hlast|Hlast].
      * exists [path st]. split; [done|]. intros p. rewrite list_elem_of_singleton.
        split; [intros ->; apply Hext; by intros e0 [= <-]|apply Hself].
      * exists []. split; [done|]. intros p. split; [by intros ?%elem_of_nil|].
        intros Hp. pose proof (Hself p Hp) as ->.
        destruct Hp as (_ & _ & _ & _ & _ & _ & Hend).
        specialize (Hend e eq_refl). by apply last_path_last_iff in Hend.
    + exists [path st]. split; [done|]. intros p. rewrite list_elem_of_singleton.
      split; [intros ->; by apply Hext|apply Hself].
  - assert (Hrec : ∀ c, (c < n)%nat → bit_set (used_mask st) c = false →
              ∃ o, solve n adj start_node_r end_node_r depth (push c st)
                   = Some (o, push c st)
                   ∧ ∀ p, p ∈ o ↔ extension n adj start_node_r end_node_r (push c st) p).
    { intros c Hc Hfree. apply IH.
      - by apply coherent_push.
      - simpl. rewrite length_app. simpl. lia.
      - simpl. rewrite length_app. simpl. lia. }
    destruct (candidates n adj start_node_r end_node_r st) as [cs|] eqn:Hcs.
    + destruct (elem_of_for_candidates (solve n adj start_node_r end_node_r depth) st cs)
        as (out & Hout & Hin).
      { intros c Hc Hfree. destruct (Hrec c) as (o & Ho & _); [|done|by exists o].
        by eapply (candidates_below n adj start_node_r end_node_r Hn Hadj Hstart st). }
      exists out. split; [done|]. intros p. rewrite Hin. split.
      * intros (c & o & Hc & Hfree & Ho & Hp).
        apply (extension_step_back st cs c); [done..|].
        destruct (Hrec c) as (o' & Ho' & Hiff); [|done|].
        { by eapply (candidates_below n adj start_node_r end_node_r Hn Hadj Hstart st). }
        rewrite Ho in Ho'. injection Ho' as <-. by apply Hiff.
      * intros Hp. destruct (extension_step st p Hst ltac:(lia) Hp)
          as (cs' & c & Hcs' & Hc & Hfree & Hext).
        rewrite Hcs in Hcs'. injection Hcs' as <-.
        destruct (Hrec c) as (o & Ho & Hiff); [|done|].
        { by eapply (candidates_below n adj start_node_r end_node_r Hn Hadj Hstart st). }
        exists c, o. split_and!; [done..|]. by apply Hiff.
    + exists []. split; [done|]. intros p. split; [by intros ?%elem_of_nil|].
      intros Hp. destruct (extension_step st p Hst ltac:(lia) Hp)
        as (cs' & c & Hcs' & _). congruence.
Qed.

Lemma extension_fresh (p : list nat) :
  extension n adj start_node_r end_node_r fresh p
  ↔ hamiltonian n adj start_node_r end_node_r p.
Proof.
  unfold extension, hamiltonian. simpl. split.
  - intros (_ & Hlen & Hnd & Hlt & Hlink & Hhead & Hend). split_and!; try done.
    by apply Hhead.
  - intros (Hlen & Hnd & Hlt & Hlink & Hhead & Hend). split_and!; try done.
    apply prefix_nil.
Qed.

Lemma backtrack_exact (p : list nat) :
  p ∈ _backtrack_with_end n adj start_node_r end_node_r
  ↔ hamiltonian n adj start_node_r end_node_r p.
Proof.
  destruct (solve_exact (S n) fresh (coherent_fresh n)) as (out & Hout & Hin);
    [simpl; lia..|].
  unfold _backtrack_with_end. rewrite Hout, Hin. apply extension_fresh.
Qed.
End SearchExact.

(** ** The bits of a mask, in order *)

Lemma StronglySorted_seq (k f : nat) : StronglySorted lt (seq k f).
Proof.
  revert k. induction f as [|f IH]; intros k; simpl; constructor; [apply IH|].
  apply Forall_forall. intros x Hx%elem_of_seq. lia.
Qed.

Lemma StronglySorted_list_filter {A : Type} (R : A → A → Prop) (f : A → bool) (l : list A) :
  StronglySorted R l → StronglySorted R (List.filter f l).
Proof.
  induction 1 as [|x l Hl IH Hx]; simpl; [constructor|].
  destruct (f x); [|done]. constructor; [done|].
  apply Forall_forall. intros y Hy. rewrite Forall_forall in Hx. apply Hx.
  apply list_elem_of_In in Hy. apply filter_In in Hy as [Hy _]. by apply list_elem_of_In.
Qed.

Lemma StronglySorted_lt_NoDup (l : list nat) : StronglySorted lt l → NoDup l.
Proof.
  induction 1 as [|x l Hl IH Hx]; constructor; [|done].
  intros Hin. rewrite Forall_forall in Hx. specialize (Hx x Hin). lia.
Qed.

Lemma lowbits_filter (x : Z) :
  (0 ≤ x)%Z →
  lowbits x = List.filter (λ i, Z.testbit x (Z.of_nat i)) (seq 0 (S (Z.to_nat (Z.log2 x)))).
Proof.
  intros Hx. unfold lowbits. apply lowbits_loop_spec; [lia|done|].
  intros j E. apply testbit_below_size in E; lia.
Qed.

Lemma lowbits_StronglySorted (x : Z) : (0 ≤ x)%Z → StronglySorted lt (lowbits x).
Proof.
  intros Hx. rewrite lowbits_filter by done.
  apply StronglySorted_list_filter, StronglySorted_seq.
Qed.

(** ** Every path is yielded once *)

Lemma candidates_NoDup (n : nat) (adj : list Z) (start_node_r end_node_r : option nat)
    (st : SearchState) (cs : list nat) :
  (0 < n)%nat → (∀ i, mask_below n (adj !!! i)) →
  candidates n adj start_node_r end_node_r st = Some cs → NoDup cs.
Proof.
  intros Hn Hadj. unfold candidates. destruct (length (path st) =? 0)%nat.
  - intros [= <-]. destruct start_node_r; [apply NoDup_singleton|apply NoDup_seq].
  - destruct (allowed_mask n adj end_node_r st) as [allowed|] eqn:Ha; [|done].
    intros [= <-]. rewrite sorted_Permutation.
    apply StronglySorted_lt_NoDup, lowbits_StronglySorted.
    by apply (allowed_mask_below n adj end_node_r Hn Hadj st allowed Ha).
Qed.

Lemma NoDup_for_candidates
    (rec : SearchState → option (list (list nat) * SearchState)) (st : SearchState) :
  ∀ cs, NoDup cs →
    (∀ c, c ∈ cs → bit_set (used_mask st) c = false →
          ∃ o, rec (push c st) = Some (o, push c st) ∧ NoDup o
               ∧ ∀ p, p ∈ o → path st ++ [c] `prefix_of` p) →
    ∃ out, for_candidates rec cs st = Some (out, st) ∧ NoDup out
         ∧ ∀ p, p ∈ out → ∃ c, c ∈ cs ∧ path st ++ [c] `prefix_of` p.
Proof.
  induction cs as [|c cs IH]; intros Hnd Hrec.
  { exists []. split_and!; [done|constructor|]. by intros p ?%elem_of_nil. }
  apply NoDup_cons in Hnd as [Hc Hnd].
  destruct (IH Hnd) as (out2 & Hout2 & Hnd2 & Hpre2).
  { intros x Hx. apply Hrec. by right. }
  assert (Hpre2' : ∀ p, p ∈ out2 → ∃ c0, c0 ∈ c :: cs ∧ path st ++ [c0] `prefix_of` p).
  { intros p Hp. destruct (Hpre2 p Hp) as (x & Hx & Hpx). exists x. split; [by right|done]. }
  simpl. destruct (bit_set (used_mask st) c) eqn:Hfree.
  - by exists out2.
  - destruct (Hrec c) as (o1 & Ho1 & Hnd1 & Hpre1); [by left|done|].
    rewrite Ho1, pop_push, Hout2 by done.
    exists (o1 ++ out2). split_and!; [done| |].
    + apply NoDup_app. split_and!; [done| |done].
      intros p Hp1 Hp2. apply Hpre1 in Hp1 as [r1 ->].
      apply Hpre2 in Hp2 as (x & Hx & [r2 Hr2]).
      apply Hc. rewrite <- !app_assoc in Hr2. apply app_inv_head in Hr2.
      simpl in Hr2. by injection Hr2 as -> _.
    + intros p [Hp|Hp]%elem_of_app; [|by apply Hpre2'].
      exists c. split; [by left|by apply Hpre1].
Qed.

Section SearchNoDup.
Variable n : nat.
Variable adj : list Z.
Variable start_node_r : option nat.
Variable end_node_r : option nat.

Hypothesis Hn : (0 < n)%nat.
Hypothesis Hadj : ∀ i, mask_below n (adj !!! i).
Hypothesis Hstart : ∀ s, start_node_r = Some s → (s < n)%nat.

Lemma solve_NoDup : ∀ (depth : nat) (st : SearchState),
  coherent n st → (length (path st) ≤ n)%nat → (n < length (path st) + depth)%nat →
  ∃ out, solve n adj start_node_r end_node_r depth st = Some (out, st)
       ∧ NoDup out ∧ ∀ p, p ∈ out → path st `prefix_of` p.
Proof.
  induction depth as [|depth IH]; intros st Hst Hle Hfuel; [lia|].
  rewrite solve_S. destruct (Nat.eqb_spec (length (path st)) n) as [HL|HL].
  - assert (Hone : NoDup [path st] ∧ ∀ p, p ∈ [path st] → path st `prefix_of` p).
    { split; [apply NoDup_singleton|]. by intros p ->%list_elem_of_singleton. }
    assert (Hnone : NoDup (@nil (list nat)) ∧ ∀ p, p ∈ @nil (list nat) → path st `prefix_of` p).
    { split; [constructor|]. by intros p ?%elem_of_nil. }
    destruct end_node_r as [e|]; [destruct (path_last (path st) =? e)%nat|]; eauto.
  - destruct (candidates n adj start_node_r end_node_r st) as [cs|] eqn:Hcs.
    + destruct (NoDup_for_candidates (solve n adj start_node_r end_node_r depth) st cs)
        as (out & Hout & Hnd & Hpre).
      { by eapply candidates_NoDup. }
      { intros c Hc Hfree. destruct (IH (push c st)) as (o & Ho & Hndo & Hpreo).
        - apply coherent_push; [done| |done].
          by eapply (candidates_below n adj start_node_r end_node_r Hn Hadj Hstart st).
        - simpl. rewrite length_app. simpl. lia.
        - simpl. rewrite length_app. simpl. lia.
        - by exists o. }
      exists out. split_and!; [done..|].
      intros p Hp. destruct (Hpre p Hp) as (c & _ & Hc). by eapply prefix_app_l.
    + exists []. split_and!; [done|constructor|]. by intros p ?%elem_of_nil.
Qed.

Lemma backtrack_NoDup : NoDup (_backtrack_with_end n adj start_node_r end_node_r).
Proof.
  destruct (solve_NoDup (S n) fresh (coherent_fresh n)) as (out & Hout & Hnd & _);
    [simpl; lia..|].
  unfold _backtrack_with_end. by rewrite Hout.
Qed.
End SearchNoDup.

(** ** Reindexing keeps the graph *)

Lemma length_foldl_insert_at {A : Type} (f : nat → nat) (g : nat → A) (l : list nat) :
  ∀ a0 : list A, length (foldl (λ a i, <[ f i := g i ]> a) a0 l) = length a0.
Proof.
  induction l as [|x l IH]; intros a0; simpl; [done|].
  by rewrite IH, length_insert.
Qed.

(** Writing [g i] at [f i] for every [i] of [l], where [f] sends distinct
    elements of [l] to distinct places. *)
Lemma lookup_foldl_insert_at {A : Type} (f : nat → nat) (g : nat → A) (l : list nat)
    (a0 : list A) (i : nat) :
  (∀ x y, x ∈ l → y ∈ l → f x = f y → x = y) →
  i ∈ l → (f i < length a0)%nat →
  foldl (λ a i, <[ f i := g i ]> a) a0 l !! f i = Some (g i).
Proof.
  induction l as [|x l IH] using rev_ind; intros Hinj Hi Hlt.
  { by apply elem_of_nil in Hi. }
  rewrite foldl_app. simpl.
  destruct (decide (f x = f i)) as [E|Hne].
  - assert (x = i) as ->.
    { apply Hinj; [|done..]. apply elem_of_app. right. by left. }
    apply list_lookup_insert_eq. by rewrite length_foldl_insert_at.
  - rewrite list_lookup_insert_ne by done.
    apply elem_of_app in Hi as [Hi| ->%list_elem_of_singleton]; [|done].
    apply IH; [|done..]. intros y z Hy Hz. apply Hinj; apply elem_of_app; by left.
Qed.

Section Reindex.
Variable self : SetlistSolver.
Hypothesis Hself : constructed self.

Lemma ranked_indices_NoDup : NoDup (ranked_indices self).
Proof. rewrite ranked_indices_Permutation. apply NoDup_seq. Qed.

Lemma rank_of_inj (i j : nat) :
  (i < team_count self)%nat → (j < team_count self)%nat →
  rank_of self i = rank_of self j → i = j.
Proof.
  intros Hi Hj E. apply (ranked_rank_of self) in Hi, Hj.
  rewrite E in Hi. congruence.
Qed.

Lemma rank_of_ranked (r i : nat) :
  ranked_indices self !! r = Some i → rank_of self i = r.
Proof.
  intros Hr.
  assert (Hi : (i < team_count self)%nat).
  { apply elem_of_ranked_indices. by eapply list_elem_of_lookup_2. }
  apply (ranked_rank_of self) in Hi.
  by eapply NoDup_lookup; [apply ranked_indices_NoDup|..].
Qed.

(** Every rank is the rank of an index. *)
Lemma rank_of_surj (r : nat) :
  (r < team_count self)%nat →
  ∃ i, (i < team_count self)%nat ∧ rank_of self i = r ∧ ranked_indices self !! r = Some i.
Proof.
  intros Hr. destruct (lookup_lt_is_Some_2 (ranked_indices self) r) as [i Hi].
  { by rewrite length_ranked_indices. }
  exists i. split_and!; [|by apply rank_of_ranked|done].
  apply elem_of_ranked_indices. by eapply list_elem_of_lookup_2.
Qed.

Lemma reindexed_mask_testbit (original_mask : Z) (r : nat) :
  Z.testbit (reindexed_mask self original_mask) (Z.of_nat r) = true ↔
  ∃ j, (j < team_count self)%nat ∧ Z.testbit original_mask (Z.of_nat j) = true
       ∧ rank_of self j = r.
Proof.
  unfold reindexed_mask.
  assert (Hgen : ∀ (js : list nat) (m : Z),
    Z.testbit (foldl (λ m j, if bit_set original_mask j
                              then Z.lor m (bit (rank_of self j)) else m) m js)
              (Z.of_nat r) = true ↔
    Z.testbit m (Z.of_nat r) = true
    ∨ ∃ j, j ∈ js ∧ Z.testbit original_mask (Z.of_nat j) = true ∧ rank_of self j = r).
  { induction js as [|j js IH]; intros m; simpl.
    { split; [by left|]. intros [?|(j & ?%elem_of_nil & _)]; done. }
    rewrite IH. rewrite bit_set_testbit.
    destruct (Z.testbit original_mask (Z.of_nat j)) eqn:Hj.
    - rewrite testbit_lor_bit, orb_true_iff, bool_decide_eq_true. split.
      + intros [[?|Hr]|(x & Hx & Hrest)].
        * by left.
        * right. exists j. split; [by left|done].
        * right. exists x. split; [by right|done].
      + intros [?|(x & [->|Hx]%elem_of_cons & Hbit & Hr)].
        * left. by left.
        * left. by right.
        * right. by exists x.
    - split.
      + intros [?|(x & Hx & Hrest)]; [by left|].
        right. exists x. split; [by right|done].
      + intros [?|(x & [->|Hx]%elem_of_cons & Hbit & Hr)]; [by left|congruence|].
        right. by exists x. }
  rewrite Hgen, Z.bits_0. split.
  - intros [?|(j & Hj%elem_of_seq & Hrest)]; [done|]. exists j. split; [lia|done].
  - intros (j & Hj & Hrest). right. exists j. split; [|done]. apply elem_of_seq. lia.
Qed.

Lemma adj_r_lookup (i : nat) :
  (i < team_count self)%nat →
  adj_r self !!! rank_of self i = reindexed_mask self (adjacency_masks self !!! i).
Proof.
  intros Hi. apply list_lookup_total_correct. unfold adj_r.
  apply (lookup_foldl_insert_at (rank_of self)
           (λ i, reindexed_mask self (adjacency_masks self !!! i))).
  - intros x y Hx%elem_of_seq Hy%elem_of_seq. apply rank_of_inj; lia.
  - apply elem_of_seq. lia.
  - rewrite length_replicate. by apply rank_of_lt.
Qed.

(** The reindexed masks hold the relation of the masks of the solver,
    read through the ranks. *)
Lemma adj_r_testbit (i j : nat) :
  (i < team_count self)%nat → (j < team_count self)%nat →
  Z.testbit (adj_r self !!! rank_of self i) (Z.of_nat (rank_of self j))
  = Z.testbit (adjacency_masks self !!! i) (Z.of_nat j).
Proof.
  intros Hi Hj. rewrite adj_r_lookup by done. apply eq_true_iff_eq.
  rewrite reindexed_mask_testbit. split.
  - intros (j' & Hj' & Hbit & E). by rewrite <- (rank_of_inj j' j Hj' Hj E).
  - intros Hbit. by exists j.
Qed.

(** The team at a rank. *)
Lemma teams_r_lookup (r i : nat) :
  ranked_indices self !! r = Some i →
  ∃ team, teams self !! i = Some team ∧ teams_r self !!! r = team.
Proof.
  intros Hr.
  assert (Hi : (i < team_count self)%nat).
  { apply elem_of_ranked_indices. by eapply list_elem_of_lookup_2. }
  destruct Hself as (_ & Hn & _).
  destruct (lookup_lt_is_Some_2 (teams self) i) as [team Ht]; [lia|].
  exists team. split; [done|].
  rewrite <- (rank_of_ranked r i Hr). by apply teams_r_rank_of.
Qed.

(** Two nodes that are joined in the reindexed masks are teams without a
    common member. *)
Lemma adj_r_disjoint (a b : nat) :
  (a < team_count self)%nat → (b < team_count self)%nat →
  Z.testbit (adj_r self !!! a) (Z.of_nat b) = true →
  members_of (teams_to_members self) (teams_r self !!! a)
  ## members_of (teams_to_members self) (teams_r self !!! b).
Proof.
  intros Ha Hb Hbit.
  destruct (rank_of_surj a Ha) as (i & Hi & Hri & Hai).
  destruct (rank_of_surj b Hb) as (j & Hj & Hrj & Hbj).
  destruct (teams_r_lookup a i Hai) as (ta & Hta & ->).
  destruct (teams_r_lookup b j Hbj) as (tb & Htb & ->).
  rewrite <- Hri, <- Hrj, adj_r_testbit in Hbit by done.
  by apply (adjacency_testbit self i j ta tb Hself Hta Htb) in Hbit as [_ Hdis].
Qed.

(** The names along a path of the reindexed graph form a sequence that
    the validator accepts. *)
Lemma names_of_linked_valid (p : list nat) :
  (∀ c, c ∈ p → (c < team_count self)%nat) →
  linked_from (adj_r self) 0 p →
  no_shared_member (teams_to_members self) (names_of self p).
Proof.
  intros Hlt Hlink k a b Ha Hb. unfold names_of in Ha, Hb.
  change (map ?f p) with (f <$> p) in Ha, Hb.
  rewrite list_lookup_fmap in Ha, Hb.
  destruct (p !! k) as [a'|] eqn:Ha'; [|done].
  destruct (p !! S k) as [b'|] eqn:Hb'; [|done].
  injection Ha as <-. injection Hb as <-.
  apply adj_r_disjoint.
  - apply Hlt. by eapply list_elem_of_lookup_2.
  - apply Hlt. by eapply list_elem_of_lookup_2.
  - apply (Hlink k); [lia|done..].
Qed.
End Reindex.

(** ** The setlists that are yielded *)

Section Names.
Variable self : SetlistSolver.
Hypothesis Hself : constructed self.

Lemma node_of_team_spec (name : string) :
  name ∈ teams self →
  ∃ i, teams self !! i = Some name ∧ (i < team_count self)%nat
       ∧ node_of_team self name = rank_of self i
       ∧ teams_r self !!! node_of_team self name = name.
Proof.
  intros Hin. destruct (team_to_idx_lookup self Hself name Hin) as (i & Hget & Hi).
  exists i. unfold node_of_team. rewrite Hget. simpl. split_and!; [done| |done|].
  - destruct Hself as (_ & -> & _). by eapply lookup_lt_Some.
  - by apply teams_r_rank_of.
Qed.

Lemma node_r_nonempty (name : string) :
  name ≠ EmptyString → node_r self (Some name) = Some (node_of_team self name).
Proof. intros Hne. unfold node_r. by rewrite truthy_nonempty. Qed.

Lemma node_r_Some_inv (t : option string) (r : nat) :
  node_r self t = Some r →
  ∃ name, t = Some name ∧ name ≠ EmptyString ∧ r = node_of_team self name.
Proof.
  unfold node_r. destruct t as [[|a name]|]; simpl; try done.
  intros [= <-]. by eexists.
Qed.

Lemma names_of_nodes (sq : list string) :
  (∀ name, name ∈ sq → name ∈ teams self) →
  names_of self (map (node_of_team self) sq) = sq.
Proof.
  intros Hin. unfold names_of. rewrite map_map.
  rewrite <- (map_id sq) at 2. apply map_ext_in. intros name Hname.
  apply list_elem_of_In, Hin in Hname.
  by destruct (node_of_team_spec name Hname) as (_ & _ & _ & _ & ->).
Qed.

(** The nodes of a valid setlist form a Hamiltonian path of the reindexed
    graph. *)
Lemma nodes_of_valid_setlist (start_team end_team : option string) (sq : list string) :
  NoDup (teams self) →
  valid_setlist self start_team end_team sq →
  hamiltonian (team_count self) (adj_r self) (node_r self start_team)
    (node_r self end_team) (map (node_of_team self) sq).
Proof.
  intros Hkeys (Hperm & Hvalid & Hhead & Hlast).
  assert (Hin : ∀ name, name ∈ sq → name ∈ teams self).
  { intros name. by rewrite Hperm. }
  assert (Hnd : NoDup sq) by (by rewrite Hperm).
  assert (Hnames := names_of_nodes sq Hin).
  unfold hamiltonian. split_and!.
  - rewrite length_map, Hperm. symmetry. apply Hself.
  - apply (NoDup_fmap_1 (λ i, teams_r self !!! i)).
    change (NoDup (names_of self (map (node_of_team self) sq))). by rewrite Hnames.
  - intros c Hc. apply list_elem_of_In, in_map_iff in Hc as (name & <- & _).
    apply rank_of_lt, Hself.
  - intros k a b _ Ha Hb.
    change (map ?f sq) with (f <$> sq) in Ha, Hb. rewrite list_lookup_fmap in Ha, Hb.
    destruct (sq !! k) as [na|] eqn:Hna; [|done].
    destruct (sq !! S k) as [nb|] eqn:Hnb; [|done].
    injection Ha as <-. injection Hb as <-.
    destruct (node_of_team_spec na) as (i & Hi & Hilt & -> & _).
    { apply Hin. by eapply list_elem_of_lookup_2. }
    destruct (node_of_team_spec nb) as (j & Hj & Hjlt & -> & _).
    { apply Hin. by eapply list_elem_of_lookup_2. }
    rewrite adj_r_testbit by done.
    apply (adjacency_testbit self i j na nb Hself Hi Hj). split.
    + intros <-. rewrite Hi in Hj. injection Hj as <-.
      pose proof (NoDup_lookup _ _ _ _ Hnd Hna Hnb). lia.
    + by apply (Hvalid k).
  - intros r Hr. apply node_r_Some_inv in Hr as (name & -> & Hne & ->).
    specialize (Hhead name eq_refl Hne). destruct sq as [|x sq']; [done|].
    simpl in Hhead. by injection Hhead as ->.
  - intros r Hr. apply node_r_Some_inv in Hr as (name & -> & Hne & ->).
    specialize (Hlast name eq_refl Hne).
    change (map ?f sq) with (f <$> sq). by rewrite fmap_last, Hlast.
Qed.

(** The names of a Hamiltonian path of the reindexed graph form a valid
    setlist. *)
Lemma valid_setlist_of_path (start_team end_team : option string) (p : list nat) :
  (truthy start_team = true → not_a_team self start_team = false) →
  (truthy end_team = true → not_a_team self end_team = false) →
  hamiltonian (team_count self) (adj_r self) (node_r self start_team)
    (node_r self end_team) p →
  valid_setlist self start_team end_team (names_of self p).
Proof.
  intros Hs He (Hlen & Hnd & Hlt & Hlink & Hhead & Hlast).
  assert (Hnode : ∀ t name, (truthy t = true → not_a_team self t = false) →
            t = Some name → name ≠ EmptyString →
            teams_r self !!! node_of_team self name = name).
  { intros t name Ht -> Hne.
    specialize (Ht (truthy_nonempty name Hne)).
    rewrite not_a_team_spec in Ht by done.
    apply negb_false_iff, bool_decide_eq_true in Ht.
    by destruct (node_of_team_spec name Ht) as (_ & _ & _ & _ & ?). }
  unfold valid_setlist. split_and!.
  - apply names_of_Permutation; [done|]. by apply all_indices.
  - by apply names_of_linked_valid.
  - intros name -> Hne.
    rewrite (head_names_of self p (node_of_team self name)).
    + f_equal. exact (Hnode (Some name) name Hs eq_refl Hne).
    + apply Hhead. by apply node_r_nonempty.
  - intros name -> Hne.
    pose proof (Hlast _ (node_r_nonempty name Hne)) as Hl.
    unfold names_of. change (map ?f p) with (f <$> p). rewrite fmap_last, Hl. simpl.
    f_equal. exact (Hnode (Some name) name He eq_refl Hne).
Qed.

Lemma search_of_solver_exact (start_team end_team : option string) (p : list nat) :
  p ∈ _backtrack_with_end (team_count self) (adj_r self) (node_r self start_team)
        (node_r self end_team)
  ↔ hamiltonian (team_count self) (adj_r self) (node_r self start_team)
      (node_r self end_team) p.
Proof.
  apply backtrack_exact.
  - apply Hself.
  - by apply adj_r_below.
  - intros r Hr. by eapply node_r_lt.
Qed.

(** Without a limit, what a call that does not raise yields are the valid
    setlists and nothing else. *)
Lemma emitted_iff (start_team end_team : option string) (out : list (list string))
    (sq : list string) :
  NoDup (teams self) →
  generate_valid_setlists self None start_team end_team = inr out →
  sq ∈ out ↔ valid_setlist self start_team end_team sq.
Proof.
  intros Hkeys Hgen.
  destruct (generate_cases self None start_team end_team)
    as [(_ & _ & msg & E)|[(_ & _ & msg & E)|(Hs & He & E)]]; try congruence.
  rewrite E in Hgen. injection Hgen as <-.
  rewrite emit_no_limit, list_elem_of_In, filter_In, in_map_iff. split.
  - intros [(p & <- & Hp) _]. apply valid_setlist_of_path; [done..|].
    by apply search_of_solver_exact, list_elem_of_In.
  - intros Hsq. pose proof Hsq as (Hperm & Hvalid & _).
    assert (Hin : ∀ name, name ∈ sq → name ∈ teams self).
    { intros name. by rewrite Hperm. }
    split.
    + exists (map (node_of_team self) sq). split; [by apply names_of_nodes|].
      apply list_elem_of_In, search_of_solver_exact. by apply nodes_of_valid_setlist.
    + by apply sequence_is_valid_spec.
Qed.

(** The validator rejects no path that the search yields. *)
Lemma validator_accepts_search (start_team end_team : option string) (p : list nat) :
  p ∈ _backtrack_with_end (team_count self) (adj_r self) (node_r self start_team)
        (node_r self end_team) →
  fst (_sequence_is_valid (teams_to_members self) (names_of self p)) = true.
Proof.
  intros (_ & _ & Hlt & Hlink & _)%search_of_solver_exact.
  by apply sequence_is_valid_spec, names_of_linked_valid.
Qed.

Lemma teams_r_NoDup : NoDup (teams self) → NoDup (teams_r self).
Proof. intros Hkeys. by rewrite teams_r_Permutation. Qed.

(** Different paths have different names. *)
Lemma names_of_inj (p q : list nat) :
  NoDup (teams self) →
  (∀ c, c ∈ p → (c < team_count self)%nat) →
  (∀ c, c ∈ q → (c < team_count self)%nat) →
  names_of self p = names_of self q → p = q.
Proof.
  intros Hkeys. pose proof (teams_r_NoDup Hkeys) as Hnd.
  revert q. induction p as [|a p IH]; intros [|b q] Hp Hq E; try done.
  simpl in E. injection E as Hab Hrest. f_equal.
  - assert (Ha : (a < length (teams_r self))%nat).
    { rewrite length_teams_r. apply Hp. by left. }
    assert (Hb : (b < length (teams_r self))%nat).
    { rewrite length_teams_r. apply Hq. by left. }
    apply list_lookup_lookup_total_lt in Ha, Hb. rewrite Hab in Ha.
    by eapply NoDup_lookup.
  - apply IH; [| |done]; intros c Hc; [apply Hp|apply Hq]; by right.
Qed.
End Names.

(** ** The order of the ranking *)

(** A stable sort of numbers that come in ascending order sorts them by
    key first and by value second. *)
Lemma insert_by_StronglySorted (key : nat → nat) (x : nat) (l : list nat) :
  let R := λ a b, (key a < key b ∨ (key a = key b ∧ a < b))%nat in
  StronglySorted R l → Forall (λ y, (x < y)%nat) l →
  StronglySorted R (insert_by key x l).
Proof.
  intros R Hl Hx. induction Hl as [|y l Hl IH Hy]; simpl.
  { repeat constructor. }
  apply Forall_cons in Hx as [Hxy Hx].
  destruct (Nat.leb_spec (key x) (key y)) as [Hle|Hgt].
  - constructor; [by constructor|].
    assert (Rxy : R x y) by (unfold R; lia).
    constructor; [done|].
    rewrite Forall_forall in Hy, Hx. apply Forall_forall. intros z Hz.
    specialize (Hy z Hz). specialize (Hx z Hz). unfold R in *. lia.
  - constructor; [by apply IH|].
    rewrite insert_by_Permutation. constructor; [unfold R; lia|done].
Qed.

Lemma sorted_StronglySorted (key : nat → nat) (l : list nat) :
  StronglySorted lt l →
  StronglySorted (λ a b, (key a < key b ∨ (key a = key b ∧ a < b))%nat) (sorted key l).
Proof.
  induction 1 as [|x l Hl IH Hx]; simpl; [constructor|].
  apply insert_by_StronglySorted; [done|]. by rewrite sorted_Permutation.
Qed.

Lemma StronglySorted_lookup {A : Type} (R : A → A → Prop) (l : list A) (i j : nat) (a b : A) :
  StronglySorted R l → (i < j)%nat → l !! i = Some a → l !! j = Some b → R a b.
Proof.
  intros Hl. revert i j. induction Hl as [|x l Hl IH Hx]; intros i j Hij Ha Hb; [done|].
  destruct j as [|j]; [lia|]. simpl in Hb. destruct i as [|i].
  - simpl in Ha. injection Ha as <-. rewrite Forall_forall in Hx. apply Hx.
    by eapply list_elem_of_lookup_2.
  - simpl in Ha. apply (IH i j); [lia|done..].
Qed.

(** ** Counting the bits of a mask *)

Lemma length_filter_map_S (f : nat → bool) (l : list nat) :
  length (List.filter f (map S l)) = length (List.filter (λ i, f (S i)) l).
Proof.
  induction l as [|x l IH]; simpl; [done|]. destruct (f (S x)); simpl; by rewrite IH.
Qed.

Lemma length_filter_none (f : nat → bool) (l : list nat) :
  (∀ x, x ∈ l → f x = false) → length (List.filter f l) = 0%nat.
Proof.
  induction l as [|x l IH]; intros H; simpl; [done|].
  rewrite (H x) by (by left). apply IH. intros y Hy. apply H. by right.
Qed.

Lemma list_filter_cons {A : Type} (f : A → bool) (x : A) (l : list A) :
  List.filter f (x :: l) = if f x then x :: List.filter f l else List.filter f l.
Proof. reflexivity. Qed.

Lemma pos_count1_filter (p : positive) : ∀ N : nat,
  (∀ j : nat, Z.testbit (Zpos p) (Z.of_nat j) = true → (j < N)%nat) →
  length (List.filter (λ i, Z.testbit (Zpos p) (Z.of_nat i)) (seq 0 N)) = pos_count1 p.
Proof.
  induction p as [p IH|p IH|]; intros N HN.
  - destruct N as [|N]; [specialize (HN 0%nat eq_refl); lia|].
    simpl seq. rewrite <- seq_shift, list_filter_cons.
    change (Z.testbit (Zpos p~1) (Z.of_nat 0)) with true. cbv iota.
    simpl length. simpl pos_count1. f_equal.
    rewrite length_filter_map_S. rewrite <- (IH N).
    + f_equal. apply filter_ext. intros i.
      rewrite Nat2Z.inj_succ, Pos2Z.inj_xI. apply Z.testbit_odd_succ. lia.
    + intros j Hj. apply Nat.succ_lt_mono, HN.
      rewrite Nat2Z.inj_succ, Pos2Z.inj_xI, Z.testbit_odd_succ by lia. done.
  - destruct N as [|N].
    { pose proof (Z.bit_log2 (Zpos p~0) ltac:(lia)) as Hb.
      pose proof (Z.log2_nonneg (Zpos p~0)).
      specialize (HN (Z.to_nat (Z.log2 (Zpos p~0)))).
      rewrite Z2Nat.id in HN by done. apply HN in Hb. lia. }
    simpl seq. rewrite <- seq_shift, list_filter_cons.
    change (Z.testbit (Zpos p~0) (Z.of_nat 0)) with false. cbv iota.
    rewrite length_filter_map_S. simpl pos_count1. rewrite <- (IH N).
    + f_equal. apply filter_ext. intros i.
      rewrite Nat2Z.inj_succ, Pos2Z.inj_xO. apply Z.testbit_even_succ. lia.
    + intros j Hj. apply Nat.succ_lt_mono, HN.
      rewrite Nat2Z.inj_succ, Pos2Z.inj_xO, Z.testbit_even_succ by lia. done.
  - destruct N as [|N]; [specialize (HN 0%nat eq_refl); lia|].
    simpl seq. simpl. f_equal. apply length_filter_none.
    intros x Hx%elem_of_seq. destruct x as [|x]; [lia|].
    rewrite Nat2Z.inj_succ. change 1%Z with (2 * 0 + 1)%Z.
    rewrite Z.testbit_odd_succ by lia. apply Z.bits_0.
Qed.

(** ** Stripping *)

Lemma rstrip_nonspace (a : ascii) (s : string) :
  py_isspace a = false → rstrip (String a s) = String a (rstrip s).
Proof. intros Ha. simpl. rewrite Ha. by destruct (rstrip s). Qed.

Lemma rstrip_cons (a : ascii) (s : string) :
  rstrip (String a s)
  = match rstrip s with
    | EmptyString => if py_isspace a then EmptyString else String a EmptyString
    | r => String a r
    end.
Proof. reflexivity. Qed.

Lemma rstrip_idemp (s : string) : rstrip (rstrip s) = rstrip s.
Proof.
  induction s as [|a s IH]; [done|]. rewrite (rstrip_cons a s).
  destruct (rstrip s) as [|b r] eqn:Hr.
  - destruct (py_isspace a) eqn:Ha; [done|]. rewrite rstrip_cons. simpl. by rewrite Ha.
  - by rewrite rstrip_cons, IH.
Qed.

Lemma lstrip_cases (s : string) :
  lstrip s = EmptyString
  ∨ ∃ a s', lstrip s = String a s' ∧ py_isspace a = false.
Proof.
  induction s as [|a s IH]; [by left|]. simpl.
  destruct (py_isspace a) eqn:Ha; [done|]. right. by exists a, s.
Qed.

Lemma lstrip_strip (s : string) : lstrip (strip s) = strip s.
Proof.
  unfold strip. destruct (lstrip_cases s) as [->|(a & s' & -> & Ha)]; [done|].
  rewrite rstrip_nonspace by done. simpl. by rewrite Ha.
Qed.

Lemma strip_idemp (s : string) : strip (strip s) = strip s.
Proof.
  unfold strip at 1. rewrite lstrip_strip. unfold strip. apply rstrip_idemp.
Qed.

(** ** The dictionaries of the solver *)

Lemma dict_get_sanitized (raw : list (string * gset string)) (team : string) :
  dict_get (sanitized raw) team
  = set_map (D := gset string) strip <$> dict_get raw team.
Proof.
  induction raw as [|[t ms] raw IH]; [done|]. simpl.
  destruct (decide (t = team)); [done|exact IH].
Qed.

Lemma dict_get_lookup {V : Type} (d : list (string * V)) (i : nat) (k : string) (v : V) :
  NoDup (map fst d) → d !! i = Some (k, v) → dict_get d k = Some v.
Proof.
  revert i. induction d as [|[k' v'] d IH]; intros i Hnd Hi; [done|].
  simpl in Hnd. apply NoDup_cons in Hnd as [Hk' Hnd]. simpl.
  destruct i as [|i]; simpl in Hi.
  - injection Hi as -> ->. by rewrite decide_True.
  - rewrite decide_False; [by eapply IH|].
    intros ->. apply Hk'. apply list_elem_of_In, in_map_iff.
    exists (k, v). split; [done|]. by eapply list_elem_of_In, list_elem_of_lookup_2.
Qed.

Lemma dict_get_None {V : Type} (d : list (string * V)) (k : string) :
  dict_get d k = None ↔ k ∉ map fst d.
Proof.
  induction d as [|[k' v'] d IH]; simpl.
  { split; [intros _; apply not_elem_of_nil|done]. }
  rewrite not_elem_of_cons. destruct (decide (k' = k)) as [->|Hne].
  - split; [done|]. by intros [? _].
  - rewrite IH. split; [by split|by intros [_ ?]].
Qed.

(** ** What the validator reports *)

Lemma sequence_is_valid_shape (t2m : list (string * gset string)) (sq : list string) :
  _sequence_is_valid t2m sq = (true, None)
  ∨ ∃ a b overlap, _sequence_is_valid t2m sq = (false, Some (a, b, overlap)).
Proof.
  induction sq as [|x sq IH]; [by left|].
  destruct sq as [|y rest]; [by left|].
  change (_sequence_is_valid t2m (x :: y :: rest))
    with (if decide (members_of t2m x ∩ members_of t2m y = ∅)
          then _sequence_is_valid t2m (y :: rest)
          else (false, Some (x, y, members_of t2m x ∩ members_of t2m y))).
  destruct (decide (members_of t2m x ∩ members_of t2m y = ∅)); [done|].
  right. by eexists _, _, _.
Qed.

(** ** What a call yields, with and without a limit *)

Lemma NoDup_list_filter {A : Type} (f : A → bool) (l : list A) :
  NoDup l → NoDup (List.filter f l).
Proof.
  induction 1 as [|x l Hx Hl IH]; simpl; [constructor|].
  destruct (f x); [|done]. constructor; [|done].
  intros Hin. apply Hx. apply list_elem_of_In in Hin. apply filter_In in Hin as [Hin _].
  by apply list_elem_of_In.
Qed.

Lemma list_filter_all {A : Type} (f : A → bool) (l : list A) :
  (∀ x, x ∈ l → f x = true) → List.filter f l = l.
Proof.
  induction l as [|x l IH]; intros H; simpl; [done|].
  rewrite (H x) by (by left). f_equal. apply IH. intros y Hy. apply H. by right.
Qed.

Lemma emit_take (self : SetlistSolver) (limit : option Z) (paths : list (list nat)) :
  emit self limit 0 paths
  = match limit with
    | None => emit self None 0 paths
    | Some k => take (Z.to_nat k) (emit self None 0 paths)
    end.
Proof. destruct limit as [k|]; [|done]. by rewrite emit_limit, Z.sub_0_r. Qed.

Section Yielded.
Variable self : SetlistSolver.
Hypothesis Hself : constructed self.

(** The validator drops nothing: without a limit the loop yields the
    names of every path of the search. *)
Lemma emit_all_paths (start_team end_team : option string) :
  emit self None 0
    (_backtrack_with_end (team_count self) (adj_r self) (node_r self start_team)
       (node_r self end_team))
  = map (names_of self)
      (_backtrack_with_end (team_count self) (adj_r self) (node_r self start_team)
         (node_r self end_team)).
Proof.
  rewrite emit_no_limit. apply list_filter_all.
  intros sq Hsq. apply list_elem_of_In, in_map_iff in Hsq as (p & <- & Hp).
  apply (validator_accepts_search self Hself start_team end_team).
  by apply list_elem_of_In.
Qed.

Lemma emitted_valid (limit : option Z) (start_team end_team : option string)
    (out : list (list string)) (sq : list string) :
  generate_valid_setlists self limit start_team end_team = inr out →
  sq ∈ out → valid_setlist self start_team end_team sq.
Proof.
  intros Hgen Hsq.
  destruct (generate_cases self limit start_team end_team)
    as [(_ & _ & msg & E)|[(_ & _ & msg & E)|(Hs & He & E)]]; try congruence.
  rewrite E in Hgen. injection Hgen as <-.
  pose proof (emit_Forall self limit
                (_backtrack_with_end (team_count self) (adj_r self)
                   (node_r self start_team) (node_r self end_team)) 0) as Hall.
  rewrite Forall_forall in Hall. destruct (Hall sq Hsq) as (_ & p & Hp & ->).
  apply valid_setlist_of_path; [done..|]. by apply search_of_solver_exact.
Qed.

Lemma emitted_NoDup (limit : option Z) (start_team end_team : option string)
    (out : list (list string)) :
  NoDup (teams self) →
  generate_valid_setlists self limit start_team end_team = inr out → NoDup out.
Proof.
  intros Hkeys Hgen.
  destruct (generate_cases self limit start_team end_team)
    as [(_ & _ & msg & E)|[(_ & _ & msg & E)|(Hs & He & E)]]; try congruence.
  rewrite E in Hgen. injection Hgen as <-.
  assert (Hall : NoDup (emit self None 0
            (_backtrack_with_end (team_count self) (adj_r self)
               (node_r self start_team) (node_r self end_team)))).
  { rewrite emit_no_limit. apply NoDup_list_filter.
    change (map ?f ?l) with (f <$> l). apply NoDup_fmap_2_strong.
    - intros p q Hp Hq. apply names_of_inj; [done..| |].
      + by apply search_of_solver_exact in Hp as (_ & _ & Hlt & _).
      + by apply search_of_solver_exact in Hq as (_ & _ & Hlt & _).
    - apply backtrack_NoDup.
      + apply Hself.
      + by apply adj_r_below.
      + intros r Hr. by eapply node_r_lt. }
  rewrite emit_take. destruct limit as [k|]; [|done].
  eapply sublist_NoDup; [exact Hall|apply sublist_take].
Qed.
End Yielded.

(** ** Setlists read backwards *)

Lemma no_shared_member_reverse (t2m : list (string * gset string)) (sq : list string) :
  no_shared_member t2m sq → no_shared_member t2m (reverse sq).
Proof.
  intros H k a b Ha Hb.
  apply reverse_lookup_Some in Ha as [Ha Hka], Hb as [Hb Hkb].
  symmetry. apply (H (length sq - S (S k))%nat); [done|].
  by replace (S (length sq - S (S k))) with (length sq - S k)%nat by lia.
Qed.

Lemma valid_setlist_reverse (self : SetlistSolver) (start_team end_team : option string)
    (sq : list string) :
  valid_setlist self start_team end_team sq →
  valid_setlist self end_team start_team (reverse sq).
Proof.
  intros (Hperm & Hvalid & Hhead & Hlast). unfold valid_setlist. split_and!.
  - by rewrite reverse_Permutation.
  - by apply no_shared_member_reverse.
  - intros name Hn Hne. rewrite head_reverse. by apply Hlast.
  - intros name Hn Hne. rewrite last_reverse. by apply Hhead.
Qed.

(** ** Masks given as numbers *)

Lemma mask_below_bound (n : nat) (m : Z) :
  (0 ≤ m < 2 ^ Z.of_nat n)%Z → mask_below n m.
Proof.
  intros [Hm Hlt]. split; [done|]. intros c Hc.
  destruct (decide (c < n)%nat) as [|Hge]; [done|].
  destruct (Z.eq_dec m 0%Z) as [->|Hne]; [by rewrite Z.bits_0 in Hc|].
  rewrite Z.bits_above_log2 in Hc; [done|lia|].
  apply Z.log2_lt_pow2; [lia|].
  eapply Z.lt_le_trans; [exact Hlt|]. apply Z.pow_le_mono_r; lia.
Qed.

Lemma lookup_total_mask_below (n : nat) (l : list Z) :
  (0 < n)%nat → Forall (mask_below n) l → ∀ i, mask_below n (l !!! i).
Proof.
  intros Hn Hl i. rewrite list_lookup_total_alt.
  destruct (l !! i) as [m|] eqn:E; simpl.
  - by eapply Forall_lookup_1.
  - apply mask_below_bound. split; [done|].
    change 1%Z with (2 ^ 0)%Z. apply Z.pow_lt_mono_r; lia.
Qed.

Lemma scenario_adj_below : ∀ i, mask_below 4 (scenario_adj !!! i).
Proof.
  apply lookup_total_mask_below; [lia|].
  unfold scenario_adj.
  repeat (apply Forall_cons; split; [apply mask_below_bound; simpl; lia|]).
  constructor.
Qed.

(** ** The masks of the solver *)

Lemma compatibility_mask_nonneg (t2m : list (string * gset string)) (tms : list string)
    (i : nat) (members_i : gset string) :
  (0 ≤ compatibility_mask t2m tms i members_i)%Z.
Proof.
  unfold compatibility_mask.
  assert (Hgen : ∀ (js : list (nat * string)) (m : Z), (0 ≤ m)%Z →
            (0 ≤ foldl (λ mask '(j, team_j),
                          if decide (i = j) then mask
                          else if decide (members_of t2m team_j ## members_i)
                               then Z.lor mask (bit j)
                               else mask) m js)%Z).
  { induction js as [|[j team_j] js IH]; intros m Hm; simpl; [done|].
    apply IH. destruct (decide (i = j)); [done|].
    destruct (decide (_ ## _)); [|done].
    apply Z.lor_nonneg. pose proof (bit_pos j). lia. }
  by apply Hgen.
Qed.

Lemma adjacency_masks_below (self : SetlistSolver) (i : nat) :
  constructed self → (i < team_count self)%nat →
  mask_below (team_count self) (adjacency_masks self !!! i).
Proof.
  intros Hself Hi. pose proof Hself as (_ & Hn & _).
  destruct (lookup_lt_is_Some_2 (teams self) i) as [team_i Hti]; [lia|].
  rewrite (adjacency_masks_lookup self i team_i) by done. split.
  - apply compatibility_mask_nonneg.
  - intros c Hc. apply compatibility_mask_testbit in Hc as (t & Ht & _).
    rewrite Hn. by eapply lookup_lt_Some.
Qed.

Lemma init_teams_to_members (raw : list (string * gset string)) (self : SetlistSolver) :
  __init__ raw = inr self → teams_to_members self = sanitized raw.
Proof. destruct raw as [|kv raw']; [done|]. by intros [= <-]. Qed.

Lemma members_of_init (raw : list (string * gset string)) (self : SetlistSolver)
    (i : nat) (team : string) (members : gset string) :
  NoDup (map fst raw) → __init__ raw = inr self → raw !! i = Some (team, members) →
  teams self !! i = Some team
  ∧ members_of (teams_to_members self) team = set_map (D := gset string) strip members.
Proof.
  intros Hkeys Hinit Hi. split.
  - rewrite (init_teams raw self Hinit). change (map fst raw) with (fst <$> raw).
    by rewrite list_lookup_fmap, Hi.
  - unfold members_of. rewrite (init_teams_to_members raw self Hinit).
    by rewrite dict_get_sanitized, (dict_get_lookup _ i team members Hkeys Hi).
Qed.

(** * Properties of the search, the ranking and the queries *)

Lemma coherent_scenario_state : coherent 4 scenario_state.
Proof.
  change scenario_state with (push 0 fresh).
  apply coherent_push; [apply coherent_fresh|lia|done].
Qed.

Lemma head_last_distinct (p : list nat) (r : nat) :
  NoDup p → (2 ≤ length p)%nat → head p = Some r → last p = Some r → False.
Proof.
  intros Hnd Hlen Hh Hl. destruct p as [|x p]; [done|]. simpl in Hh. injection Hh as ->.
  destruct p as [|y p]; [simpl in Hlen; lia|].
  apply NoDup_cons in Hnd as [Hr _]. apply Hr.
  change (r :: y :: p) with ([r] ++ y :: p) in Hl. rewrite last_app_cons in Hl.
  apply last_Some in Hl as [l' ->]. apply elem_of_app. right. by left.
Qed.

Lemma no_elements {A : Type} (l : list A) : (∀ x, x ∉ l) → l = [].
Proof. destruct l as [|x l]; [done|]. intros H. destruct (H x). by left. Qed.

(** X1. [_backtrack_with_end] yields the Hamiltonian paths of the graph
    of masks that begin with the start node and end with the end node,
    where these are given, and nothing else. *)
Theorem X1_search_yields_hamiltonian_paths (n : nat) (adj : list Z)
    (start_node_r end_node_r : option nat) (p : list nat) :
  (0 < n)%nat →
  (∀ i, mask_below n (adj !!! i)) →
  (∀ s, start_node_r = Some s → (s < n)%nat) →
  p ∈ _backtrack_with_end n adj start_node_r end_node_r
  ↔ hamiltonian n adj start_node_r end_node_r p.
Proof.
  intros Hn Hadj Hstart.
  destruct (solve_exact n adj start_node_r end_node_r Hn Hadj Hstart (S n) fresh
              (coherent_fresh n)) as (out & Hout & Hin); [simpl; lia..|].
  unfold _backtrack_with_end. rewrite Hout, Hin.
  by apply extension_fresh.
Qed.

Lemma witness_X1_scenario :
  [0; 1; 2; 3]%nat ∈ _backtrack_with_end 4 scenario_adj None (Some 3%nat)
  ↔ hamiltonian 4 scenario_adj None (Some 3%nat) [0; 1; 2; 3]%nat.
Proof.
  apply (X1_search_yields_hamiltonian_paths 4 scenario_adj None (Some 3%nat)).
  - lia.
  - exact scenario_adj_below.
  - intros s Hs. discriminate Hs.
Defined.

(** X2. [_backtrack_with_end] yields no path twice. *)
Theorem X2_search_yields_each_path_once (n : nat) (adj : list Z)
    (start_node_r end_node_r : option nat) :
  (0 < n)%nat →
  (∀ i, mask_below n (adj !!! i)) →
  (∀ s, start_node_r = Some s → (s < n)%nat) →
  NoDup (_backtrack_with_end n adj start_node_r end_node_r).
Proof.
  intros Hn Hadj Hstart.
  destruct (solve_NoDup n adj start_node_r end_node_r Hn Hadj Hstart (S n) fresh
              (coherent_fresh n)) as (out & Hout & Hnd & _); [simpl; lia..|].
  unfold _backtrack_with_end. by rewrite Hout.
Qed.

Lemma witness_X2_scenario :
  NoDup (_backtrack_with_end 4 scenario_adj (Some 0%nat) (Some 3%nat)).
Proof.
  apply (X2_search_yields_each_path_once 4 scenario_adj (Some 0%nat) (Some 3%nat)).
  - lia.
  - exact scenario_adj_below.
  - intros s Hs. injection Hs as <-. lia.
Defined.

(** X3. A call of [solve] in the middle of the search, with [path] and
    [used_mask] in step, returns and leaves both as it found them: what
    the loop appends and marks it removes and unmarks again. *)
Theorem X3_solve_restores_state (n : nat) (adj : list Z)
    (start_node_r end_node_r : option nat) (depth : nat) (st : SearchState) :
  (0 < n)%nat →
  (∀ i, mask_below n (adj !!! i)) →
  (∀ s, start_node_r = Some s → (s < n)%nat) →
  coherent n st →
  (length (path st) ≤ n)%nat →
  (n < length (path st) + depth)%nat →
  ∃ out, solve n adj start_node_r end_node_r depth st = Some (out, st).
Proof.
  intros Hn Hadj Hstart Hst Hle Hfuel.
  destruct (solve_spec n adj start_node_r end_node_r Hn Hadj Hstart depth st Hst Hle Hfuel)
    as (out & Hout & _).
  by exists out.
Qed.

Lemma witness_X3_scenario :
  ∃ out, solve 4 scenario_adj None (Some 3%nat) 4 scenario_state
         = Some (out, scenario_state).
Proof.
  apply (X3_solve_restores_state 4 scenario_adj None (Some 3%nat) 4 scenario_state).
  - lia.
  - exact scenario_adj_below.
  - intros s Hs. discriminate Hs.
  - exact coherent_scenario_state.
  - simpl. lia.
  - simpl. lia.
Defined.

(** X4. [idx_to_rank] and [ranked_indices] are inverse to each other, and
    the reindexed masks hold the relation of the masks of the solver: bit
    [idx_to_rank[j]] of [adj_r[idx_to_rank[i]]] is bit [j] of
    [adjacency_masks[i]]. *)
Theorem X4_reindexing_keeps_adjacency (raw : list (string * gset string))
    (self : SetlistSolver) (i j : nat) :
  __init__ raw = inr self →
  (i < team_count self)%nat → (j < team_count self)%nat →
  ranked_indices self !! rank_of self i = Some i
  ∧ (rank_of self i < team_count self)%nat
  ∧ Z.testbit (adj_r self !!! rank_of self i) (Z.of_nat (rank_of self j))
    = Z.testbit (adjacency_masks self !!! i) (Z.of_nat j).
Proof.
  intros Hinit Hi Hj. pose proof (init_constructed raw self Hinit) as Hself.
  split_and!.
  - by apply ranked_rank_of.
  - by apply rank_of_lt.
  - by apply adj_r_testbit.
Qed.

Lemma witness_X4_scenario :
  ranked_indices (solver_of scenario_abc) !! rank_of (solver_of scenario_abc) 1 = Some 1%nat
  ∧ (rank_of (solver_of scenario_abc) 1 < team_count (solver_of scenario_abc))%nat
  ∧ Z.testbit (adj_r (solver_of scenario_abc) !!! rank_of (solver_of scenario_abc) 1)
      (Z.of_nat (rank_of (solver_of scenario_abc) 2))
    = Z.testbit (adjacency_masks (solver_of scenario_abc) !!! 1%nat) (Z.of_nat 2).
Proof.
  apply (X4_reindexing_keeps_adjacency scenario_abc (solver_of scenario_abc) 1 2).
  - reflexivity.
  - vm_compute. lia.
  - vm_compute. lia.
Defined.

(** X5. On a constructed solver the validator drops no candidate: what a
    call yields are the names of the paths of the search, all of them
    without a limit and the first [k] with limit [k]. *)
Theorem X5_validator_drops_nothing (raw : list (string * gset string))
    (self : SetlistSolver) (limit : option Z) (start_team end_team : option string)
    (out : list (list string)) :
  __init__ raw = inr self →
  generate_valid_setlists self limit start_team end_team = inr out →
  out = match limit with
        | None => λ l, l
        | Some k => take (Z.to_nat k)
        end (map (names_of self)
               (_backtrack_with_end (team_count self) (adj_r self)
                  (node_r self start_team) (node_r self end_team))).
Proof.
  intros Hinit Hgen. pose proof (init_constructed raw self Hinit) as Hself.
  destruct (generate_cases self limit start_team end_team)
    as [(_ & _ & msg & E)|[(_ & _ & msg & E)|(_ & _ & E)]]; try congruence.
  rewrite E in Hgen. injection Hgen as <-.
  rewrite emit_take, emit_all_paths by done. by destruct limit.
Qed.

Lemma witness_X5_scenario :
  [["a"; "b"; "c"]]%string
  = take (Z.to_nat 1)
      (map (names_of (solver_of scenario_abc))
         (_backtrack_with_end (team_count (solver_of scenario_abc))
            (adj_r (solver_of scenario_abc))
            (node_r (solver_of scenario_abc) None) (node_r (solver_of scenario_abc) None))).
Proof.
  apply (X5_validator_drops_nothing scenario_abc (solver_of scenario_abc) (Some 1%Z)
           None None).
  - reflexivity.
  - vm_compute. reflexivity.
Defined.

(** X6. Without a limit, a call that does not raise yields exactly the
    valid setlists: the orders of all the teams in which no two
    neighbours share a member and which begin and end as asked. *)
Theorem X6_yields_exactly_the_valid_setlists (raw : list (string * gset string))
    (self : SetlistSolver) (start_team end_team : option string)
    (out : list (list string)) (sq : list string) :
  NoDup (map fst raw) →
  __init__ raw = inr self →
  generate_valid_setlists self None start_team end_team = inr out →
  sq ∈ out ↔ valid_setlist self start_team end_team sq.
Proof.
  intros Hkeys Hinit Hgen. pose proof (init_constructed raw self Hinit) as Hself.
  apply emitted_iff; [done| |done]. by rewrite (init_teams raw self Hinit).
Qed.

Lemma NoDup_scenario_abc : NoDup (map fst scenario_abc).
Proof. apply (bool_decide_unpack (NoDup (map fst scenario_abc))). vm_compute. exact I. Qed.

Lemma witness_X6_scenario :
  ["c"; "b"; "a"]%string ∈ [["a"; "b"; "c"]; ["c"; "b"; "a"]]%string
  ↔ valid_setlist (solver_of scenario_abc) None None ["c"; "b"; "a"]%string.
Proof.
  apply (X6_yields_exactly_the_valid_setlists scenario_abc (solver_of scenario_abc)
           None None).
  - exact NoDup_scenario_abc.
  - reflexivity.
  - vm_compute. reflexivity.
Defined.

(** X7. A call yields no setlist twice, whatever the limit. *)
Theorem X7_no_setlist_twice (raw : list (string * gset string))
    (self : SetlistSolver) (limit : option Z) (start_team end_team : option string)
    (out : list (list string)) :
  NoDup (map fst raw) →
  __init__ raw = inr self →
  generate_valid_setlists self limit start_team end_team = inr out →
  NoDup out.
Proof.
  intros Hkeys Hinit Hgen. pose proof (init_constructed raw self Hinit) as Hself.
  eapply emitted_NoDup; [done| |done]. by rewrite (init_teams raw self Hinit).
Qed.

Lemma witness_X7_scenario : NoDup [["a"; "b"; "c"]; ["c"; "b"; "a"]]%string.
Proof.
  apply (X7_no_setlist_twice scenario_abc (solver_of scenario_abc) None None None).
  - exact NoDup_scenario_abc.
  - reflexivity.
  - vm_compute. reflexivity.
Defined.

(** X8. Reading backwards: a setlist is yielded for a start and an end
    exactly when its reversal is yielded for that end as start and that
    start as end; without constraints the reversal of every setlist
    yielded is yielded too. *)
Theorem X8_reversal (raw : list (string * gset string)) (self : SetlistSolver)
    (start_team end_team : option string) (out out' : list (list string))
    (sq : list string) :
  NoDup (map fst raw) →
  __init__ raw = inr self →
  generate_valid_setlists self None start_team end_team = inr out →
  generate_valid_setlists self None end_team start_team = inr out' →
  sq ∈ out ↔ reverse sq ∈ out'.
Proof.
  intros Hkeys Hinit Hgen Hgen'. pose proof (init_constructed raw self Hinit) as Hself.
  assert (Hnd : NoDup (teams self)) by (by rewrite (init_teams raw self Hinit)).
  rewrite (emitted_iff self Hself _ _ out sq Hnd Hgen).
  rewrite (emitted_iff self Hself _ _ out' (reverse sq) Hnd Hgen').
  split; [apply valid_setlist_reverse|].
  intros H%valid_setlist_reverse. by rewrite reverse_involutive in H.
Qed.

Lemma witness_X8_scenario :
  ["a"; "b"; "c"]%string ∈ [["a"; "b"; "c"]%string]
  ↔ reverse ["a"; "b"; "c"]%string ∈ [["c"; "b"; "a"]%string].
Proof.
  apply (X8_reversal scenario_abc (solver_of scenario_abc) (Some "a"%string) None).
  - exact NoDup_scenario_abc.
  - reflexivity.
  - vm_compute. reflexivity.
  - vm_compute. reflexivity.
Defined.

(** X9. With two teams or more, the same team given as start and as end
    leaves nothing to yield. *)
Theorem X9_same_start_and_end (raw : list (string * gset string))
    (self : SetlistSolver) (limit : option Z) (name : string) :
  __init__ raw = inr self →
  (2 ≤ length raw)%nat →
  name ≠ EmptyString →
  name ∈ map fst raw →
  generate_valid_setlists self limit (Some name) (Some name) = inr [].
Proof.
  intros Hinit Hlen Hne Hin. pose proof (init_constructed raw self Hinit) as Hself.
  rewrite <- (init_teams raw self Hinit) in Hin.
  assert (Hcount : team_count self = length raw).
  { destruct Hself as (_ & -> & _).
    by rewrite (init_teams raw self Hinit), length_map. }
  destruct (generate_cases self limit (Some name) (Some name))
    as [(_ & Hm & _)|[(_ & Hm & _)|(_ & _ & E)]].
  - rewrite not_a_team_spec, bool_decide_eq_true_2 in Hm by done. done.
  - rewrite not_a_team_spec, bool_decide_eq_true_2 in Hm by done. done.
  - rewrite E. f_equal. apply no_elements. intros sq Hsq.
    pose proof (emit_Forall self limit
                  (_backtrack_with_end (team_count self) (adj_r self)
                     (node_r self (Some name)) (node_r self (Some name))) 0) as Hall.
    rewrite Forall_forall in Hall. destruct (Hall sq Hsq) as (_ & p & Hp & _).
    apply search_of_solver_exact in Hp as (Hl & Hnd & _ & _ & Hhead & Hlast); [|done].
    apply (head_last_distinct p (node_of_team self name)); [done|lia| |].
    + apply Hhead. by apply node_r_nonempty.
    + apply Hlast. by apply node_r_nonempty.
Qed.

Lemma witness_X9_scenario :
  generate_valid_setlists (solver_of scenario_abc) None (Some "b"%string) (Some "b"%string)
  = inr [].
Proof.
  apply (X9_same_start_and_end scenario_abc (solver_of scenario_abc) None "b"%string).
  - reflexivity.
  - simpl. lia.
  - discriminate.
  - apply (bool_decide_unpack ("b"%string ∈ map fst scenario_abc)). vm_compute. exact I.
Defined.

Lemma init_team_count (raw : list (string * gset string)) (self : SetlistSolver) :
  __init__ raw = inr self → team_count self = length raw.
Proof.
  intros Hinit. destruct (init_constructed raw self Hinit) as (_ & -> & _).
  by rewrite (init_teams raw self Hinit), length_map.
Qed.

(** X10. With two teams or more, when one team shares a member with
    every other team nothing is yielded: it has no place in a setlist. *)
Theorem X10_team_in_conflict_with_all (raw : list (string * gset string))
    (self : SetlistSolver) (limit : option Z) (start_team end_team : option string)
    (team : string) :
  NoDup (map fst raw) →
  __init__ raw = inr self →
  (2 ≤ length raw)%nat →
  team ∈ map fst raw →
  (∀ other, other ∈ map fst raw → other ≠ team →
     ¬ members_of (teams_to_members self) team ## members_of (teams_to_members self) other) →
  generate_valid_setlists self limit start_team end_team
  = match generate_valid_setlists self limit start_team end_team with
    | inl err => inl err
    | inr _ => inr []
    end.
Proof.
  intros Hkeys Hinit Hlen Hteam Hclash.
  destruct (generate_valid_setlists self limit start_team end_team) as [err|out] eqn:Hgen;
    [done|].
  f_equal.
  pose proof (init_constructed raw self Hinit) as Hself.
  rewrite <- (init_teams raw self Hinit) in Hkeys, Hteam, Hclash.
  apply no_elements. intros sq Hsq.
  destruct (emitted_valid self Hself limit start_team end_team out sq Hgen Hsq)
    as (Hperm & Hvalid & _).
  assert (Hsqlen : length sq = length raw).
  { by rewrite Hperm, (init_teams raw self Hinit), length_map. }
  assert (Hnd : NoDup sq) by (by rewrite Hperm).
  rewrite <- Hperm in Hteam. apply list_elem_of_lookup in Hteam as [k Hk].
  pose proof (lookup_lt_Some _ _ _ Hk) as Hklt.
  destruct (decide (S k < length sq)%nat) as [Hnext|Hlast].
  - destruct (lookup_lt_is_Some_2 sq (S k) Hnext) as [other Ho].
    apply (Hclash other).
    + rewrite <- Hperm. by eapply list_elem_of_lookup_2.
    + intros ->. pose proof (NoDup_lookup _ _ _ _ Hnd Hk Ho). lia.
    + by apply (Hvalid k).
  - destruct k as [|k]; [lia|].
    destruct (lookup_lt_is_Some_2 sq k ltac:(lia)) as [other Ho].
    apply (Hclash other).
    + rewrite <- Hperm. by eapply list_elem_of_lookup_2.
    + intros ->. pose proof (NoDup_lookup _ _ _ _ Hnd Hk Ho). lia.
    + symmetry. by apply (Hvalid k).
Qed.

Lemma witness_X10_scenario :
  generate_valid_setlists (solver_of scenario_clash) None None None = inr [].
Proof.
  apply (X10_team_in_conflict_with_all scenario_clash (solver_of scenario_clash)
           None None None "a"%string).
  - apply (bool_decide_unpack (NoDup (map fst scenario_clash))). vm_compute. exact I.
  - reflexivity.
  - simpl. lia.
  - apply (bool_decide_unpack ("a"%string ∈ map fst scenario_clash)). vm_compute. exact I.
  - intros other Hother Hne.
    simpl in Hother. apply elem_of_cons in Hother as [->|Hother]; [done|].
    apply list_elem_of_singleton in Hother as ->.
    apply (bool_decide_unpack
             (¬ members_of (teams_to_members (solver_of scenario_clash)) "a"%string
                ## members_of (teams_to_members (solver_of scenario_clash)) "b"%string)).
    vm_compute. exact I.
Defined.

(** X11. The ranking lists the indices by ascending degree, and indices
    of equal degree in their order in the input. *)
Theorem X11_ranking_order (self : SetlistSolver) (r1 r2 i j : nat) :
  (r1 < r2)%nat →
  ranked_indices self !! r1 = Some i →
  ranked_indices self !! r2 = Some j →
  (degree self i < degree self j)%nat ∨ (degree self i = degree self j ∧ (i < j)%nat).
Proof.
  intros Hr Hi Hj.
  apply (StronglySorted_lookup
           (λ a b, (degree self a < degree self b
                    ∨ (degree self a = degree self b ∧ a < b))%nat)
           (ranked_indices self) r1 r2 i j); [|done..].
  apply (sorted_StronglySorted (degree self)), StronglySorted_seq.
Qed.

Lemma witness_X11_scenario :
  (degree (solver_of scenario_abc) 0 < degree (solver_of scenario_abc) 2)%nat
  ∨ (degree (solver_of scenario_abc) 0 = degree (solver_of scenario_abc) 2 ∧ (0 < 2)%nat).
Proof.
  apply (X11_ranking_order (solver_of scenario_abc) 0 1 0 2).
  - lia.
  - vm_compute. reflexivity.
  - vm_compute. reflexivity.
Defined.

(** X12. The loop over the lowest bit lists the bits of a mask that is
    not negative: each of them, in ascending order, none twice. *)
Theorem X12_lowbits_lists_the_bits (x : Z) :
  (0 ≤ x)%Z →
  StronglySorted lt (lowbits x)
  ∧ ∀ c : nat, c ∈ lowbits x ↔ Z.testbit x (Z.of_nat c) = true.
Proof.
  intros Hx. split; [by apply lowbits_StronglySorted|].
  intros c. by apply elem_of_lowbits.
Qed.

Lemma witness_X12_scenario :
  StronglySorted lt (lowbits 22)
  ∧ ∀ c : nat, c ∈ lowbits 22 ↔ Z.testbit 22 (Z.of_nat c) = true.
Proof. apply (X12_lowbits_lists_the_bits 22). lia. Defined.

(** X13. The key of both sorts, [bin(mask).count("1")], is the number of
    bits of the mask: the number of candidates that the loop over the
    lowest bit gives. *)
Theorem X13_bin_count1_counts_bits (m : Z) :
  (0 ≤ m)%Z → bin_count1 m = length (lowbits m).
Proof.
  intros Hm. rewrite lowbits_filter by done.
  destruct m as [|p|p]; [done| |lia].
  symmetry. apply pos_count1_filter. intros j Hj.
  by apply testbit_below_size in Hj.
Qed.

Lemma witness_X13_scenario : bin_count1 13 = length (lowbits 13).
Proof. apply (X13_bin_count1_counts_bits 13). lia. Defined.

(** X14. A limit of zero or less yields nothing; the call raises as the
    call without a limit does. *)
Theorem X14_limit_not_positive (self : SetlistSolver) (k : Z)
    (start_team end_team : option string) :
  (k ≤ 0)%Z →
  generate_valid_setlists self (Some k) start_team end_team
  = match generate_valid_setlists self None start_team end_team with
    | inl err => inl err
    | inr _ => inr []
    end.
Proof.
  intros Hk. unfold generate_valid_setlists.
  destruct (truthy start_team && not_a_team self start_team); [done|].
  destruct (truthy end_team && not_a_team self end_team); [done|].
  rewrite emit_limit. by replace (Z.to_nat (k - 0)) with 0%nat by lia.
Qed.

Lemma witness_X14_scenario :
  generate_valid_setlists (solver_of scenario_abc) (Some (-3)%Z) None None = inr [].
Proof. apply (X14_limit_not_positive (solver_of scenario_abc) (-3) None None). lia. Defined.

(** X15. A limit that is not below the number of setlists changes
    nothing. *)
Theorem X15_limit_not_reached (self : SetlistSolver) (k : Z)
    (start_team end_team : option string) (out : list (list string)) :
  generate_valid_setlists self None start_team end_team = inr out →
  (Z.of_nat (length out) ≤ k)%Z →
  generate_valid_setlists self (Some k) start_team end_team = inr out.
Proof.
  unfold generate_valid_setlists.
  destruct (truthy start_team && not_a_team self start_team); [done|].
  destruct (truthy end_team && not_a_team self end_team); [done|].
  intros [= <-] Hk. rewrite emit_limit. f_equal. apply take_ge. lia.
Qed.

Lemma witness_X15_scenario :
  generate_valid_setlists (solver_of scenario_abc) (Some 2%Z) None None
  = inr [["a"; "b"; "c"]; ["c"; "b"; "a"]]%string.
Proof.
  apply (X15_limit_not_reached (solver_of scenario_abc) 2 None None).
  - vm_compute. reflexivity.
  - simpl. lia.
Defined.

(** X16. Every member name that the solver keeps is stripped: stripping
    it again gives it back. *)
Theorem X16_members_are_stripped (raw : list (string * gset string))
    (self : SetlistSolver) (team member : string) :
  __init__ raw = inr self →
  member ∈ members_of (teams_to_members self) team →
  strip member = member.
Proof.
  intros Hinit. unfold members_of.
  rewrite (init_teams_to_members raw self Hinit), dict_get_sanitized.
  destruct (dict_get raw team) as [members|]; simpl.
  - intros (x & -> & _)%elem_of_map. apply strip_idemp.
  - intros H. by apply elem_of_empty in H.
Qed.

Lemma witness_X16_scenario : strip "x" = "x"%string.
Proof.
  apply (X16_members_are_stripped scenario_spaces (solver_of scenario_spaces) "b"%string).
  - reflexivity.
  - apply (bool_decide_unpack
             ("x"%string ∈ members_of (teams_to_members (solver_of scenario_spaces))
                                      "b"%string)).
    vm_compute. exact I.
Defined.

(** X17. [team_to_idx] maps a team name to its position in [teams] and
    nothing else: it is the inverse of reading [teams] at an index. *)
Theorem X17_team_to_idx_inverts_teams (raw : list (string * gset string))
    (self : SetlistSolver) (name : string) (i : nat) :
  NoDup (map fst raw) →
  __init__ raw = inr self →
  dict_get (team_to_idx self) name = Some i ↔ teams self !! i = Some name.
Proof.
  intros Hkeys Hinit. pose proof (init_constructed raw self Hinit) as Hself.
  rewrite <- (init_teams raw self Hinit) in Hkeys.
  destruct (decide (name ∈ teams self)) as [Hin|Hnot].
  - destruct (team_to_idx_lookup self Hself name Hin) as (i' & Hget & Hi').
    rewrite Hget. split.
    + by intros [= <-].
    + intros Hi. f_equal. by eapply NoDup_lookup.
  - split.
    + intros Hget. exfalso.
      assert (Hmem : dict_mem (team_to_idx self) name = true).
      { unfold dict_mem. by rewrite Hget. }
      destruct Hself as (_ & _ & _ & Hidx & _). rewrite Hidx in Hmem.
      rewrite dict_mem_positions in Hmem. by apply bool_decide_eq_true in Hmem.
    + intros Hi. destruct Hnot. by eapply list_elem_of_lookup_2.
Qed.

Lemma witness_X17_scenario :
  dict_get (team_to_idx (solver_of scenario_abc)) "b"%string = Some 1%nat
  ↔ teams (solver_of scenario_abc) !! 1%nat = Some "b"%string.
Proof.
  apply (X17_team_to_idx_inverts_teams scenario_abc (solver_of scenario_abc)).
  - exact NoDup_scenario_abc.
  - reflexivity.
Defined.

(** X18. For two different teams of the solver, [explain_pair] says that
    they are compatible exactly when the bit of the one is set in the
    mask of the other, and exactly when the validator accepts the two in
    a row. *)
Theorem X18_explain_pair_agrees_with_graph (raw : list (string * gset string))
    (self : SetlistSolver) (i j : nat) (team_a team_b : string) :
  __init__ raw = inr self →
  teams self !! i = Some team_a →
  teams self !! j = Some team_b →
  i ≠ j →
  (explain_pair self team_a team_b = Printed (Compatible team_a team_b)
   ↔ Z.testbit (adjacency_masks self !!! i) (Z.of_nat j) = true)
  ∧ (explain_pair self team_a team_b = Printed (Compatible team_a team_b)
     ↔ _sequence_is_valid (teams_to_members self) [team_a; team_b] = (true, None)).
Proof.
  intros Hinit Hi Hj Hne. pose proof (init_constructed raw self Hinit) as Hself.
  assert (Hkey : ∀ k t, teams self !! k = Some t →
            ∃ ms, dict_get (teams_to_members self) t = Some ms
                  ∧ members_of (teams_to_members self) t = ms).
  { intros k t Hk.
    destruct (dict_get (teams_to_members self) t) as [ms|] eqn:E.
    - exists ms. split; [done|]. unfold members_of. by rewrite E.
    - apply dict_get_None in E. destruct E.
      destruct Hself as (<- & _). by eapply list_elem_of_lookup_2. }
  destruct (Hkey i team_a Hi) as (ma & Hma & Hma').
  destruct (Hkey j team_b Hj) as (mb & Hmb & Hmb').
  assert (Hexp : explain_pair self team_a team_b = Printed (Compatible team_a team_b)
                 ↔ ma ## mb).
  { unfold explain_pair. rewrite Hma, Hmb. rewrite disjoint_intersection_L.
    destruct (decide (ma ∩ mb = ∅)); split; done. }
  split.
  - rewrite Hexp, (adjacency_testbit self i j team_a team_b Hself Hi Hj), Hma', Hmb'.
    split; [by split|by intros [_ ?]].
  - rewrite Hexp. simpl. rewrite Hma', Hmb', disjoint_intersection_L.
    destruct (decide (ma ∩ mb = ∅)); split; done.
Qed.

Lemma witness_X18_scenario :
  (explain_pair (solver_of scenario_abc) "a" "c" = Printed (Compatible "a" "c")
   ↔ Z.testbit (adjacency_masks (solver_of scenario_abc) !!! 0%nat) (Z.of_nat 2) = true)
  ∧ (explain_pair (solver_of scenario_abc) "a" "c" = Printed (Compatible "a" "c")
     ↔ _sequence_is_valid (teams_to_members (solver_of scenario_abc)) ["a"; "c"]%string
       = (true, None)).
Proof.
  apply (X18_explain_pair_agrees_with_graph scenario_abc (solver_of scenario_abc) 0 2).
  - reflexivity.
  - reflexivity.
  - reflexivity.
  - lia.
Defined.

(** X19. [explain_pair] fails with [KeyError] exactly when one of the two
    names is not a team, and the key of the error is the first of the two
    that is not. *)
Theorem X19_explain_pair_unknown_team (raw : list (string * gset string))
    (self : SetlistSolver) (team_a team_b : string) :
  __init__ raw = inr self →
  (explain_pair self team_a team_b = KeyError team_a ↔ team_a ∉ map fst raw)
  ∧ (team_a ∈ map fst raw →
     (explain_pair self team_a team_b = KeyError team_b ↔ team_b ∉ map fst raw))
  ∧ (team_a ∈ map fst raw → team_b ∈ map fst raw →
     ∃ line, explain_pair self team_a team_b = Printed line).
Proof.
  intros Hinit. pose proof (init_constructed raw self Hinit) as Hself.
  rewrite <- (init_teams raw self Hinit).
  destruct Hself as (Hteams & _). rewrite Hteams.
  unfold explain_pair. rewrite <- !dict_get_None.
  destruct (dict_get (teams_to_members self) team_a) as [ma|] eqn:Ha.
  - destruct (dict_get (teams_to_members self) team_b) as [mb|] eqn:Hb.
    + split_and!.
      * split; [by destruct (decide _)|done].
      * intros _. split; [by destruct (decide _)|done].
      * intros _ _. destruct (decide _); by eexists.
    + apply dict_get_None in Hb as Hb'. split_and!.
      * split; [|done]. intros [= Heq]. rewrite Heq in Hb. congruence.
      * done.
      * done.
  - apply dict_get_None in Ha as Ha'. by split_and!.
Qed.

Lemma witness_X19_scenario :
  (explain_pair (solver_of scenario_abc) "a" "d" = KeyError "a"
   ↔ "a"%string ∉ map fst scenario_abc)
  ∧ ("a"%string ∈ map fst scenario_abc →
     (explain_pair (solver_of scenario_abc) "a" "d" = KeyError "d"
      ↔ "d"%string ∉ map fst scenario_abc))
  ∧ ("a"%string ∈ map fst scenario_abc → "d"%string ∈ map fst scenario_abc →
     ∃ line, explain_pair (solver_of scenario_abc) "a" "d" = Printed line).
Proof.
  apply (X19_explain_pair_unknown_team scenario_abc (solver_of scenario_abc)).
  reflexivity.
Defined.

(** X20. A solver with one team yields that team alone, once, for every
    start and end for which the call does not raise. *)
Theorem X20_single_team (team : string) (members : gset string) (self : SetlistSolver)
    (start_team end_team : option string) :
  __init__ [(team, members)] = inr self →
  generate_valid_setlists self None start_team end_team
  = match generate_valid_setlists self None start_team end_team with
    | inl err => inl err
    | inr _ => inr [[team]]
    end.
Proof.
  intros Hinit.
  destruct (generate_valid_setlists self None start_team end_team) as [err|out] eqn:Hgen;
    [done|].
  f_equal. pose proof (init_constructed _ self Hinit) as Hself.
  pose proof (init_teams _ self Hinit) as Hteams. simpl in Hteams.
  assert (Hnd : NoDup (teams self)) by (rewrite Hteams; apply NoDup_singleton).
  pose proof (emitted_NoDup self Hself None start_team end_team out Hnd Hgen) as Hout.
  assert (Hall : ∀ sq, sq ∈ out ↔ sq = [team]).
  { intros sq. rewrite (emitted_iff self Hself _ _ out sq Hnd Hgen). split.
    - intros (Hperm & _). rewrite Hteams in Hperm. by apply Permutation_singleton_r.
    - intros ->.
      destruct (generate_cases self None start_team end_team)
        as [(_ & _ & msg & E)|[(_ & _ & msg & E)|(Hs & He & _)]]; try congruence.
      assert (Honly : ∀ t name, (truthy t = true → not_a_team self t = false) →
                t = Some name → name ≠ EmptyString → name = team).
      { intros t name Ht -> Hne. specialize (Ht (truthy_nonempty name Hne)).
        rewrite not_a_team_spec, Hteams in Ht by done.
        apply negb_false_iff, bool_decide_eq_true in Ht.
        by apply list_elem_of_singleton in Ht. }
      unfold valid_setlist. rewrite Hteams. split_and!; [done| | |].
      + intros [|k] a b Ha Hb; done.
      + intros name Hn Hne. simpl. f_equal. symmetry.
        exact (Honly start_team name Hs Hn Hne).
      + intros name Hn Hne. simpl. f_equal. symmetry.
        exact (Honly end_team name He Hn Hne). }
  destruct out as [|sq out].
  { pose proof (proj2 (Hall [team]) eq_refl) as H. by apply elem_of_nil in H. }
  pose proof (proj1 (Hall sq) ltac:(by left)) as ->.
  f_equal. apply no_elements. intros x Hx.
  apply NoDup_cons in Hout as [Hnot _]. apply Hnot.
  by rewrite (proj1 (Hall x) ltac:(by right)) in Hx.
Qed.

Lemma witness_X20_scenario :
  generate_valid_setlists (solver_of scenario_single) None (Some "a"%string) None
  = inr [["a"%string]].
Proof.
  apply (X20_single_team "a"%string {["x"%string]} (solver_of scenario_single)
           (Some "a"%string) None).
  reflexivity.
Defined.

(** X21. When the validator rejects a sequence it reports the first two
    neighbours that share a member, with all the members they share; the
    neighbours before them share none. *)
Theorem X21_validator_reports_first_conflict (t2m : list (string * gset string))
    (sq : list string) (a b : string) (overlap : gset string) :
  _sequence_is_valid t2m sq = (false, Some (a, b, overlap)) →
  ∃ k, sq !! k = Some a ∧ sq !! S k = Some b
       ∧ overlap = members_of t2m a ∩ members_of t2m b ∧ overlap ≠ ∅
       ∧ no_shared_member t2m (take (S k) sq).
Proof.
  induction sq as [|x sq IH]; [done|].
  destruct sq as [|y rest]; [done|].
  change (_sequence_is_valid t2m (x :: y :: rest))
    with (if decide (members_of t2m x ∩ members_of t2m y = ∅)
          then _sequence_is_valid t2m (y :: rest)
          else (false, Some (x, y, members_of t2m x ∩ members_of t2m y))).
  destruct (decide (members_of t2m x ∩ members_of t2m y = ∅)) as [Hd|Hd].
  - intros H. destruct (IH H) as (k & Ha & Hb & Ho & Hne & Hpre).
    exists (S k). split_and!; try done.
    change (take (S (S k)) (x :: y :: rest)) with (x :: take (S k) (y :: rest)).
    simpl take in *. apply no_shared_member_cons. split; [|done].
    by apply disjoint_intersection_L.
  - intros [= <- <- <-]. exists 0%nat. by split_and!.
Qed.

Lemma witness_X21_scenario :
  ∃ k, ["b"; "a"; "c"]%string !! k = Some "a"%string
       ∧ ["b"; "a"; "c"]%string !! S k = Some "c"%string
       ∧ members_of scenario_abc "a" ∩ members_of scenario_abc "c"
         = members_of scenario_abc "a" ∩ members_of scenario_abc "c"
       ∧ members_of scenario_abc "a" ∩ members_of scenario_abc "c" ≠ ∅
       ∧ no_shared_member scenario_abc (take (S k) ["b"; "a"; "c"]%string).
Proof.
  apply (X21_validator_reports_first_conflict scenario_abc ["b"; "a"; "c"]%string).
  reflexivity.
Defined.

(** X22. Constraints select: what a call with a start and an end yields
    are the setlists of the call without constraints that begin and end
    as asked. *)
Theorem X22_constraints_select (raw : list (string * gset string))
    (self : SetlistSolver) (start_team end_team : option string)
    (out all : list (list string)) (sq : list string) :
  NoDup (map fst raw) →
  __init__ raw = inr self →
  generate_valid_setlists self None start_team end_team = inr out →
  generate_valid_setlists self None None None = inr all →
  sq ∈ out ↔
  sq ∈ all
  ∧ (∀ name, start_team = Some name → name ≠ EmptyString → head sq = Some name)
  ∧ (∀ name, end_team = Some name → name ≠ EmptyString → last sq = Some name).
Proof.
  intros Hkeys Hinit Hgen Hall. pose proof (init_constructed raw self Hinit) as Hself.
  assert (Hnd : NoDup (teams self)) by (by rewrite (init_teams raw self Hinit)).
  rewrite (emitted_iff self Hself _ _ out sq Hnd Hgen).
  rewrite (emitted_iff self Hself _ _ all sq Hnd Hall).
  unfold valid_setlist. split.
  - intros (Hperm & Hvalid & Hhead & Hlast). by split_and!.
  - intros ((Hperm & Hvalid & _) & Hhead & Hlast). by split_and!.
Qed.

Lemma witness_X22_scenario :
  ["a"; "b"; "c"]%string ∈ [["a"; "b"; "c"]%string] ↔
  ["a"; "b"; "c"]%string ∈ [["a"; "b"; "c"]; ["c"; "b"; "a"]]%string
  ∧ (∀ name, Some "a"%string = Some name → name ≠ EmptyString →
             head ["a"; "b"; "c"]%string = Some name)
  ∧ (∀ name, @None string = Some name → name ≠ EmptyString →
             last ["a"; "b"; "c"]%string = Some name).
Proof.
  apply (X22_constraints_select scenario_abc (solver_of scenario_abc)
           (Some "a"%string) None).
  - exact NoDup_scenario_abc.
  - reflexivity.
  - vm_compute. reflexivity.
  - vm_compute. reflexivity.
Defined.

(** X23. The graph in terms of the input: bit [j] of the mask of team [i]
    is set exactly when [i] and [j] differ and the stripped member names
    of the two teams have nothing in common. *)
Theorem X23_adjacency_of_input (raw : list (string * gset string))
    (self : SetlistSolver) (i j : nat) (team_i team_j : string)
    (members_i members_j : gset string) :
  NoDup (map fst raw) →
  __init__ raw = inr self →
  raw !! i = Some (team_i, members_i) →
  raw !! j = Some (team_j, members_j) →
  Z.testbit (adjacency_masks self !!! i) (Z.of_nat j) = true ↔
  i ≠ j
  ∧ set_map (D := gset string) strip members_i ## set_map (D := gset string) strip members_j.
Proof.
  intros Hkeys Hinit Hi Hj. pose proof (init_constructed raw self Hinit) as Hself.
  destruct (members_of_init raw self i team_i members_i Hkeys Hinit Hi) as [Hti Hmi].
  destruct (members_of_init raw self j team_j members_j Hkeys Hinit Hj) as [Htj Hmj].
  by rewrite (adjacency_testbit self i j team_i team_j Hself Hti Htj), Hmi, Hmj.
Qed.

Lemma witness_X23_scenario :
  Z.testbit (adjacency_masks (solver_of scenario_spaces) !!! 0%nat) (Z.of_nat 1) = true ↔
  0%nat ≠ 1%nat
  ∧ set_map (D := gset string) strip ({[" x"%string]} : gset string)
    ## set_map (D := gset string) strip ({["x "%string]} : gset string).
Proof.
  apply (X23_adjacency_of_input scenario_spaces (solver_of scenario_spaces) 0 1
           "a"%string "b"%string).
  - apply (bool_decide_unpack (NoDup (map fst scenario_spaces))). vm_compute. exact I.
  - reflexivity.
  - reflexivity.
  - reflexivity.
Defined.

(** Blanks around a member name do not hide a conflict. *)
Example stripped_names_conflict :
  adjacency_masks (solver_of scenario_spaces) = [0; 0]%Z
  ∧ generate_valid_setlists (solver_of scenario_spaces) None None None = inr [].
Proof. vm_compute. done. Qed.

(** X24. There is one mask for each team; a mask is not negative and has
    no bit at the number of teams or above. *)
Theorem X24_adjacency_masks_shape (raw : list (string * gset string))
    (self : SetlistSolver) (i : nat) :
  __init__ raw = inr self →
  (i < length raw)%nat →
  length (adjacency_masks self) = length raw
  ∧ (0 ≤ adjacency_masks self !!! i < 2 ^ Z.of_nat (length raw))%Z.
Proof.
  intros Hinit Hi. pose proof (init_constructed raw self Hinit) as Hself.
  pose proof (init_team_count raw self Hinit) as Hn.
  split; [by rewrite length_adjacency_masks|].
  destruct (adjacency_masks_below self i Hself ltac:(lia)) as [Hpos Hbits].
  split; [done|].
  destruct (Z.eq_dec (adjacency_masks self !!! i) 0%Z) as [Hz|Hne].
  { rewrite Hz. apply Z.pow_pos_nonneg; lia. }
  apply Z.log2_lt_pow2; [lia|].
  assert (Hgt : (0 < adjacency_masks self !!! i)%Z) by lia.
  pose proof (Z.bit_log2 (adjacency_masks self !!! i) Hgt) as Hb.
  pose proof (Z.log2_nonneg (adjacency_masks self !!! i)).
  rewrite <- (Z2Nat.id (Z.log2 _)) in Hb by done. apply Hbits in Hb. lia.
Qed.

Lemma witness_X24_scenario :
  length (adjacency_masks (solver_of scenario_abc)) = length scenario_abc
  ∧ (0 ≤ adjacency_masks (solver_of scenario_abc) !!! 1%nat
       < 2 ^ Z.of_nat (length scenario_abc))%Z.
Proof.
  apply (X24_adjacency_masks_shape scenario_abc (solver_of scenario_abc) 1).
  - reflexivity.
  - simpl. lia.
Defined.

Lemma allowed_mask_nonneg (n : nat) (adj : list Z) (end_node_r : option nat)
    (st : SearchState) (allowed : Z) :
  (0 ≤ adj !!! path_last (path st))%Z →
  allowed_mask n adj end_node_r st = Some allowed → (0 ≤ allowed)%Z.
Proof.
  intros Hadj. unfold allowed_mask.
  assert (Hbase : (0 ≤ base_allowed adj st)%Z).
  { unfold base_allowed. apply Z.land_nonneg. by left. }
  destruct end_node_r as [e|]; [|by intros [= <-]].
  assert (Hres : (0 ≤ Z.land (base_allowed adj st) (Z.lnot (bit e)))%Z).
  { apply Z.land_nonneg. by left. }
  pose proof (bit_pos e).
  destruct (_ <? _)%Z, (_ =? _)%Z; try (intros [= <-]; done);
    destruct (bit_set _ e); intros [= <-]; lia.
Qed.

(** X25. After the first node the candidates are tried in ascending
    order of the number of nodes that would be left to go to from them,
    and candidates with the same number in ascending order of the node. *)
Theorem X25_candidates_order (n : nat) (adj : list Z)
    (start_node_r end_node_r : option nat) (st : SearchState) (cs : list nat)
    (r1 r2 a b : nat) :
  (0 < length (path st))%nat →
  (0 ≤ adj !!! path_last (path st))%Z →
  candidates n adj start_node_r end_node_r st = Some cs →
  (r1 < r2)%nat → cs !! r1 = Some a → cs !! r2 = Some b →
  (future_options adj st a < future_options adj st b)%nat
  ∨ (future_options adj st a = future_options adj st b ∧ (a < b)%nat).
Proof.
  intros HL Hadj. unfold candidates.
  destruct (Nat.eqb_spec (length (path st)) 0) as [?|_]; [lia|].
  destruct (allowed_mask n adj end_node_r st) as [allowed|] eqn:Ha; [|done].
  intros [= <-] Hr Hi Hj.
  apply (StronglySorted_lookup
           (λ x y, (future_options adj st x < future_options adj st y
                    ∨ (future_options adj st x = future_options adj st y ∧ x < y))%nat)
           (sorted (future_options adj st) (lowbits allowed)) r1 r2 a b); [|done..].
  apply (sorted_StronglySorted (future_options adj st)), lowbits_StronglySorted.
  by eapply allowed_mask_nonneg.
Qed.

Lemma witness_X25_scenario :
  (future_options scenario_adj scenario_state 1 < future_options scenario_adj scenario_state 2)%nat
  ∨ (future_options scenario_adj scenario_state 1 = future_options scenario_adj scenario_state 2
     ∧ (1 < 2)%nat).
Proof.
  apply (X25_candidates_order 4 scenario_adj None (Some 3%nat) scenario_state [1; 2]%nat
           0 1 1 2).
  - simpl. lia.
  - vm_compute. discriminate.
  - reflexivity.
  - lia.
  - reflexivity.
  - reflexivity.
Defined.

(** * The call with the reads of the interpreter *)

(** ** The reads of the call never fail *)

Lemma get_index_total {A : Type} `{Inhabited A} (l : list A) (i : nat) :
  (i < length l)%nat → get_index l i = inr (l !!! i).
Proof.
  intros Hi. unfold get_index.
  destruct (lookup_lt_is_Some_2 l i Hi) as [x Hx].
  by rewrite Hx, (list_lookup_total_correct l i x Hx).
Qed.

Lemma get_last_path (p : list nat) : p ≠ [] → get_last p = inr (path_last p).
Proof. intros Hp. unfold get_last. by rewrite (last_path_last p Hp). Qed.

Lemma map_checked_inr {A B : Type} (f : A → failure + B) (g : A → B) (l : list A) :
  (∀ x, x ∈ l → f x = inr (g x)) → map_checked f l = inr (map g l).
Proof.
  induction l as [|x l IH]; intros Hf; [done|]. simpl.
  rewrite (Hf x) by left. simpl. rewrite IH; [done|].
  intros y Hy. apply Hf. by right.
Qed.

Lemma foldl_checked_inr {A B : Type} (P : B → Prop) (f : B → A → failure + B)
    (g : B → A → B) (l : list A) :
  (∀ b x, P b → x ∈ l → f b x = inr (g b x) ∧ P (g b x)) →
  ∀ b, P b → foldl_checked f b l = inr (foldl g b l).
Proof.
  induction l as [|x l IH]; intros Hf b Hb; [done|]. simpl.
  destruct (Hf b x Hb) as [-> Hb']; [left|]. simpl.
  apply IH; [|done]. intros b' y HP Hy. apply Hf; [done|by right].
Qed.

Lemma insert_by_keyed {A : Type} (key : A → nat) (x : A) (ps : list (A * nat)) :
  Forall (λ p, snd p = key (fst p)) ps →
  map fst (insert_by snd (x, key x) ps) = insert_by key x (map fst ps).
Proof.
  induction ps as [|[y k] ps IH]; intros Hps; [done|].
  apply Forall_cons in Hps as [Hk Hps]. simpl in *. subst k.
  destruct (key x <=? key y)%nat; [done|]. simpl. by rewrite IH.
Qed.

Lemma sorted_keyed {A : Type} (key : A → nat) (l : list A) :
  Forall (λ p, snd p = key (fst p)) (sorted snd (zip l (map key l)))
  ∧ map fst (sorted snd (zip l (map key l))) = sorted key l.
Proof.
  induction l as [|x l [IH1 IH2]]; [by split|]. simpl. split.
  - rewrite insert_by_Permutation. by apply Forall_cons.
  - by rewrite insert_by_keyed, IH2.
Qed.

Lemma sorted_checked_inr {A : Type} (key : A → failure + nat) (key' : A → nat)
    (l : list A) :
  (∀ x, x ∈ l → key x = inr (key' x)) → sorted_checked key l = inr (sorted key' l).
Proof.
  intros Hkey. unfold sorted_checked.
  rewrite (map_checked_inr key key' l Hkey). simpl.
  by rewrite (proj2 (sorted_keyed key' l)).
Qed.

Lemma lowbits_checked_inr (x : Z) : (0 ≤ x)%Z → lowbits_checked x = inr (lowbits x).
Proof.
  intros Hx. unfold lowbits_checked.
  by destruct (Z.ltb_spec x 0); [lia|].
Qed.

Lemma for_candidates_restores
    (rec : SearchState → option (list (list nat) * SearchState)) :
  (∀ st out st', rec st = Some (out, st') → st' = st) →
  ∀ cs st out st', for_candidates rec cs st = Some (out, st') → st' = st.
Proof.
  intros Hrec cs. induction cs as [|c cs IH]; intros st out st' E; simpl in E.
  { by injection E as _ <-. }
  destruct (bit_set (used_mask st) c) eqn:Hused; [by eapply IH|].
  destruct (rec (push c st)) as [[out1 st1]|] eqn:E1; [|done].
  apply Hrec in E1 as ->. rewrite (pop_push c st Hused) in E.
  destruct (for_candidates rec cs st) as [[out2 st2]|] eqn:E2; [|done].
  injection E as _ <-. by eapply IH.
Qed.

(** Whatever room it has, a call of [solve] that returns leaves the
    shared state as it found it. *)
Lemma solve_restores (n : nat) (adj : list Z) (start_node_r end_node_r : option nat) :
  ∀ depth st out st',
    solve n adj start_node_r end_node_r depth st = Some (out, st') → st' = st.
Proof.
  induction depth as [|depth IH]; intros st out st' E; [done|].
  simpl in E. destruct (length (path st) =? n)%nat.
  - destruct end_node_r as [e|]; [|by injection E as _ <-].
    destruct (path_last (path st) =? e)%nat; by injection E as _ <-.
  - destruct (candidates n adj start_node_r end_node_r st) as [cs|];
      [|by injection E as _ <-].
    by eapply (for_candidates_restores _ IH).
Qed.

Section SearchChecked.
Variable n : nat.
Variable adj : list Z.
Variable start_node_r : option nat.
Variable end_node_r : option nat.

Hypothesis Hn : (0 < n)%nat.
Hypothesis Hlen : length adj = n.
Hypothesis Hadj : ∀ i, mask_below n (adj !!! i).
Hypothesis Hstart : ∀ s, start_node_r = Some s → (s < n)%nat.

Lemma path_last_below (st : SearchState) :
  coherent n st → path st ≠ [] → (path_last (path st) < n)%nat.
Proof.
  intros (_ & Hlt & _) Hp. apply Hlt.
  pose proof (last_path_last (path st) Hp) as Hl.
  generalize dependent (path_last (path st)). intros x Hl.
  rewrite last_Some in Hl. destruct Hl as [l' ->].
  apply elem_of_app. right. left.
Qed.

Lemma candidates_checked_inr (st : SearchState) :
  coherent n st →
  candidates_checked n adj start_node_r end_node_r st
  = inr (candidates n adj start_node_r end_node_r st).
Proof.
  intros Hst. unfold candidates_checked, candidates.
  destruct (length (path st) =? 0)%nat eqn:HL; [done|].
  assert (Hp : path st ≠ []).
  { intros E. rewrite E in HL. done. }
  rewrite (get_last_path _ Hp). simpl.
  rewrite get_index_total by (rewrite Hlen; by apply path_last_below). simpl.
  pose proof (allowed_mask_below n adj end_node_r Hn Hadj st) as Hbelow.
  unfold allowed_mask, base_allowed in *. cbv zeta in *.
  match goal with
  | |- match ?m with _ => _ end = _ => destruct m as [allowed|] eqn:Hres
  end; [|done].
  destruct (Hbelow allowed eq_refl) as [Hpos Hbits].
  rewrite (lowbits_checked_inr allowed Hpos). simpl.
  erewrite sorted_checked_inr; [done|].
  intros c Hc. simpl. rewrite get_index_total; [done|].
  rewrite Hlen. apply Hbits. by apply elem_of_lowbits.
Qed.

Lemma for_candidates_checked_agree
    (rec : SearchState → option (list (list nat) * SearchState))
    (rec_c : SearchState → failure + (list (list nat) * SearchState))
    (st : SearchState) :
  coherent n st →
  (∀ st' out st'', rec st' = Some (out, st'') → st'' = st') →
  (∀ st', coherent n st' → length (path st') = S (length (path st)) →
          rec_c st' = within_frames (rec st')) →
  ∀ cs, (∀ c, c ∈ cs → (c < n)%nat) →
  for_candidates_checked rec_c cs st = within_frames (for_candidates rec cs st).
Proof.
  intros Hst Hrestores Hrec cs. induction cs as [|c cs IH]; intros Hcs; [done|].
  assert (IH' := IH (λ c' Hc', Hcs c' (list_elem_of_further _ _ _ Hc'))).
  simpl. destruct (bit_set (used_mask st) c) eqn:Hused; [done|].
  rewrite Hrec.
  - destruct (rec (push c st)) as [[out1 st1]|] eqn:E1; [|done].
    apply Hrestores in E1 as ->. simpl.
    rewrite (pop_push c st Hused), IH'.
    by destruct (for_candidates rec cs st) as [[out2 st2]|].
  - apply coherent_push; [done|apply Hcs; left|done].
  - simpl. rewrite length_app. simpl. lia.
Qed.

Lemma solve_checked_agree : ∀ (frames : nat) (st : SearchState),
  coherent n st → (length (path st) ≤ n)%nat →
  solve_checked n adj start_node_r end_node_r frames st
  = within_frames (solve n adj start_node_r end_node_r frames st).
Proof.
  induction frames as [|frames IH]; intros st Hst HL; [done|].
  simpl. destruct (length (path st) =? n)%nat eqn:E.
  - apply Nat.eqb_eq in E. destruct end_node_r as [e|]; [|done].
    assert (Hp : path st ≠ []).
    { intros Hnil. rewrite Hnil in E. simpl in E. lia. }
    rewrite (get_last_path _ Hp). simpl.
    by destruct (path_last (path st) =? e)%nat.
  - apply Nat.eqb_neq in E. rewrite (candidates_checked_inr st Hst). simpl.
    destruct (candidates n adj start_node_r end_node_r st) as [cs|] eqn:Hcs; [|done].
    apply for_candidates_checked_agree; [done| | |].
    + intros st' out st''. apply solve_restores.
    + intros st' Hst' HL'. apply IH; [done|lia].
    + by apply (candidates_below n adj start_node_r end_node_r Hn Hadj Hstart st cs).
Qed.

Lemma backtrack_checked_agree (frames : nat) :
  _backtrack_with_end_checked n adj start_node_r end_node_r frames
  = match solve n adj start_node_r end_node_r frames fresh with
    | Some (paths, _) => inr paths
    | None => inl RecursionError
    end.
Proof.
  unfold _backtrack_with_end_checked.
  rewrite solve_checked_agree; [|apply coherent_fresh|simpl; lia].
  by destruct (solve n adj start_node_r end_node_r frames fresh) as [[paths st]|].
Qed.
End SearchChecked.

Lemma get_key_Some {K V : Type} `{EqDecision K} (d : list (K * V)) (k : K) (v : V) :
  dict_get d k = Some v → get_key d k = inr v.
Proof. intros E. unfold get_key. by rewrite E. Qed.

Lemma get_key_members (t2m : list (string * gset string)) (team : string) :
  team ∈ map fst t2m → get_key t2m team = inr (members_of t2m team).
Proof.
  intros Hteam. unfold get_key, members_of.
  destruct (dict_get t2m team) as [members|] eqn:E; [done|].
  by apply dict_get_None in E.
Qed.

Lemma sequence_is_valid_checked_inr (t2m : list (string * gset string)) (sq : list string) :
  (∀ a, a ∈ sq → a ∈ map fst t2m) →
  _sequence_is_valid_checked t2m sq = inr (_sequence_is_valid t2m sq).
Proof.
  induction sq as [|a sq IH]; intros Hsq; [done|].
  destruct sq as [|b rest]; [done|].
  change (_sequence_is_valid t2m (a :: b :: rest))
    with (if decide (members_of t2m a ∩ members_of t2m b = ∅)
          then _sequence_is_valid t2m (b :: rest)
          else (false, Some (a, b, members_of t2m a ∩ members_of t2m b))).
  change (_sequence_is_valid_checked t2m (a :: b :: rest))
    with (bind (get_key t2m a) (λ members_a,
          bind (get_key t2m b) (λ members_b,
            if decide (members_a ∩ members_b = ∅)
            then _sequence_is_valid_checked t2m (b :: rest)
            else inr (false, Some (a, b, members_a ∩ members_b))))).
  rewrite (get_key_members t2m a) by (apply Hsq; left).
  rewrite (get_key_members t2m b) by (apply Hsq; right; left).
  unfold bind.
  destruct (decide (members_of t2m a ∩ members_of t2m b = ∅)); [|done].
  apply IH. intros c Hc. apply Hsq. by right.
Qed.

Section CallChecked.
Variable self : SetlistSolver.
Hypothesis Hself : constructed self.

Lemma get_key_rank (j : nat) :
  (j < team_count self)%nat → get_key (idx_to_rank self) j = inr (rank_of self j).
Proof.
  intros Hj. destruct (idx_to_rank_lookup self j Hj) as (r & Hr & _).
  unfold rank_of. rewrite Hr. by apply get_key_Some.
Qed.

Lemma ranked_indices_checked_inr :
  ranked_indices_checked self = inr (ranked_indices self).
Proof.
  unfold ranked_indices_checked, ranked_indices. apply sorted_checked_inr.
  intros i Hi. apply elem_of_seq in Hi.
  rewrite get_index_total; [done|].
  rewrite (length_adjacency_masks self Hself). lia.
Qed.

Lemma teams_r_checked_inr :
  teams_r_checked self (ranked_indices self) = inr (teams_r self).
Proof.
  unfold teams_r_checked, teams_r. apply map_checked_inr.
  intros i Hi. apply elem_of_ranked_indices in Hi.
  apply get_index_total. destruct Hself as (_ & <- & _). done.
Qed.

Lemma reindexed_mask_checked_inr (original_mask : Z) :
  reindexed_mask_checked self (idx_to_rank self) original_mask
  = inr (reindexed_mask self original_mask).
Proof.
  unfold reindexed_mask_checked, reindexed_mask.
  apply (foldl_checked_inr (λ _, True)); [|done].
  intros m j _ Hj. apply elem_of_seq in Hj. split; [|done].
  destruct (bit_set original_mask j); [|done].
  rewrite get_key_rank by lia. done.
Qed.

Lemma adj_r_checked_inr : adj_r_checked self (idx_to_rank self) = inr (adj_r self).
Proof.
  unfold adj_r_checked, adj_r.
  apply (foldl_checked_inr (λ a, length a = team_count self));
    [|apply length_replicate].
  intros a i Ha Hi. apply elem_of_seq in Hi.
  rewrite get_index_total by (rewrite (length_adjacency_masks self Hself); lia).
  simpl. rewrite reindexed_mask_checked_inr. simpl.
  rewrite get_key_rank by lia. simpl.
  unfold set_index. rewrite decide_True by (rewrite Ha; by apply rank_of_lt).
  split; [done|]. by rewrite length_insert.
Qed.

Lemma node_r_checked_inr (t : option string) :
  (truthy t = true → not_a_team self t = false) →
  node_r_checked self (idx_to_rank self) t = inr (node_r self t).
Proof.
  intros Hknown. unfold node_r_checked, node_r.
  destruct (truthy t) eqn:Ht; [|done]. specialize (Hknown eq_refl).
  destruct t as [name|]; [|done]. simpl.
  rewrite (not_a_team_spec self Hself) in Hknown.
  apply negb_false_iff, bool_decide_eq_true in Hknown.
  destruct (team_to_idx_lookup self Hself name Hknown) as (i & Hi & Hteam).
  rewrite (get_key_Some _ _ _ Hi), Hi. simpl.
  rewrite get_key_rank; [done|].
  apply lookup_lt_Some in Hteam. destruct Hself as (_ & -> & _). done.
Qed.

Lemma names_checked_inr (p : list nat) :
  (∀ c, c ∈ p → (c < team_count self)%nat) →
  map_checked (get_index (teams_r self)) p = inr (names_of self p).
Proof.
  intros Hp. unfold names_of. apply map_checked_inr.
  intros c Hc. apply get_index_total. rewrite length_teams_r. by apply Hp.
Qed.

Lemma names_of_keys (p : list nat) (a : string) :
  (∀ c, c ∈ p → (c < team_count self)%nat) →
  a ∈ names_of self p → a ∈ map fst (teams_to_members self).
Proof.
  intros Hp Ha. unfold names_of in Ha. apply list_elem_of_fmap in Ha as (c & -> & Hc).
  destruct Hself as (<- & _).
  rewrite <- (teams_r_Permutation self Hself).
  apply list_elem_of_lookup_total_2. rewrite length_teams_r. by apply Hp.
Qed.

Lemma emit_checked_inr (limit : option Z) (paths : list (list nat)) :
  (∀ p, p ∈ paths → ∀ c, c ∈ p → (c < team_count self)%nat) →
  ∀ produced,
    emit_checked self (teams_r self) limit produced paths
    = inr (emit self limit produced paths).
Proof.
  induction paths as [|p rest IH]; intros Hpaths produced; [done|].
  assert (Hp : ∀ c, c ∈ p → (c < team_count self)%nat) by (apply Hpaths; left).
  assert (Hrest : ∀ q, q ∈ rest → ∀ c, c ∈ q → (c < team_count self)%nat).
  { intros q Hq. apply Hpaths. by right. }
  simpl.
  destruct (match limit with Some k => (produced >=? k)%Z | None => false end); [done|].
  rewrite (names_checked_inr p Hp). simpl.
  rewrite sequence_is_valid_checked_inr by (intros a; by apply names_of_keys).
  simpl.
  destruct (fst (_sequence_is_valid (teams_to_members self) (names_of self p))).
  - by rewrite (IH Hrest).
  - by apply IH.
Qed.

Lemma paths_below (start_team end_team : option string) (frames : nat)
    (paths : list (list nat)) (st : SearchState) :
  solve (team_count self) (adj_r self) (node_r self start_team) (node_r self end_team)
    frames fresh = Some (paths, st) →
  ∀ p, p ∈ paths → ∀ c, c ∈ p → (c < team_count self)%nat.
Proof.
  intros E p Hp c Hc.
  destruct (backtrack_of_solver self start_team end_team Hself)
    as (out & Hrun & _ & Hall & _).
  cbv zeta in *.
  pose proof (solve_agree _ _ _ _ _ _ _ _ _ E Hrun) as [= -> _].
  rewrite Forall_forall in Hall. destruct (Hall p Hp) as (_ & _ & Hlt & _).
  by apply Hlt.
Qed.

Lemma generate_checked_runs (frames : nat) (limit : option Z)
    (start_team end_team : option string) :
  truthy start_team && not_a_team self start_team = false →
  truthy end_team && not_a_team self end_team = false →
  generate_valid_setlists_checked self frames limit start_team end_team
  = match solve (team_count self) (adj_r self) (node_r self start_team)
            (node_r self end_team) frames fresh with
    | Some (paths, _) => inr (emit self limit 0 paths)
    | None => inl RecursionError
    end.
Proof.
  intros Hs He. unfold generate_valid_setlists_checked. rewrite Hs, He.
  rewrite ranked_indices_checked_inr. simpl.
  rewrite teams_r_checked_inr. simpl.
  change (imap (λ r orig : nat, (orig, r)) (ranked_indices self)) with (idx_to_rank self).
  rewrite adj_r_checked_inr. simpl.
  rewrite !node_r_checked_inr.
  2:{ intros Ht. rewrite Ht in He. done. }
  2:{ intros Ht. rewrite Ht in Hs. done. }
  simpl.
  assert (Hn : (0 < team_count self)%nat) by apply Hself.
  rewrite backtrack_checked_agree;
    [|done|apply length_adj_r|apply (adj_r_below self Hself)
     |intros s; by apply node_r_lt].
  destruct (solve (team_count self) (adj_r self) (node_r self start_team)
              (node_r self end_team) frames fresh) as [[paths st]|] eqn:E; [|done].
  simpl. apply emit_checked_inr. by eapply paths_below.
Qed.
End CallChecked.

(** With three teams the search nests four calls of [solve]: an
    interpreter that allows three ends the call with a [RecursionError]. *)
Example recursion_error_example :
  generate_valid_setlists_checked (solver_of scenario_abc) 3 None None None
  = inl RecursionError
  ∧ generate_valid_setlists_checked (solver_of scenario_abc) 4 None None None
    = inr [["a"; "b"; "c"]; ["c"; "b"; "a"]]%string.
Proof. split; vm_compute; reflexivity. Qed.

(** The reads do fail out of range. *)
Example index_error_example :
  get_index ["a"; "b"]%string 2 = inl IndexError
  ∧ map_checked (get_index ["a"; "b"]%string) [1; 2; 0]%nat = inl IndexError
  ∧ get_key [("a"%string, 0%nat)] "b"%string = inl MissingKey.
Proof. done. Qed.

(** C6, as the code has it, with every read as the interpreter has it.
    The constructor raises exactly for the empty mapping. On a constructed
    solver [generate_valid_setlists] raises its [ValueError] exactly when a
    start or an end is given that is not the empty string and is not a key
    of the mapping. In every other case no index is out of range, no key is
    missing and no loop goes on for ever: the call yields what the
    consuming loop makes of the paths of the search, unless the search
    nests more calls than the interpreter allows; it never does when the
    interpreter allows more nested calls than there are teams. *)
Theorem C6_error_contract (raw : list (string * gset string)) (frames : nat)
    (limit : option Z) (start_team end_team : option string) :
  match __init__ raw with
  | inl err =>
      raw = [] ∧ err = ValueError "Input `teams_to_members` cannot be empty."
  | inr self =>
      raw ≠ []
      ∧ ((nonempty_unknown self start_team ∨ nonempty_unknown self end_team) ↔
         ∃ msg, generate_valid_setlists_checked self frames limit start_team end_team
                = inl (Raised (ValueError msg)))
      ∧ (¬ (nonempty_unknown self start_team ∨ nonempty_unknown self end_team) →
         generate_valid_setlists_checked self frames limit start_team end_team
         = match solve (team_count self) (adj_r self) (node_r self start_team)
                   (node_r self end_team) frames fresh with
           | Some (paths, _) => inr (emit self limit 0 paths)
           | None => inl RecursionError
           end
         ∧ ((team_count self < frames)%nat →
            ∃ out, generate_valid_setlists_checked self frames limit start_team end_team
                   = inr out
                 ∧ generate_valid_setlists self limit start_team end_team = inr out))
  end.
Proof.
  destruct (__init__ raw) as [err|self] eqn:Hinit.
  { destruct raw; [|done]. by injection Hinit as <-. }
  pose proof (init_constructed raw self Hinit) as Hself.
  split; [by intros ->|].
  rewrite !nonempty_unknown_spec by done.
  destruct (truthy start_team && not_a_team self start_team) eqn:Hs.
  { apply andb_true_iff in Hs as Hs'. split; [|intros []; by left].
    split; [intros _|by left].
    unfold generate_valid_setlists_checked. rewrite Hs. by eexists. }
  destruct (truthy end_team && not_a_team self end_team) eqn:He.
  { apply andb_true_iff in He as He'. split; [|intros []; by right].
    split; [intros _|by right].
    unfold generate_valid_setlists_checked. rewrite Hs, He. by eexists. }
  pose proof (generate_checked_runs self Hself frames limit start_team end_team Hs He)
    as Hruns.
  assert (Hnone : ¬ ((truthy start_team = true ∧ not_a_team self start_team = true)
                     ∨ (truthy end_team = true ∧ not_a_team self end_team = true))).
  { intros [[Ht Hm]|[Ht Hm]]; [rewrite Ht, Hm in Hs|rewrite Ht, Hm in He]; done. }
  split.
  - split; [done|]. intros [msg Hmsg]. rewrite Hruns in Hmsg.
    by destruct (solve (team_count self) (adj_r self) (node_r self start_team)
                   (node_r self end_team) frames fresh) as [[paths st]|].
  - intros _. split; [done|]. intros Hframes. rewrite Hruns.
    assert (Hn : (0 < team_count self)%nat) by apply Hself.
    destruct (solve_spec (team_count self) (adj_r self) (node_r self start_team)
                (node_r self end_team) Hn (adj_r_below self Hself)
                (λ s, node_r_lt self start_team s Hself) frames fresh)
      as (paths & Hrun & _); [apply coherent_fresh|simpl; lia|simpl; lia|].
    destruct (backtrack_of_solver self start_team end_team Hself)
      as (paths' & Hrun' & Hpaths & _).
    cbv zeta in *.
    pose proof (solve_agree _ _ _ _ _ _ _ _ _ Hrun Hrun') as [= ->].
    rewrite Hrun. eexists. split; [done|].
    unfold generate_valid_setlists. by rewrite Hs, He, Hpaths.
Qed.

(** C6 as the specification words it fails for a start that is the empty
    string: it is given, it is not a key of the mapping, and the call
    does not raise. *)
Lemma counterexample_C6_empty_start :
  ¬ ((given_unknown (solver_of scenario_abc) (Some EmptyString)
      ∨ given_unknown (solver_of scenario_abc) None) ↔
     ∃ err, generate_valid_setlists (solver_of scenario_abc) None
              (Some EmptyString) None = inl err).
Proof.
  intros [H _]. destruct H as [err Herr].
  - left. exists EmptyString. split; [done|].
    change (teams (solver_of scenario_abc)) with ["a"; "b"; "c"]%string.
    rewrite !not_elem_of_cons. split_and!; try done. apply not_elem_of_nil.
  - vm_compute in Herr. discriminate Herr.
Qed.

(** * The call on the solver object *)

(** ** Two calls on the same solver *)

Lemma iteration_of_nil (X : gset string) : iteration_of X [] → X = ∅.
Proof.
  intros [_ HX]. apply leibniz_equiv. intros m. split; [|set_solver].
  intros Hm. apply HX in Hm. by apply elem_of_nil in Hm.
Qed.

Lemma iteration_of_empty (l : list string) : iteration_of ∅ l → l = [].
Proof.
  intros [_ HX]. destruct l as [|m l]; [done|].
  exfalso. apply (not_elem_of_empty (C := gset string) m), HX. left.
Qed.

Lemma iteration_of_elements (X : gset string) : iteration_of X (elements X).
Proof. split; [apply NoDup_elements|]. intros m. apply elem_of_elements. Qed.

(** Two orders of the same set are permutations of each other. *)
Lemma iteration_of_Permutation (X : gset string) (l1 l2 : list string) :
  iteration_of X l1 → iteration_of X l2 → l1 ≡ₚ l2.
Proof.
  intros [Hd1 H1] [Hd2 H2]. apply NoDup_Permutation; [done..|].
  intros m. by rewrite H1, H2.
Qed.

(** *** Sorting strings *)

Lemma string_compare_trans : ∀ s1 s2 s3 : string,
  String.compare s1 s2 ≠ Gt → String.compare s2 s3 ≠ Gt → String.compare s1 s3 ≠ Gt.
Proof.
  induction s1 as [|a s1 IH]; intros [|b s2] [|c s3]; simpl; try done.
  unfold Ascii.compare.
  destruct (N.compare_spec (N_of_ascii a) (N_of_ascii b)) as [Eab|Hab|Hab];
    destruct (N.compare_spec (N_of_ascii b) (N_of_ascii c)) as [Ebc|Hbc|Hbc];
    intros H1 H2; try done.
  - rewrite Eab, Ebc, N.compare_refl. by apply (IH s2).
  - rewrite Eab. by rewrite (proj2 (N.compare_lt_iff _ _) Hbc).
  - rewrite <- Ebc. by rewrite (proj2 (N.compare_lt_iff _ _) Hab).
  - by rewrite (proj2 (N.compare_lt_iff _ _) (N.lt_trans _ _ _ Hab Hbc)).
Qed.

Lemma string_leb_trans (s1 s2 s3 : string) :
  String.leb s1 s2 = true → String.leb s2 s3 = true → String.leb s1 s3 = true.
Proof.
  unfold String.leb. intros H1 H2.
  pose proof (string_compare_trans s1 s2 s3) as Ht.
  destruct (String.compare s1 s2), (String.compare s2 s3), (String.compare s1 s3);
    try done; exfalso; by apply Ht.
Qed.

Lemma insert_string_Permutation (x : string) (l : list string) :
  insert_string x l ≡ₚ x :: l.
Proof.
  induction l as [|y l IH]; simpl; [done|].
  destruct (String.leb x y); [done|]. by rewrite IH, Permutation_swap.
Qed.

Lemma sorted_strings_Permutation (l : list string) : sorted_strings l ≡ₚ l.
Proof.
  induction l as [|x l IH]; simpl; [done|]. by rewrite insert_string_Permutation, IH.
Qed.

Lemma insert_string_sorted (x : string) (l : list string) :
  StronglySorted (λ a b, String.leb a b = true) l →
  StronglySorted (λ a b, String.leb a b = true) (insert_string x l).
Proof.
  induction 1 as [|y l Hl IH Hy]; simpl; [by repeat constructor|].
  destruct (String.leb x y) eqn:Hxy.
  - constructor; [by constructor|]. constructor; [done|].
    eapply Forall_impl; [exact Hy|]. intros z Hyz. simpl in Hyz.
    by apply (string_leb_trans x y z).
  - constructor; [done|]. rewrite insert_string_Permutation. constructor; [|done].
    destruct (String.leb_total x y) as [Hle|Hle]; [congruence|done].
Qed.

Lemma sorted_strings_sorted (l : list string) :
  StronglySorted (λ a b, String.leb a b = true) (sorted_strings l).
Proof.
  induction l as [|x l IH]; simpl; [constructor|]. by apply insert_string_sorted.
Qed.

(** [sorted] gives the same list for every order of the same members. *)
Lemma sorted_strings_order (l1 l2 : list string) :
  l1 ≡ₚ l2 → sorted_strings l1 = sorted_strings l2.
Proof.
  intros Hperm.
  apply (StronglySorted_unique_strong (λ a b, String.leb a b = true)).
  - intros a b _ _. apply String.leb_antisym.
  - apply sorted_strings_sorted.
  - apply sorted_strings_sorted.
  - by rewrite !sorted_strings_Permutation.
Qed.

(** *** The validator *)

(** Whatever the order of the overlaps, the verdict is that of the
    validator. *)
Lemma validates_verdict (t2m : list (string * gset string)) (sq : list string)
    (r : bool * option (string * string * list string)) :
  validates t2m sq r → fst r = fst (_sequence_is_valid t2m sq).
Proof.
  induction 1 as [sq Hsq|a b rest overlap r Hiter -> Hrest IH|a b rest overlap Hiter Hne].
  - destruct sq as [|a [|b rest]]; [done..|]. simpl in Hsq. lia.
  - change (_sequence_is_valid t2m (a :: b :: rest))
      with (if decide (members_of t2m a ∩ members_of t2m b = ∅)
            then _sequence_is_valid t2m (b :: rest)
            else (false, Some (a, b, members_of t2m a ∩ members_of t2m b))).
    by rewrite (iteration_of_nil _ Hiter), decide_True.
  - change (_sequence_is_valid t2m (a :: b :: rest))
      with (if decide (members_of t2m a ∩ members_of t2m b = ∅)
            then _sequence_is_valid t2m (b :: rest)
            else (false, Some (a, b, members_of t2m a ∩ members_of t2m b))).
    destruct (decide (members_of t2m a ∩ members_of t2m b = ∅)) as [E|]; [|done].
    rewrite E in Hiter. by apply iteration_of_empty in Hiter.
Qed.

(** A sequence that is rejected comes with its conflict. *)
Lemma validates_rejected (t2m : list (string * gset string)) (sq : list string)
    (r : bool * option (string * string * list string)) :
  validates t2m sq r → fst r = false →
  ∃ a b overlap, r = (false, Some (a, b, overlap)).
Proof.
  induction 1 as [sq Hsq|a b rest overlap r Hiter -> Hrest IH|a b rest overlap Hiter Hne];
    intros Hr; [done|by apply IH|by eexists _, _, _].
Qed.

(** Two runs of the validator report the same pair, and the same shared
    members up to their order. *)
Lemma validates_conflict_order (t2m : list (string * gset string)) (sq : list string)
    (r1 : bool * option (string * string * list string)) :
  validates t2m sq r1 →
  ∀ a1 b1 l1 a2 b2 l2,
    r1 = (false, Some (a1, b1, l1)) →
    validates t2m sq (false, Some (a2, b2, l2)) →
    a1 = a2 ∧ b1 = b2 ∧ l1 ≡ₚ l2.
Proof.
  induction 1 as [sq Hsq|a b rest overlap r Hiter -> Hrest IH|a b rest overlap Hiter Hne];
    intros a1 b1 l1 a2 b2 l2 Hr1 H2; [done| |].
  - inversion H2 as [|? ? ? overlap' ? Hiter' -> Hrest'|? ? ? overlap' Hiter' Hne']; subst.
    + by eapply IH.
    + apply iteration_of_nil in Hiter. rewrite Hiter in Hiter'.
      by apply iteration_of_empty in Hiter'.
  - injection Hr1 as <- <- <-.
    inversion H2 as [|? ? ? overlap' ? Hiter' -> Hrest'|? ? ? overlap' Hiter' Hne']; subst.
    + apply iteration_of_nil in Hiter'. rewrite Hiter' in Hiter.
      by apply iteration_of_empty in Hiter.
    + split_and!; [done..|]. by eapply iteration_of_Permutation.
Qed.

(** The validator has a verdict for every sequence. *)
Lemma validates_total (t2m : list (string * gset string)) (sq : list string) :
  ∃ r, validates t2m sq r.
Proof.
  induction sq as [|a sq IH].
  { eexists. apply validates_short. simpl. lia. }
  destruct sq as [|b rest].
  { eexists. apply validates_short. simpl. lia. }
  destruct IH as [r Hr].
  destruct (decide (members_of t2m a ∩ members_of t2m b = ∅)) as [E|E].
  - exists r. apply (validates_pass t2m a b rest []); [|done..].
    rewrite E. split; [constructor|]. set_solver.
  - eexists. apply (validates_conflict t2m a b rest _ (iteration_of_elements _)).
    intros Hnil. apply E, iteration_of_nil. rewrite <- Hnil.
    apply iteration_of_elements.
Qed.

(** *** The consuming loop and the call *)

Section Calls.
Variable self : SetlistSolver.
Variable debug : bool.
Variable limit : option Z.

(** Two runs of the consuming loop over the same paths show the same
    events: the order of the shared members does not reach the message,
    which sorts them. *)
Lemma consumes_deterministic (produced : Z) (paths : list (list nat))
    (trace1 : list event) :
  consumes self debug limit produced paths trace1 →
  ∀ trace2, consumes self debug limit produced paths trace2 → trace1 = trace2.
Proof.
  induction 1 as
    [produced|produced p rest Hlim|produced p rest conflict trace Hlim Hv Hrun IH
    |produced p rest a b overlap trace Hlim Hv Hrun IH];
    intros trace2 H2.
  - by inversion H2.
  - inversion H2; subst; [done|congruence..].
  - inversion H2 as [| |? ? ? conflict' trace' Hlim' Hv' Hrun'
                     |? ? ? a' b' overlap' trace' Hlim' Hv' Hrun']; subst.
    + congruence.
    + f_equal. by apply IH.
    + apply validates_verdict in Hv, Hv'. simpl in *. congruence.
  - inversion H2 as [| |? ? ? conflict' trace' Hlim' Hv' Hrun'
                     |? ? ? a' b' overlap' trace' Hlim' Hv' Hrun']; subst.
    + congruence.
    + apply validates_verdict in Hv, Hv'. simpl in *. congruence.
    + destruct (validates_conflict_order _ _ _ Hv _ _ _ _ _ _ eq_refl Hv')
        as (<- & <- & Hperm).
      by rewrite (sorted_strings_order _ _ Hperm), (IH _ Hrun').
Qed.

(** The setlists among the events are those of [emit]. *)
Lemma consumes_emit (produced : Z) (paths : list (list nat)) (trace : list event) :
  consumes self debug limit produced paths trace →
  setlists_of (Returns trace) = inr (emit self limit produced paths).
Proof.
  unfold setlists_of. induction 1 as
    [produced|produced p rest Hlim|produced p rest conflict trace Hlim Hv Hrun IH
    |produced p rest a b overlap trace Hlim Hv Hrun IH].
  - done.
  - simpl. unfold limit_reached in Hlim. by rewrite Hlim.
  - apply validates_verdict in Hv. simpl in Hv. injection IH as IH.
    simpl. unfold limit_reached in Hlim. by rewrite Hlim, <- Hv, IH.
  - apply validates_verdict in Hv. simpl in Hv. injection IH as IH.
    simpl. unfold limit_reached in Hlim. rewrite Hlim, <- Hv.
    by destruct debug; simpl; rewrite IH.
Qed.

(** The consuming loop has a run on every list of paths. *)
Lemma consumes_total (paths : list (list nat)) :
  ∀ produced, ∃ trace, consumes self debug limit produced paths trace.
Proof.
  induction paths as [|p rest IH]; intros produced.
  { eexists. constructor. }
  destruct (limit_reached limit produced) eqn:Hlim.
  { eexists. by apply consumes_limit. }
  destruct (validates_total (teams_to_members self) (names_of self p)) as [r Hr].
  destruct r as [[|] conflict].
  - destruct (IH (produced + 1)%Z) as [trace Htrace].
    eexists. by eapply consumes_yield.
  - destruct (IH produced) as [trace Htrace].
    destruct (validates_rejected _ _ _ Hr eq_refl) as (a & b & overlap & [= ->]).
    eexists. by eapply consumes_skip.
Qed.
End Calls.

Lemma iteration_of_pair (x y : string) (l : list string) :
  x ≠ y → l = [x; y] ∨ l = [y; x] →
  iteration_of (({[x]} ∪ {[y]}) ∩ ({[x]} ∪ {[y]})) l.
Proof.
  intros Hxy Hl. split.
  - destruct Hl as [-> | ->]; apply NoDup_cons; (split; [|apply NoDup_singleton]);
      rewrite list_elem_of_singleton; congruence.
  - intros m. rewrite elem_of_intersection, !elem_of_union, !elem_of_singleton.
    destruct Hl as [-> | ->]; rewrite !elem_of_cons, elem_of_nil; tauto.
Qed.

(** In the solver of the data issue the shared members of [a] and [b] come
    in either order, and the message is the same. *)
Example overlap_in_either_order :
  validates (teams_to_members scenario_data_issue) ["a"; "b"]%string
    (false, Some ("a", "b", ["x"; "y"]))%string
  ∧ validates (teams_to_members scenario_data_issue) ["a"; "b"]%string
      (false, Some ("a", "b", ["y"; "x"]))%string
  ∧ sorted_strings ["y"; "x"]%string = sorted_strings ["x"; "y"]%string.
Proof.
  split_and!; [| |done]; apply validates_conflict; try done;
    apply iteration_of_pair; auto.
Qed.

(** C7. A call of [generate_valid_setlists] has an outcome, and two calls
    with the same arguments, the second on the solver object as the first
    leaves it, have the same outcome: the same setlists and messages in
    the same order, or the same error. This holds whatever the order in
    which the sets that the validator builds give their members in each
    of the two calls; the solver object is after each call as it was
    before; and the setlists are those of [generate_valid_setlists]
    above. *)
Theorem C7_deterministic (self : SetlistSolver) (debug : bool) (limit : option Z)
    (start_team end_team : option string) :
  (∃ r, calls self debug limit start_team end_team r self)
  ∧ ∀ (r1 r2 : outcome) (self1 self2 : SetlistSolver),
      calls self debug limit start_team end_team r1 self1 →
      calls self1 debug limit start_team end_team r2 self2 →
      r1 = r2 ∧ self1 = self ∧ self2 = self
      ∧ setlists_of r1 = generate_valid_setlists self limit start_team end_team.
Proof.
  split.
  - destruct (truthy start_team && not_a_team self start_team) eqn:Hs.
    { eexists. by apply calls_start_unknown. }
    destruct (truthy end_team && not_a_team self end_team) eqn:He.
    { eexists. by apply calls_end_unknown. }
    destruct (consumes_total self debug limit
                (_backtrack_with_end (team_count self) (adj_r self)
                   (node_r self start_team) (node_r self end_team)) 0) as [trace Htrace].
    exists (Returns trace). by apply calls_runs.
  - intros r1 r2 self1 self2 H1 H2.
    assert (E1 : self1 = self) by (by destruct H1). subst self1.
    assert (E2 : self2 = self) by (by destruct H2). subst self2.
    unfold generate_valid_setlists.
    destruct H1 as [Hs|Hs He|trace1 Hs He Hrun1];
      destruct H2 as [Hs'|Hs' He'|trace2 Hs' He' Hrun2]; try congruence.
    + by rewrite Hs.
    + by rewrite Hs, He.
    + rewrite Hs, He.
      split_and!; [|done..|exact (consumes_emit self debug limit 0 _ _ Hrun1)].
      f_equal. by apply (consumes_deterministic self debug limit 0 _ _ Hrun1).
Qed.

(** A call on the solver of the data issue with [debug]: both candidates
    are skipped, and the messages list the shared members in sorted order
    whichever order the overlaps have. *)
Example data_issue_call :
  calls scenario_data_issue true None None None
    (Returns [Prints "a" "b" ["x"; "y"]; Prints "b" "a" ["x"; "y"]])%string
    scenario_data_issue.
Proof.
  apply calls_runs; [done..|].
  replace (_backtrack_with_end (team_count scenario_data_issue)
             (adj_r scenario_data_issue) (node_r scenario_data_issue None)
             (node_r scenario_data_issue None))
    with [[0; 1]; [1; 0]]%nat by (vm_compute; reflexivity).
  apply (consumes_skip scenario_data_issue true None 0 [0; 1]%nat [[1; 0]%nat]
           "a" "b" ["y"; "x"]%string [Prints "b" "a" ["x"; "y"]]%string); [done| |].
  { apply validates_conflict; [|done]. apply iteration_of_pair; auto. }
  apply (consumes_skip scenario_data_issue true None 0 [1; 0]%nat []
           "b" "a" ["x"; "y"]%string []); [done| |constructor].
  apply validates_conflict; [|done]. apply iteration_of_pair; auto.
Qed.
